(** * anime-poc: the Jikan fetch-and-normalise pipeline

    A shallow embedding of [fetchJikan] and [getFullAnimeDetails]
    (anime-poc.ts, section 3 "FETCHER & MAPPER LOGIC") together with the
    fragment of JavaScript's dynamic semantics the two functions exercise:
    property reads on values that came out of [JSON.parse], optional
    chaining, truthiness, the array methods [map], [filter] and [flatMap],
    exceptions, and the three effects [console.log], [fetch] and
    [setTimeout]. *)

From Stdlib Require Import List Permutation Ascii String ZArith NArith Floats DecimalString.
Import ListNotations.

Open Scope bool_scope.
Open Scope string_scope.
Open Scope list_scope.

Set Implicit Arguments.
Set Warnings "-inexact-float".

(** ** Run-time values

    TypeScript interfaces are erased, so what flows through the mapper are
    plain JavaScript values.  [VDate arg] stands for the object
    [new Date(arg)]; the engine's date parser is outside the model, so a
    date is represented by the argument it was constructed from. *)

#[warnings="-register-all"]
Inductive value : Type :=
| VUndefined
| VNull
| VBool (b : bool)
| VNum (n : float)
| VStr (s : string)
| VArr (elems : list value)
| VObj (props : list (string * value))
| VDate (arg : value).

(** Thrown values.  [Error message] is [new Error(message)]; [TypeError]
    covers reading a property of [undefined]/[null], calling something that
    is not a function, and a [fetch] that fails at the network level;
    [SyntaxError] is what [res.json()] rejects with on a non-JSON body. *)

Inductive error : Type :=
| Error (message : string)
| TypeError
| SyntaxError.

(** Completion of a synchronous expression: a value or a throw. *)

Inductive result (A : Type) : Type :=
| Normal (a : A)
| Throw (e : error).

Arguments Normal {A} a.
Arguments Throw {A} e.

Definition rbind {A B} (m : result A) (k : A -> result B) : result B :=
  match m with
  | Normal a => k a
  | Throw e => Throw e
  end.

Notation "'let*' x ':=' m 'in' k" := (rbind m (fun x => k))
  (at level 10, x name, m at level 100, k at level 200).

(** ** The fragment of JavaScript used by the mapper *)

Definition is_nullish (v : value) : bool :=
  match v with
  | VUndefined | VNull => true
  | _ => false
  end.

Fixpoint lookup (k : string) (props : list (string * value)) : value :=
  match props with
  | [] => VUndefined
  | (k', v) :: rest => if k' =? k then v else lookup k rest
  end.

(** [v.k].  None of the property names read by the program is a member of
    the Array, String, Number, Boolean, Date or Object prototypes, so on
    anything but a plain object the read yields [undefined]. *)
Definition get (v : value) (k : string) : result value :=
  match v with
  | VUndefined | VNull => Throw TypeError
  | VObj props => Normal (lookup k props)
  | _ => Normal VUndefined
  end.

(** [v?.k] *)
Definition get_opt (v : value) (k : string) : value :=
  match v with
  | VObj props => lookup k props
  | _ => VUndefined
  end.

(** ToBoolean *)
Definition truthy (v : value) : bool :=
  match v with
  | VUndefined | VNull => false
  | VBool b => b
  | VNum n => negb (PrimFloat.is_zero n || PrimFloat.is_nan n)
  | VStr s => negb (s =? "")
  | VArr _ | VObj _ | VDate _ => true
  end.

(** [a || b] *)
Definition or_else (a b : value) : value :=
  if truthy a then a else b.

(** [v === s] for a string literal [s] *)
Definition strict_eq_str (v : value) (s : string) : bool :=
  match v with
  | VStr s' => s' =? s
  | _ => false
  end.

(** The receiver of [.map], [.filter] or [.flatMap].  A value produced by
    [JSON.parse] holds no function, so the call goes through exactly when
    the receiver is an array. *)
Definition as_array (v : value) : result (list value) :=
  match v with
  | VArr elems => Normal elems
  | _ => Throw TypeError
  end.

Fixpoint mapM {A B} (f : A -> result B) (l : list A) : result (list B) :=
  match l with
  | [] => Normal []
  | x :: rest =>
      let* y := f x in
      let* ys := mapM f rest in
      Normal (y :: ys)
  end.

Fixpoint filterM {A} (p : A -> result bool) (l : list A) : result (list A) :=
  match l with
  | [] => Normal []
  | x :: rest =>
      let* keep := p x in
      let* ys := filterM p rest in
      Normal (if keep then x :: ys else ys)
  end.

(** [v.map(f)] *)
Definition array_map {B} (f : value -> result B) (v : value) : result (list B) :=
  let* elems := as_array v in mapM f elems.

(** [v.filter(p)] *)
Definition array_filter (p : value -> result bool) (v : value) : result (list value) :=
  let* elems := as_array v in filterM p elems.

(** [v.flatMap(f)] where [f] returns arrays of non-array entries *)
Definition array_flatMap {B} (f : value -> result (list B)) (v : value) : result (list B) :=
  let* elems := as_array v in
  let* chunks := mapM f elems in
  Normal (List.concat chunks).

(** ** 1. Schema interfaces

    Field types follow what the mapper stores at run time: a leaf copied
    from the upstream payload is whatever [value] the payload held.  The
    [id], [name], [image], [person], [role] and [type] fields recur across
    the interfaces and carry their interface's name here. *)

Record Genre := { genre_id : value; genre_name : value }.

Record Company := { company_id : value; company_name : value }.

Record Person := { person_id : value; person_name : value; person_image : value }.

Record Character := { character_id : value; character_name : value; character_image : value }.

Record AnimeStats := {
  score : value;
  ranked : value;
  popularity : value;
  members : value;
  favorites : value
}.

Record RelatedEntry := {
  relationType : value;
  relatedAnimeId : value;
  relatedAnimeTitle : value
}.

Inductive ThemeType := Opening | Ending.

Record AnimeTheme := { theme_type : ThemeType; theme_text : value }.

Record VoiceActorAssignment := { va_person : Person; va_language : value }.

Record AnimeCharacter := {
  character : Character;
  character_role : value;
  voiceActors : list VoiceActorAssignment
}.

Record AnimeStaff := { staff_person : Person; staff_role : value }.

Inductive CompanyType := Producer | Licensor | Studio.

Record AnimeCompany := { company : Company; company_type : CompanyType }.

Record Anime := {
  id : value;
  title : value;
  titleEnglish : value;
  titleJapanese : value;
  type : value;
  status : value;
  episodes : value;
  duration : value;
  rating : value;
  source : value;
  airedString : value;
  airedFrom : value;
  airedTo : value;
  mainPicture : value;
  synopsis : value;
  background : value;
  stats : AnimeStats;
  genres : list Genre;
  companies : list AnimeCompany;
  themes : list AnimeTheme;
  relatedEntries : list RelatedEntry;
  characters : list AnimeCharacter;
  staff : list AnimeStaff
}.

(** ** Effects: [console.log], [fetch], [setTimeout] *)

(** What the program reads from a fetch [Response].  [res_body] is the
    outcome of [res.json()]: [None] when the body is not JSON. *)
Record Response := {
  res_status : N;
  res_statusText : string;
  res_body : option value
}.

(** [res.ok], as the Fetch standard defines it *)
Definition ok (res : Response) : bool :=
  (200 <=? res_status res)%N && (res_status res <=? 299)%N.

Inductive event : Type :=
| EvLog (msg : string)
| EvFetch (url : string) (res : option Response)
| EvSleep (ms : Z).

(** An async function body: a tree of effects ending in a resolved value
    or a rejection. *)
Inductive Async (A : Type) : Type :=
| Resolve (a : A)
| Reject (e : error)
| ConsoleLog (msg : string) (k : Async A)
| Fetch (url : string) (k : Response -> Async A)
| SetTimeout (ms : Z) (k : Async A).

Arguments Resolve {A} a.
Arguments Reject {A} e.
Arguments ConsoleLog {A} msg k.
Arguments Fetch {A} url k.
Arguments SetTimeout {A} ms k.

Fixpoint abind {A B} (m : Async A) (k : A -> Async B) : Async B :=
  match m with
  | Resolve a => k a
  | Reject e => Reject e
  | ConsoleLog msg m' => ConsoleLog msg (abind m' k)
  | Fetch url h => Fetch url (fun res => abind (h res) k)
  | SetTimeout ms m' => SetTimeout ms (abind m' k)
  end.

Notation "x <- m ;; k" := (abind m (fun x => k))
  (at level 61, m at next level, right associativity).
Notation "m ;; k" := (abind m (fun _ => k))
  (at level 61, right associativity).

Definition console_log (msg : string) : Async unit := ConsoleLog msg (Resolve tt).
Definition fetch (url : string) : Async Response := Fetch url Resolve.
Definition lift {A} (r : result A) : Async A :=
  match r with
  | Normal a => Resolve a
  | Throw e => Reject e
  end.

(** The upstream service: what a GET of [url] answers after the events
    seen so far ([None]: the request fails at the network level).  The
    answer may depend on the whole history, so upstream data may change
    between and during invocations. *)
Definition Upstream := list event -> string -> option Response.

(** [run up hist p] executes [p] after the history [hist] and gives the
    events [p] itself caused, oldest first, with its settlement. *)
Fixpoint run {A} (up : Upstream) (hist : list event) (p : Async A)
  : list event * result A :=
  match p with
  | Resolve a => ([], Normal a)
  | Reject e => ([], Throw e)
  | ConsoleLog msg k =>
      let (es, r) := run up (hist ++ [EvLog msg]) k in
      (EvLog msg :: es, r)
  | Fetch url k =>
      match up hist url with
      | Some res =>
          let (es, r) := run up (hist ++ [EvFetch url (Some res)]) (k res) in
          (EvFetch url (Some res) :: es, r)
      | None => ([EvFetch url None], Throw TypeError)
      end
  | SetTimeout ms k =>
      let (es, r) := run up (hist ++ [EvSleep ms]) k in
      (EvSleep ms :: es, r)
  end.

(** ** 3. Fetcher and mapper logic *)

Definition BASE_URL : string := "https://api.jikan.moe/v4".
Definition DELAY_MS : Z := 1000.

Definition sleep (ms : Z) : Async unit := SetTimeout ms (Resolve tt).

(** Template-literal rendering of a number that holds an integer
    (Number::toString in radix 10).  [malId] and the other integers of the
    program are JavaScript numbers, that is doubles: an integer is taken to
    the nearest double first, as a numeric literal is.  Below 2^53 in
    magnitude every integer is a double and prints as its decimal digits.
    From there on the digits printed are the fewest that read back as the
    same double, followed by zeros while the number has at most 21 digits
    and in exponent form beyond that. *)

Definition decimal (z : Z) : string := NilZero.string_of_int (Z.to_int z).

Definition two53 : Z := 9007199254740992.

(** The distance from the double [x >= 2^53] to the next double above *)
Definition ulp (x : Z) : Z := (2 ^ (Z.log2 x - 52))%Z.

(** The double nearest to an integer [a >= 2^53], ties going to the even
    significand; [None] stands for [Infinity] *)
Definition nearest_double (a : Z) : option Z :=
  let u := ulp a in
  let m := (a / u)%Z in
  let r := (a mod u)%Z in
  let m' := if (2 * r <? u)%Z then m
            else if (u <? 2 * r)%Z then (m + 1)%Z
            else if Z.even m then m else (m + 1)%Z in
  let x := (m' * u)%Z in
  if (2 ^ 1024 <=? x)%Z then None else Some x.

(** Whether the integer [v] is read as the double [x]: it lies between
    the midpoints to the two neighbours of [x], which themselves count
    when the significand of [x] is even *)
Definition reads_back (x v : Z) : bool :=
  let u := ulp x in
  let m := (x / u)%Z in
  let lo4 := (4 * x - (if m =? 2 ^ 52 then u else 2 * u))%Z in
  let hi4 := (4 * x + 2 * u)%Z in
  if Z.even m then (lo4 <=? 4 * v)%Z && (4 * v <=? hi4)%Z
  else (lo4 <? 4 * v)%Z && (4 * v <? hi4)%Z.

(** The multiple of 10^p that reads back as [x], the nearer one when
    there are two *)
Definition shortest_at (x p : Z) : option Z :=
  let t := (10 ^ p)%Z in
  let lo := (x / t * t)%Z in
  let hi := (lo + t)%Z in
  match reads_back x lo, reads_back x hi with
  | true, true => Some (if (x - lo <=? hi - x)%Z then lo else hi)
  | true, false => Some lo
  | false, true => Some hi
  | false, false => None
  end.

(** The largest [p] with such a multiple, searched upwards from [p] *)
Fixpoint shortest (fuel : nat) (x p v : Z) : Z * Z :=
  match fuel with
  | O => (v, p)
  | S fuel' =>
      match shortest_at x (p + 1) with
      | Some v' => shortest fuel' x (p + 1)%Z v'
      | None => (v, p)
      end
  end.

Fixpoint zeros (n : nat) : string :=
  match n with
  | O => ""
  | S n' => "0" ++ zeros n'
  end.

Definition number_digits (x : Z) : string :=
  let (v, p) := shortest 330 x 0 x in
  let s := decimal (v / 10 ^ p) in
  let n := (Z.of_nat (String.length s) + p)%Z in
  if (n <=? 21)%Z then s ++ zeros (Z.to_nat p)
  else match s with
       | String d "" => String d "e+" ++ decimal (n - 1)
       | String d rest => String d "." ++ rest ++ "e+" ++ decimal (n - 1)
       | "" => ""
       end.

Definition show_Z (z : Z) : string :=
  let a := Z.abs z in
  if (a <? two53)%Z then decimal z
  else match nearest_double a with
       | Some x => (if (z <? 0)%Z then "-" else "") ++ number_digits x
       | None => if (z <? 0)%Z then "-Infinity" else "Infinity"
       end.

Definition show_N (n : N) : string := show_Z (Z.of_N n).

Definition api_error (res : Response) : error :=
  Error ("Jikan API Error " ++ show_N (res_status res) ++ ": " ++ res_statusText res).

(** The part of [fetchJikan] after the response has arrived *)
Definition unwrap (res : Response) : result value :=
  if negb (ok res) then Throw (api_error res)
  else match res_body res with
       | None => Throw SyntaxError
       | Some json => get json "data"
       end.

Definition fetchJikan (endpoint : string) : Async value :=
  console_log ("[FETCHER] Requesting: " ++ endpoint) ;;
  res <- fetch (BASE_URL ++ endpoint) ;;
  lift (unwrap res).

(** The mapping section of [getFullAnimeDetails], one definition per
    local constant and per callback, in the order the source evaluates
    them.  The constants [companies], [themes], ... share their names with
    the fields of [Anime], so their definitions are called [map_companies],
    [map_themes], ... *)

(** [p => ({ company: { id: p.mal_id, name: p.name }, type })] *)
Definition map_company (ty : CompanyType) (p : value) : result AnimeCompany :=
  let* i := get p "mal_id" in
  let* n := get p "name" in
  Normal {| company := {| company_id := i; company_name := n |};
            company_type := ty |}.

Definition map_companies (rawAnime : value) : result (list AnimeCompany) :=
  let* producers := get rawAnime "producers" in
  let* ps := array_map (map_company Producer) producers in
  let* licensors := get rawAnime "licensors" in
  let* ls := array_map (map_company Licensor) licensors in
  let* studios := get rawAnime "studios" in
  let* ss := array_map (map_company Studio) studios in
  Normal (ps ++ ls ++ ss).

(** [t => ({ type, text: t })] *)
Definition map_theme (ty : ThemeType) (t : value) : result AnimeTheme :=
  Normal {| theme_type := ty; theme_text := t |}.

Definition map_themes (rawAnime : value) : result (list AnimeTheme) :=
  let* theme := get rawAnime "theme" in
  let* ops := array_map (map_theme Opening)
                (or_else (get_opt theme "openings") (VArr [])) in
  let* theme' := get rawAnime "theme" in
  let* eds := array_map (map_theme Ending)
                (or_else (get_opt theme' "endings") (VArr [])) in
  Normal (ops ++ eds).

(** The callback handed to [relations.flatMap] *)
Definition map_relation (rel : value) : result (list RelatedEntry) :=
  let* entries := get rel "entry" in
  let* kept := array_filter
                 (fun e => let* ty := get e "type" in
                           Normal (strict_eq_str ty "anime"))
                 entries in
  mapM (fun entry =>
          let* r := get rel "relation" in
          let* i := get entry "mal_id" in
          let* n := get entry "name" in
          Normal {| relationType := r;
                    relatedAnimeId := i;
                    relatedAnimeTitle := n |})
       kept.

(** [rawAnime.relations?.flatMap(...) || []]: the array [flatMap] returns
    is truthy even when empty, so the fallback is taken only when
    [relations] is nullish. *)
Definition map_relatedEntries (rawAnime : value) : result (list RelatedEntry) :=
  let* relations := get rawAnime "relations" in
  if is_nullish relations then Normal []
  else array_flatMap map_relation relations.

(** [x.images?.jpg?.image_url || null] for an already evaluated [x.images] *)
Definition image_or_null (images : value) : value :=
  or_else (get_opt (get_opt images "jpg") "image_url") VNull.

(** [{ id: o.person.mal_id, name: o.person.name,
       image: o.person.images?.jpg?.image_url || null }] *)
Definition map_person (o : value) : result Person :=
  let* p := get o "person" in
  let* i := get p "mal_id" in
  let* p' := get o "person" in
  let* n := get p' "name" in
  let* p'' := get o "person" in
  let* images := get p'' "images" in
  Normal {| person_id := i; person_name := n;
            person_image := image_or_null images |}.

Definition map_voiceActor (va : value) : result VoiceActorAssignment :=
  let* l := get va "language" in
  let* person := map_person va in
  Normal {| va_person := person; va_language := l |}.

Definition map_character (c : value) : result AnimeCharacter :=
  let* r := get c "role" in
  let* ch := get c "character" in
  let* i := get ch "mal_id" in
  let* ch' := get c "character" in
  let* n := get ch' "name" in
  let* ch'' := get c "character" in
  let* images := get ch'' "images" in
  let* vas := get c "voice_actors" in
  let* voices := array_map map_voiceActor vas in
  Normal {| character := {| character_id := i; character_name := n;
                            character_image := image_or_null images |};
            character_role := r;
            voiceActors := voices |}.

Definition map_characters (rawChars : value) : result (list AnimeCharacter) :=
  array_map map_character rawChars.

(** The callback handed to [rawStaff.flatMap] *)
Definition map_staff_entry (s : value) : result (list AnimeStaff) :=
  let* positions := get s "positions" in
  array_map (fun role =>
               let* person := map_person s in
               Normal {| staff_person := person; staff_role := role |})
            positions.

Definition map_staff (rawStaff : value) : result (list AnimeStaff) :=
  array_flatMap map_staff_entry rawStaff.

(** [new Date(x)].  A primitive argument is converted without a throw.
    An object or an array is converted to a primitive first, by [valueOf]
    and then [toString].  On a value that came out of [JSON.parse] an own
    property of either name is not callable, the inherited [valueOf]
    returns the object itself, and the inherited [toString] answers with a
    string.  So an object with an own property [toString] has nothing left
    to call, and the constructor throws a [TypeError].  The [toString] an
    array inherits joins the strings of its elements ([null] counting as
    the empty string), and throws when one of the elements does. *)
Fixpoint unprintable (v : value) : bool :=
  match v with
  | VObj props => existsb (fun kv => fst kv =? "toString") props
  | VArr elems => existsb unprintable elems
  | _ => false
  end.

Definition new_Date (x : value) : result value :=
  if unprintable x then Throw TypeError else Normal (VDate x).

(** [rawAnime.aired?.f ? new Date(rawAnime.aired.f) : null] *)
Definition map_aired_date (rawAnime : value) (f : string) : result value :=
  let* aired := get rawAnime "aired" in
  if truthy (get_opt aired f) then
    let* aired' := get rawAnime "aired" in
    let* d := get aired' f in
    new_Date d
  else Normal VNull.

Definition map_genre (g : value) : result Genre :=
  let* i := get g "mal_id" in
  let* n := get g "name" in
  Normal {| genre_id := i; genre_name := n |}.

Definition map_anime (rawAnime rawChars rawStaff : value) : result Anime :=
  let* companies := map_companies rawAnime in
  let* themes := map_themes rawAnime in
  let* relatedEntries := map_relatedEntries rawAnime in
  let* characters := map_characters rawChars in
  let* staff := map_staff rawStaff in
  let* mal_id := get rawAnime "mal_id" in
  let* title := get rawAnime "title" in
  let* title_english := get rawAnime "title_english" in
  let* title_japanese := get rawAnime "title_japanese" in
  let* type := get rawAnime "type" in
  let* status := get rawAnime "status" in
  let* episodes := get rawAnime "episodes" in
  let* duration := get rawAnime "duration" in
  let* rating := get rawAnime "rating" in
  let* source := get rawAnime "source" in
  let* aired := get rawAnime "aired" in
  let* airedFrom := map_aired_date rawAnime "from" in
  let* airedTo := map_aired_date rawAnime "to" in
  let* images := get rawAnime "images" in
  let* images' := get rawAnime "images" in
  let* synopsis := get rawAnime "synopsis" in
  let* background := get rawAnime "background" in
  let* score := get rawAnime "score" in
  let* rank := get rawAnime "rank" in
  let* popularity := get rawAnime "popularity" in
  let* members := get rawAnime "members" in
  let* favorites := get rawAnime "favorites" in
  let* raw_genres := get rawAnime "genres" in
  let* genres := array_map map_genre raw_genres in
  Normal {|
    id := mal_id;
    title := title;
    titleEnglish := title_english;
    titleJapanese := title_japanese;
    type := type;
    status := status;
    episodes := episodes;
    duration := duration;
    rating := rating;
    source := source;
    airedString := get_opt aired "string";
    airedFrom := airedFrom;
    airedTo := airedTo;
    mainPicture := or_else (get_opt (get_opt images "jpg") "large_image_url")
                           (get_opt (get_opt images' "jpg") "image_url");
    synopsis := synopsis;
    background := background;
    stats := {| score := score; ranked := rank; popularity := popularity;
                members := members; favorites := favorites |};
    genres := genres;
    companies := companies;
    themes := themes;
    relatedEntries := relatedEntries;
    characters := characters;
    staff := staff
  |}.

Definition endpoint_full (malId : Z) : string := "/anime/" ++ show_Z malId ++ "/full".
Definition endpoint_characters (malId : Z) : string := "/anime/" ++ show_Z malId ++ "/characters".
Definition endpoint_staff (malId : Z) : string := "/anime/" ++ show_Z malId ++ "/staff".

Definition getFullAnimeDetails (malId : Z) : Async Anime :=
  rawAnime <- fetchJikan (endpoint_full malId) ;;
  sleep DELAY_MS ;;
  rawChars <- fetchJikan (endpoint_characters malId) ;;
  sleep DELAY_MS ;;
  rawStaff <- fetchJikan (endpoint_staff malId) ;;
  lift (map_anime rawAnime rawChars rawStaff).

(** ** Reading an invocation's trace *)

(** The fetches and delays of a trace, in order, without the log lines *)
Inductive step : Type :=
| DoFetch (url : string)
| DoSleep (ms : Z).

Definition steps (es : list event) : list step :=
  flat_map (fun e => match e with
                     | EvLog _ => []
                     | EvFetch url _ => [DoFetch url]
                     | EvSleep ms => [DoSleep ms]
                     end) es.

(** What each fetch of a trace handed back to [fetchJikan]'s caller *)
Definition settle (res : option Response) : result value :=
  match res with
  | Some r => unwrap r
  | None => Throw TypeError
  end.

Definition payloads (es : list event) : list (result value) :=
  flat_map (fun e => match e with
                     | EvFetch _ res => [settle res]
                     | _ => []
                     end) es.

Definition payload_at (n : nat) (es : list event) : value :=
  match nth_error (payloads es) n with
  | Some (Normal v) => v
  | _ => VUndefined
  end.

Definition rawAnime_of (es : list event) : value := payload_at 0 es.
Definition rawChars_of (es : list event) : value := payload_at 1 es.
Definition rawStaff_of (es : list event) : value := payload_at 2 es.

(** ** Sample upstream data *)

Definition json_ok (data : value) : Response :=
  {| res_status := 200; res_statusText := "OK";
     res_body := Some (VObj [("data", data)]) |}.

Definition too_many_requests : Response :=
  {| res_status := 429; res_statusText := "Too Many Requests";
     res_body := Some (VObj [("status", VNum 429)]) |}.

(** An upstream that answers the three endpoints of one title with fixed
    responses, whatever happened before *)
Definition serve (malId : Z) (full chars staff : Response) : Upstream :=
  fun _ url =>
    if url =? BASE_URL ++ endpoint_full malId then Some full
    else if url =? BASE_URL ++ endpoint_characters malId then Some chars
    else if url =? BASE_URL ++ endpoint_staff malId then Some staff
    else None.

Definition meta (i : float) (n : string) : value :=
  VObj [("mal_id", VNum i); ("name", VStr n)].

Definition typed_meta (i : float) (n ty : string) : value :=
  VObj [("mal_id", VNum i); ("type", VStr ty); ("name", VStr n)].

Definition jpg (url : value) : value :=
  VObj [("jpg", VObj [("image_url", url)])].

Definition frieren_full : value :=
  VObj [("mal_id", VNum 52991);
        ("title", VStr "Sousou no Frieren");
        ("title_english", VStr "Frieren: Beyond Journey's End");
        ("title_japanese", VNull);
        ("images", VObj [("jpg", VObj [("image_url", VStr "https://cdn.example/138006.jpg");
                                       ("large_image_url", VStr "https://cdn.example/138006l.jpg")])]);
        ("type", VStr "TV");
        ("status", VStr "Finished Airing");
        ("episodes", VNum 28);
        ("duration", VStr "24 min per ep");
        ("rating", VStr "PG-13 - Teens 13 or older");
        ("source", VStr "Manga");
        ("synopsis", VStr "During their decade-long quest...");
        ("background", VNull);
        ("aired", VObj [("string", VStr "Sep 29, 2023 to Mar 22, 2024");
                        ("from", VStr "2023-09-29T00:00:00+00:00");
                        ("to", VNull)]);
        ("score", VNum 9.39);
        ("rank", VNum 1);
        ("popularity", VNum 123);
        ("members", VNum 500000);
        ("favorites", VNum 50000);
        ("genres", VArr [meta 2 "Adventure"; meta 10 "Fantasy"]);
        ("theme", VObj [("openings", VArr [VStr "1: Yuusha by YOASOBI"; VStr "2: Haru by Yorushika"]);
                        ("endings", VArr [VStr "1: Anytime Anywhere by milet"])]);
        ("relations", VArr [VObj [("relation", VStr "Adaptation");
                                  ("entry", VArr [typed_meta 126287 "Sousou no Frieren" "manga"])];
                            VObj [("relation", VStr "Sequel");
                                  ("entry", VArr [typed_meta 59978 "Sousou no Frieren 2nd Season" "anime"])]]);
        ("producers", VArr [meta 17 "Aniplex"; meta 53 "Dentsu"]);
        ("licensors", VArr [meta 1468 "Crunchyroll"]);
        ("studios", VArr [meta 11 "Madhouse"])].

Definition frieren_characters : value :=
  VArr [VObj [("character", VObj [("mal_id", VNum 184947); ("name", VStr "Frieren");
                                  ("images", jpg (VStr "https://cdn.example/frieren.jpg"))]);
              ("role", VStr "Main");
              ("voice_actors",
               VArr [VObj [("person", VObj [("mal_id", VNum 20650); ("name", VStr "Tanezaki, Atsumi");
                                            ("images", jpg (VStr ""))]);
                           ("language", VStr "Japanese")];
                     VObj [("person", VObj [("mal_id", VNum 52820); ("name", VStr "Trinidad, Mallorie")]);
                           ("language", VStr "English")]])];
        VObj [("character", VObj [("mal_id", VNum 188177); ("name", VStr "Himmel");
                                  ("images", VObj [])]);
              ("role", VStr "Supporting");
              ("voice_actors", VArr [])]].

Definition frieren_staff : value :=
  VArr [VObj [("person", VObj [("mal_id", VNum 1); ("name", VStr "Evan Call");
                               ("images", jpg (VStr "https://cdn.example/evan.jpg"))]);
              ("positions", VArr [VStr "Music"; VStr "Theme Song Arrangement"])];
        VObj [("person", VObj [("mal_id", VNum 2); ("name", VStr "Saitou, Keiichirou");
                               ("images", jpg VNull)]);
              ("positions", VArr [VStr "Director"])]].

Definition frieren_upstream : Upstream :=
  serve 52991 (json_ok frieren_full) (json_ok frieren_characters) (json_ok frieren_staff).

(** ** The mapper, read declaratively

    What the mapping callbacks produce when they do not throw, written with
    the total read [get_opt]. *)

Definition elements (v : value) : list value :=
  match v with
  | VArr elems => elems
  | _ => []
  end.

Definition org (ty : CompanyType) (p : value) : AnimeCompany :=
  {| company := {| company_id := get_opt p "mal_id"; company_name := get_opt p "name" |};
     company_type := ty |}.

Definition theme_of (ty : ThemeType) (t : value) : AnimeTheme :=
  {| theme_type := ty; theme_text := t |}.

Definition person_of (x : value) : Person :=
  {| person_id := get_opt x "mal_id";
     person_name := get_opt x "name";
     person_image := image_or_null (get_opt x "images") |}.

Definition genre_of (g : value) : Genre :=
  {| genre_id := get_opt g "mal_id"; genre_name := get_opt g "name" |}.

Definition voice_of (va : value) : VoiceActorAssignment :=
  {| va_person := person_of (get_opt va "person"); va_language := get_opt va "language" |}.

Definition character_of (c : value) : AnimeCharacter :=
  {| character := {| character_id := get_opt (get_opt c "character") "mal_id";
                     character_name := get_opt (get_opt c "character") "name";
                     character_image := image_or_null (get_opt (get_opt c "character") "images") |};
     character_role := get_opt c "role";
     voiceActors := map voice_of (elements (get_opt c "voice_actors")) |}.

Definition credit_of (s role : value) : AnimeStaff :=
  {| staff_person := person_of (get_opt s "person"); staff_role := role |}.

Definition is_anime (e : value) : bool := strict_eq_str (get_opt e "type") "anime".

Definition related_of (rel entry : value) : RelatedEntry :=
  {| relationType := get_opt rel "relation";
     relatedAnimeId := get_opt entry "mal_id";
     relatedAnimeTitle := get_opt entry "name" |}.

(** The theme strings found under [theme.openings] / [theme.endings];
    none when the sub-list or the theme object is missing *)
Definition theme_list (rawAnime : value) (k : string) : list value :=
  elements (or_else (get_opt (get_opt rawAnime "theme") k) (VArr [])).

(** [rawAnime.aired?.f ? new Date(rawAnime.aired.f) : null] *)
Definition aired_date (rawAnime : value) (f : string) : value :=
  let v := get_opt (get_opt rawAnime "aired") f in
  if truthy v then VDate v else VNull.

Definition credits_of (s : value) : list AnimeStaff :=
  map (credit_of s) (elements (get_opt s "positions")).

Definition related_in (rel : value) : list RelatedEntry :=
  map (related_of rel) (filter is_anime (elements (get_opt rel "entry"))).

Definition anime_of (rawAnime rawChars rawStaff : value) : Anime :=
  {| id := get_opt rawAnime "mal_id";
     title := get_opt rawAnime "title";
     titleEnglish := get_opt rawAnime "title_english";
     titleJapanese := get_opt rawAnime "title_japanese";
     type := get_opt rawAnime "type";
     status := get_opt rawAnime "status";
     episodes := get_opt rawAnime "episodes";
     duration := get_opt rawAnime "duration";
     rating := get_opt rawAnime "rating";
     source := get_opt rawAnime "source";
     airedString := get_opt (get_opt rawAnime "aired") "string";
     airedFrom := aired_date rawAnime "from";
     airedTo := aired_date rawAnime "to";
     mainPicture :=
       or_else (get_opt (get_opt (get_opt rawAnime "images") "jpg") "large_image_url")
               (get_opt (get_opt (get_opt rawAnime "images") "jpg") "image_url");
     synopsis := get_opt rawAnime "synopsis";
     background := get_opt rawAnime "background";
     stats := {| score := get_opt rawAnime "score";
                 ranked := get_opt rawAnime "rank";
                 popularity := get_opt rawAnime "popularity";
                 members := get_opt rawAnime "members";
                 favorites := get_opt rawAnime "favorites" |};
     genres := map genre_of (elements (get_opt rawAnime "genres"));
     companies := map (org Producer) (elements (get_opt rawAnime "producers"))
                  ++ map (org Licensor) (elements (get_opt rawAnime "licensors"))
                  ++ map (org Studio) (elements (get_opt rawAnime "studios"));
     themes := map (theme_of Opening) (theme_list rawAnime "openings")
               ++ map (theme_of Ending) (theme_list rawAnime "endings");
     relatedEntries := flat_map related_in (elements (get_opt rawAnime "relations"));
     characters := map character_of (elements rawChars);
     staff := flat_map credits_of (elements rawStaff) |}.

(** ** Payloads on which the mapper does not throw

    The properties the mapper reads on must be there, what it iterates
    must be arrays, and a truthy [aired.from] or [aired.to] must be
    something the Date constructor accepts. *)

Definition present (v : value) : bool := negb (is_nullish v).

Definition is_array (v : value) : bool :=
  match v with
  | VArr _ => true
  | _ => false
  end.

(** An array without [null] or [undefined] entries *)
Definition array_of_present (v : value) : bool :=
  is_array v && forallb present (elements v).

Definition conforming_relation (rel : value) : bool :=
  present rel && array_of_present (get_opt rel "entry").

Definition conforming_metadata (rawAnime : value) : bool :=
  present rawAnime
  && array_of_present (get_opt rawAnime "producers")
  && array_of_present (get_opt rawAnime "licensors")
  && array_of_present (get_opt rawAnime "studios")
  && is_array (or_else (get_opt (get_opt rawAnime "theme") "openings") (VArr []))
  && is_array (or_else (get_opt (get_opt rawAnime "theme") "endings") (VArr []))
  && (is_nullish (get_opt rawAnime "relations")
      || (is_array (get_opt rawAnime "relations")
          && forallb conforming_relation (elements (get_opt rawAnime "relations"))))
  && array_of_present (get_opt rawAnime "genres")
  && negb (unprintable (get_opt (get_opt rawAnime "aired") "from"))
  && negb (unprintable (get_opt (get_opt rawAnime "aired") "to")).

Definition conforming_voice (va : value) : bool :=
  present va && present (get_opt va "person").

Definition conforming_character (c : value) : bool :=
  present c
  && present (get_opt c "character")
  && is_array (get_opt c "voice_actors")
  && forallb conforming_voice (elements (get_opt c "voice_actors")).

Definition conforming_cast (rawChars : value) : bool :=
  is_array rawChars && forallb conforming_character (elements rawChars).

Definition conforming_credit (s : value) : bool :=
  present s
  && is_array (get_opt s "positions")
  && match elements (get_opt s "positions") with
     | [] => true
     | _ :: _ => present (get_opt s "person")
     end.

Definition conforming_staff (rawStaff : value) : bool :=
  is_array rawStaff && forallb conforming_credit (elements rawStaff).

(** ** Vocabulary of the properties *)

(** The fetches and delays of a complete invocation *)
Definition url_full (malId : Z) : string := BASE_URL ++ endpoint_full malId.
Definition url_characters (malId : Z) : string := BASE_URL ++ endpoint_characters malId.
Definition url_staff (malId : Z) : string := BASE_URL ++ endpoint_staff malId.

Definition schedule (malId : Z) : list step :=
  [DoFetch (url_full malId); DoSleep DELAY_MS;
   DoFetch (url_characters malId); DoSleep DELAY_MS;
   DoFetch (url_staff malId)].

(** The same with a single delay, after the first fetch only *)
Definition schedule_single_delay (malId : Z) : list step :=
  [DoFetch (url_full malId); DoSleep DELAY_MS;
   DoFetch (url_characters malId);
   DoFetch (url_staff malId)].

(** How an invocation settles, as a function of what its fetches handed back *)
Definition aggregate (ps : list (result value)) : result Anime :=
  let* rawAnime := nth 0 ps (Throw TypeError) in
  let* rawChars := nth 1 ps (Throw TypeError) in
  let* rawStaff := nth 2 ps (Throw TypeError) in
  map_anime rawAnime rawChars rawStaff.

(** The shapes an invocation's trace and settlement can take *)
Inductive Invocation (malId : Z) : list event -> result Anime -> Prop :=
| inv_full_fails f1 e :
    settle f1 = Throw e ->
    Invocation malId
      [EvLog ("[FETCHER] Requesting: " ++ endpoint_full malId);
       EvFetch (url_full malId) f1]
      (Throw e)
| inv_characters_fails f1 f2 rawAnime e :
    settle f1 = Normal rawAnime ->
    settle f2 = Throw e ->
    Invocation malId
      [EvLog ("[FETCHER] Requesting: " ++ endpoint_full malId);
       EvFetch (url_full malId) f1;
       EvSleep DELAY_MS;
       EvLog ("[FETCHER] Requesting: " ++ endpoint_characters malId);
       EvFetch (url_characters malId) f2]
      (Throw e)
| inv_staff_fails f1 f2 f3 rawAnime rawChars e :
    settle f1 = Normal rawAnime ->
    settle f2 = Normal rawChars ->
    settle f3 = Throw e ->
    Invocation malId
      [EvLog ("[FETCHER] Requesting: " ++ endpoint_full malId);
       EvFetch (url_full malId) f1;
       EvSleep DELAY_MS;
       EvLog ("[FETCHER] Requesting: " ++ endpoint_characters malId);
       EvFetch (url_characters malId) f2;
       EvSleep DELAY_MS;
       EvLog ("[FETCHER] Requesting: " ++ endpoint_staff malId);
       EvFetch (url_staff malId) f3]
      (Throw e)
| inv_mapped f1 f2 f3 rawAnime rawChars rawStaff :
    settle f1 = Normal rawAnime ->
    settle f2 = Normal rawChars ->
    settle f3 = Normal rawStaff ->
    Invocation malId
      [EvLog ("[FETCHER] Requesting: " ++ endpoint_full malId);
       EvFetch (url_full malId) f1;
       EvSleep DELAY_MS;
       EvLog ("[FETCHER] Requesting: " ++ endpoint_characters malId);
       EvFetch (url_characters malId) f2;
       EvSleep DELAY_MS;
       EvLog ("[FETCHER] Requesting: " ++ endpoint_staff malId);
       EvFetch (url_staff malId) f3]
      (map_anime rawAnime rawChars rawStaff).

(** Whether a payload object carries the property at all *)
Definition has_prop (k : string) (v : value) : bool :=
  match v with
  | VObj props => existsb (fun kv => fst kv =? k) props
  | _ => false
  end.

(** The scalar Title fields copied straight from a raw metadata field *)
Definition scalar_fields : list (string * (Anime -> value)) :=
  [("title_english", titleEnglish);
   ("title_japanese", titleJapanese);
   ("type", type);
   ("status", status);
   ("episodes", episodes);
   ("duration", duration);
   ("rating", rating);
   ("source", source);
   ("synopsis", synopsis);
   ("background", background);
   ("score", fun t => score (stats t));
   ("rank", fun t => ranked (stats t));
   ("popularity", fun t => popularity (stats t));
   ("members", fun t => members (stats t));
   ("favorites", fun t => favorites (stats t))].

(** [Number.isInteger(n) && n >= 0] *)
Definition two52 : float := 4503599627370496%float.

Definition is_integer (n : float) : bool :=
  let a := PrimFloat.abs n in
  PrimFloat.ltb a PrimFloat.infinity
  && (PrimFloat.leb two52 a
      || PrimFloat.eqb (PrimFloat.sub (PrimFloat.add a two52) two52) a).

Definition is_nonneg_integer (v : value) : bool :=
  match v with
  | VNum n => is_integer n && PrimFloat.leb 0%float n
  | _ => false
  end.

(** Every id nested in a Title *)
Definition nested_ids (t : Anime) : list value :=
  map genre_id (genres t)
  ++ map (fun c => company_id (company c)) (companies t)
  ++ map relatedAnimeId (relatedEntries t)
  ++ map (fun c => character_id (character c)) (characters t)
  ++ flat_map (fun c => map (fun va => person_id (va_person va)) (voiceActors c))
              (characters t)
  ++ map (fun s => person_id (staff_person s)) (staff t).

(** Every [mal_id] the three payloads hold at the places the mapper visits *)
Definition mal_id_of (x : value) : value := get_opt x "mal_id".

Definition upstream_ids (rawAnime rawChars rawStaff : value) : list value :=
  map mal_id_of (elements (get_opt rawAnime "genres"))
  ++ (map mal_id_of (elements (get_opt rawAnime "producers"))
      ++ map mal_id_of (elements (get_opt rawAnime "licensors"))
      ++ map mal_id_of (elements (get_opt rawAnime "studios")))
  ++ flat_map (fun rel => map mal_id_of (elements (get_opt rel "entry")))
              (elements (get_opt rawAnime "relations"))
  ++ map (fun c => mal_id_of (get_opt c "character")) (elements rawChars)
  ++ flat_map (fun c => map (fun va => mal_id_of (get_opt va "person"))
                            (elements (get_opt c "voice_actors")))
              (elements rawChars)
  ++ map (fun s => mal_id_of (get_opt s "person")) (elements rawStaff).

(** The upstream [mal_id] behind each nested id, collection by collection
    and in the order of the Title's lists: related titles come from the
    entries of type "anime" only, voice performers are listed character
    by character, and a staff member's id stands once for each of the
    positions held *)
Definition genre_ids_of (rawAnime : value) : list value :=
  map mal_id_of (elements (get_opt rawAnime "genres")).

Definition company_ids_of (rawAnime : value) : list value :=
  map mal_id_of (elements (get_opt rawAnime "producers"))
  ++ map mal_id_of (elements (get_opt rawAnime "licensors"))
  ++ map mal_id_of (elements (get_opt rawAnime "studios")).

Definition related_ids_of (rawAnime : value) : list value :=
  flat_map (fun rel => map mal_id_of (filter is_anime (elements (get_opt rel "entry"))))
           (elements (get_opt rawAnime "relations")).

Definition character_ids_of (rawChars : value) : list value :=
  map (fun c => mal_id_of (get_opt c "character")) (elements rawChars).

Definition voice_ids_of (rawChars : value) : list (list value) :=
  map (fun c => map (fun va => mal_id_of (get_opt va "person"))
                    (elements (get_opt c "voice_actors")))
      (elements rawChars).

Definition staff_ids_of (rawStaff : value) : list value :=
  flat_map (fun s => map (fun _ => mal_id_of (get_opt s "person"))
                         (elements (get_opt s "positions")))
           (elements rawStaff).

(** Each nested id of [t] is the [mal_id] of the upstream entry at the
    same place *)
Definition ids_copied (t : Anime) (rawAnime rawChars rawStaff : value) : Prop :=
  map genre_id (genres t) = genre_ids_of rawAnime
  /\ map (fun c => company_id (company c)) (companies t) = company_ids_of rawAnime
  /\ map relatedAnimeId (relatedEntries t) = related_ids_of rawAnime
  /\ map (fun c => character_id (character c)) (characters t) = character_ids_of rawChars
  /\ map (fun c => map (fun va => person_id (va_person va)) (voiceActors c)) (characters t)
     = voice_ids_of rawChars
  /\ map (fun s => person_id (staff_person s)) (staff t) = staff_ids_of rawStaff.

(** [new Date(n)] for a number [n] holds the instant [n] milliseconds from
    the epoch when [n] is at most 8.64e15 in magnitude, and no instant at
    all ("Invalid Date") otherwise.  For an argument that is not a number
    it takes the engine's date parser to tell, which is outside the
    model. *)
Definition invalid_date_of_number (v : value) : bool :=
  match v with
  | VDate (VNum n) => negb (PrimFloat.leb (PrimFloat.abs n) 8640000000000000%float)
  | _ => false
  end.

(** Every image field of a Title's characters, voice performers and staff *)
Definition title_images (t : Anime) : list value :=
  map (fun c => character_image (character c)) (characters t)
  ++ flat_map (fun c => map (fun va => person_image (va_person va)) (voiceActors c))
              (characters t)
  ++ map (fun s => person_image (staff_person s)) (staff t).

(** The upstream [images.jpg.image_url] behind each of them, in the same order *)
Definition image_url_of (x : value) : value :=
  get_opt (get_opt (get_opt x "images") "jpg") "image_url".

Definition upstream_image_urls (rawChars rawStaff : value) : list value :=
  map (fun c => image_url_of (get_opt c "character")) (elements rawChars)
  ++ flat_map (fun c => map (fun va => image_url_of (get_opt va "person"))
                            (elements (get_opt c "voice_actors")))
              (elements rawChars)
  ++ flat_map (fun s => map (fun _ => image_url_of (get_opt s "person"))
                            (elements (get_opt s "positions")))
              (elements rawStaff).

(** An image URL as [JikanImage] types it, or missing *)
Definition string_or_missing (u : value) : Prop :=
  u = VUndefined \/ u = VNull \/ exists s, u = VStr s.

Definition null_or_nonempty_string (v : value) : Prop :=
  v = VNull \/ exists s, v = VStr s /\ s <> "".

(** More sample upstream data *)

(** [v] with property [k] set to [x] *)
Definition override (k : string) (x : value) (v : value) : value :=
  match v with
  | VObj props => VObj ((k, x) :: props)
  | _ => v
  end.

(** [v] without the properties named in [ks] *)
Definition omit (ks : list string) (v : value) : value :=
  match v with
  | VObj props =>
      VObj (filter (fun kv => negb (existsb (String.eqb (fst kv)) ks)) props)
  | _ => v
  end.

(** The Frieren metadata without some of its optional scalars *)
Definition sparse_full : value :=
  omit ["title_english"; "episodes"; "synopsis"; "score"] frieren_full.

Definition sparse_upstream : Upstream :=
  serve 52991 (json_ok sparse_full) (json_ok frieren_characters) (json_ok frieren_staff).

(** The Frieren metadata with a genre whose id is negative *)
Definition odd_full : value :=
  override "genres" (VArr [meta (-5) "Mystery"]) frieren_full.

Definition odd_upstream : Upstream :=
  serve 52991 (json_ok odd_full) (json_ok frieren_characters) (json_ok frieren_staff).

Definition frieren_trace : list event :=
  fst (run frieren_upstream [] (getFullAnimeDetails 52991)).

Definition frieren_title : Anime :=
  anime_of frieren_full frieren_characters frieren_staff.

Definition sparse_trace : list event :=
  fst (run sparse_upstream [] (getFullAnimeDetails 52991)).

Definition sparse_title : Anime :=
  anime_of sparse_full frieren_characters frieren_staff.

Definition odd_trace : list event :=
  fst (run odd_upstream [] (getFullAnimeDetails 52991)).

Definition odd_title : Anime :=
  anime_of odd_full frieren_characters frieren_staff.

(** The Frieren metadata without its theme object *)
Definition themeless_full : value := omit ["theme"] frieren_full.

Definition themeless_upstream : Upstream :=
  serve 52991 (json_ok themeless_full) (json_ok frieren_characters) (json_ok frieren_staff).

Definition themeless_trace : list event :=
  fst (run themeless_upstream [] (getFullAnimeDetails 52991)).

Definition themeless_title : Anime :=
  anime_of themeless_full frieren_characters frieren_staff.

(** The cast endpoint is rate limited *)
Definition throttled_upstream : Upstream :=
  serve 52991 (json_ok frieren_full) too_many_requests (json_ok frieren_staff).

Definition throttled_trace : list event :=
  fst (run throttled_upstream [] (getFullAnimeDetails 52991)).

(** The Frieren metadata with an [aired.from] far beyond the range of
    dates *)
Definition far_full : value :=
  override "aired" (VObj [("from", VNum 1e300); ("to", VNull)]) frieren_full.

Definition far_upstream : Upstream :=
  serve 52991 (json_ok far_full) (json_ok frieren_characters) (json_ok frieren_staff).

Definition far_trace : list event :=
  fst (run far_upstream [] (getFullAnimeDetails 52991)).

Definition far_title : Anime :=
  anime_of far_full frieren_characters frieren_staff.

(** The Frieren metadata with an [aired.from] that has a [toString] of
    its own *)
Definition unprintable_full : value :=
  override "aired" (VObj [("from", VObj [("toString", VNum 1)])]) frieren_full.

Definition unprintable_upstream : Upstream :=
  serve 52991 (json_ok unprintable_full) (json_ok frieren_characters) (json_ok frieren_staff).

(** A cast whose one character has a number for an image URL *)
Definition numbered_characters : value :=
  VArr [VObj [("character", VObj [("mal_id", VNum 184947); ("name", VStr "Frieren");
                                  ("images", jpg (VNum 5))]);
              ("role", VStr "Main");
              ("voice_actors", VArr [])]].

Definition numbered_upstream : Upstream :=
  serve 52991 (json_ok frieren_full) (json_ok numbered_characters) (json_ok frieren_staff).

Definition numbered_trace : list event :=
  fst (run numbered_upstream [] (getFullAnimeDetails 52991)).

Definition numbered_title : Anime :=
  anime_of frieren_full numbered_characters frieren_staff.

(** Peel one binding off a chain that completed normally. *)
Ltac bind_inv H :=
  match type of H with
  | rbind ?m _ = Normal _ =>
      let E := fresh "E" in
      destruct m eqn:E; cbn [rbind] in H; [ | discriminate H ]
  end.

Ltac binds_inv H := cbv beta in H; repeat bind_inv H.

(** ** Vocabulary of further pipeline properties *)

(** A completion that, if it throws at all, throws a [TypeError] *)
Definition throws_only_TypeError {A} (r : result A) : Prop :=
  forall e, r = Throw e -> e = TypeError.

(** A fetch that handed its payload back *)
Definition handed_back (p : result value) : Prop := exists v, p = Normal v.

(** The number of entries of a relation group that the mapper keeps *)
Definition anime_entry_count (rel : value) : nat :=
  List.length (filter is_anime (elements (get_opt rel "entry"))).

(** A success envelope without the [data] field *)
Definition bare_envelope : Response :=
  {| res_status := 200; res_statusText := "OK"; res_body := Some (VObj []) |}.

(** The metadata endpoint answers with an envelope that lacks [data] *)
Definition bare_upstream : Upstream :=
  serve 52991 bare_envelope (json_ok frieren_characters) (json_ok frieren_staff).

Definition bare_trace : list event :=
  fst (run bare_upstream [] (getFullAnimeDetails 52991)).

(** The staff request fails at the network level *)
Definition offline_staff_upstream : Upstream :=
  fun _ url =>
    if url =? url_full 52991 then Some (json_ok frieren_full)
    else if url =? url_characters 52991 then Some (json_ok frieren_characters)
    else None.

Definition offline_staff_trace : list event :=
  fst (run offline_staff_upstream [] (getFullAnimeDetails 52991)).

(** ** 4. The harnesses: more of JavaScript

    Strings are taken as the UTF-8 bytes of the text they hold.  What the
    model does not determine (a conversion of an object or array to a
    string or number, the message an engine gives a [TypeError]) ends in
    [Unmodelled], about which nothing is stated. *)

(** What the harnesses see thrown: an error of the pipeline, or an
    [AssertionError] of node's [assert] with the [message] node gave it *)
Inductive exn : Type :=
| Raised (e : error)
| AssertionError (message : string).

Inductive outcome (A : Type) : Type :=
| Done (a : A)
| Fails (x : exn)
| Unmodelled.

Arguments Done {A} a.
Arguments Fails {A} x.
Arguments Unmodelled {A}.

(** A value thrown by a test body: one of the errors above, as the test
    bodies of this repository throw them, or [null] / [undefined], which
    has no [message] to read *)
Inductive thrown : Type :=
| ThrownNullish
| Thrown (x : exn).

(** Console output.  A line is kept as the pieces of its template literal:
    [Interp v] is [${v}] for a value that is not a plain string or integer,
    [MessageOf th] is [${error.message}] for the thrown value [th]. *)
Inductive piece : Type :=
| Lit (s : string)
| Interp (v : value)
| MessageOf (th : thrown).

Definition line := list piece.

Inductive out : Type :=
| Stdout (l : line)
| Stderr (l : line)
| StderrError (x : exn)
| Net (e : event).

(** How a harness run ends: it returns, it calls [process.exit], or the
    model does not say *)
Inductive ending : Type :=
| Completed
| Exited (code : Z)
| Unknown.

(** Code that writes to the console and may throw *)
Definition script (A : Type) : Type := (list out * outcome A)%type.

Definition sbind {A B} (m : script A) (k : A -> script B) : script B :=
  match m with
  | (os, Done a) => let (os', r) := k a in (os ++ os', r)
  | (os, Fails x) => (os, Fails x)
  | (os, Unmodelled) => (os, Unmodelled)
  end.

Notation "x <~ m ;; k" := (sbind m (fun x => k))
  (at level 61, m at next level, right associativity).
Notation "m ~;; k" := (sbind m (fun _ => k))
  (at level 61, right associativity).

Definition pure {A} (a : A) : script A := ([], Done a).
Definition throw {A} (x : exn) : script A := ([], Fails x).
Definition outside {A} : script A := ([], Unmodelled).

Definition of_result {A} (r : result A) : script A :=
  match r with
  | Normal a => pure a
  | Throw e => throw (Raised e)
  end.

(** Interpolating a primitive or a Date in a template literal cannot
    throw; for an object or an array the conversion is left out of the
    model. *)
Definition renders (p : piece) : bool :=
  match p with
  | Interp (VObj _) | Interp (VArr _) => false
  | _ => true
  end.

(** [console.log(`...`)] *)
Definition console_log_line (l : line) : script unit :=
  if forallb renders l then ([Stdout l], Done tt) else outside.

Definition nl : string := String "010"%char "".
Definition dq : string := String "034"%char "".

Fixpoint repeat_string (s : string) (n : nat) : string :=
  match n with
  | O => ""
  | S n' => s ++ repeat_string s n'
  end.

(** ['='.repeat(60)] *)
Definition rule : string := repeat_string "=" 60.

(** [s.includes(needle)] on strings *)
Fixpoint includes (needle s : string) : bool :=
  String.prefix needle s
  || match s with
     | EmptyString => false
     | String _ s' => includes needle s'
     end.

(** [v.includes(needle)] for a string literal [needle]: the method of
    strings and of arrays; nothing else that comes out of the mapper has
    one. *)
Definition call_includes (v : value) (needle : string) : outcome bool :=
  match v with
  | VStr s => Done (includes needle s)
  | VArr elems => Done (existsb (fun x => strict_eq_str x needle) elems)
  | _ => Fails (Raised TypeError)
  end.

(** The number of UTF-16 code units of a string given by its UTF-8 bytes:
    a continuation byte adds none, the lead byte of a four-byte sequence
    adds two, any other byte adds one. *)
Definition code_units (c : ascii) : nat :=
  let n := nat_of_ascii c in
  if (128 <=? n)%nat && (n <? 192)%nat then 0
  else if (240 <=? n)%nat then 2
  else 1.

Fixpoint js_length (s : string) : nat :=
  match s with
  | EmptyString => 0
  | String c s' => code_units c + js_length s'
  end.

(** [v.length > 50] for a truthy [v] *)
Definition length_exceeds_50 (v : value) : outcome bool :=
  match v with
  | VStr s => Done (50 <? js_length s)%nat
  | VArr elems => Done (50 <? List.length elems)%nat
  | VObj props =>
      match lookup "length" props with
      | VNum n => Done (PrimFloat.ltb 50%float n)
      | VUndefined | VNull | VBool _ => Done false
      | _ => Unmodelled
      end
  | VBool _ | VNum _ | VDate _ => Done false
  | VUndefined | VNull => Fails (Raised TypeError)
  end.

Definition outcome_map {A B} (f : A -> B) (o : outcome A) : outcome B :=
  match o with
  | Done a => Done (f a)
  | Fails x => Fails x
  | Unmodelled => Unmodelled
  end.

(** [v && v.length > 50]: [v] itself when it is falsy *)
Definition populated (v : value) : outcome value :=
  if truthy v then outcome_map VBool (length_exceeds_50 v) else Done v.

(** [s.toLowerCase()] for a string without bytes above 127; for other
    strings the model leaves it open *)
Definition lower_char (c : ascii) : ascii :=
  let n := nat_of_ascii c in
  if (65 <=? n)%nat && (n <=? 90)%nat then ascii_of_nat (n + 32) else c.

Fixpoint is_ascii_string (s : string) : bool :=
  match s with
  | EmptyString => true
  | String c s' => (nat_of_ascii c <? 128)%nat && is_ascii_string s'
  end.

Fixpoint lower_string (s : string) : string :=
  match s with
  | EmptyString => EmptyString
  | String c s' => String (lower_char c) (lower_string s')
  end.

(** [v.toLowerCase().includes(needle)] *)
Definition lower_includes (v : value) (needle : string) : outcome bool :=
  match v with
  | VStr s => if is_ascii_string s then Done (includes needle (lower_string s))
              else Unmodelled
  | _ => Fails (Raised TypeError)
  end.

(** [Object.is(v, n)] for a number [n] that is neither zero nor NaN *)
Definition is_number (v : value) (n : float) : bool :=
  match v with
  | VNum m => PrimFloat.eqb m n
  | _ => false
  end.

(** [Object.is(a, e)] for an expected value [e] that is a string or a
    number other than zero and NaN, as the harnesses pass them *)
Definition same_value (a e : value) : bool :=
  match e with
  | VNum n => is_number a n
  | VStr s => strict_eq_str a s
  | _ => false
  end.

(** node's [assert] module is not part of the repository.  A failed
    assertion throws an [AssertionError], of which the harnesses read the
    [message].  Versions of node differ in how they build it from the
    message the assertion was given (some go on with the values that were
    compared), so the two functions that build it are parameters:
    [ok_message N v m] for a failed [assert.ok(v, m)] and
    [strictEqual_message N a e m] for a failed
    [assert.strictEqual(a, e, m)]. *)
Record Node := {
  ok_message : value -> string -> string;
  strictEqual_message : value -> value -> string -> string
}.

(** [assert.ok(v, message)] *)
Definition assert_ok (N : Node) (v : value) (message : string) : script unit :=
  if truthy v then pure tt else throw (AssertionError (ok_message N v message)).

(** [assert.strictEqual(a, e, message)] *)
Definition assert_strictEqual (N : Node) (a e : value) (message : string) : script unit :=
  if same_value a e then pure tt
  else throw (AssertionError (strictEqual_message N a e message)).

(** A node that gives an [AssertionError] the message the assertion was
    given, and nothing more *)
Definition reports_given_messages (N : Node) : Prop :=
  (forall v m, ok_message N v m = m)
  /\ (forall a e m, strictEqual_message N a e m = m).

(** The objects of a Title that the harnesses hand to [assert], as values *)
Definition CompanyType_value (ty : CompanyType) : value :=
  VStr (match ty with
        | Producer => "Producer"
        | Licensor => "Licensor"
        | Studio => "Studio"
        end).

Definition AnimeCompany_value (c : AnimeCompany) : value :=
  VObj [("company", VObj [("id", company_id (company c));
                          ("name", company_name (company c))]);
        ("type", CompanyType_value (company_type c))].

Definition Person_value (p : Person) : value :=
  VObj [("id", person_id p); ("name", person_name p); ("image", person_image p)].

Definition VoiceActorAssignment_value (va : VoiceActorAssignment) : value :=
  VObj [("person", Person_value (va_person va)); ("language", va_language va)].

Definition AnimeCharacter_value (c : AnimeCharacter) : value :=
  VObj [("character", VObj [("id", character_id (character c));
                            ("name", character_name (character c));
                            ("image", character_image (character c))]);
        ("role", character_role c);
        ("voiceActors", VArr (map VoiceActorAssignment_value (voiceActors c)))].

Definition AnimeStaff_value (x : AnimeStaff) : value :=
  VObj [("person", Person_value (staff_person x)); ("role", staff_role x)].

(** [o?.f] and [o] itself for what [find] returned, [undefined] when it
    found nothing *)
Definition found {A} (f : A -> value) (o : option A) : value :=
  match o with
  | Some a => f a
  | None => VUndefined
  end.

Definition eval {A} (c : outcome A) : script A := ([], c).

(** [l.find(p)] and [l.filter(p)] with a callback that may throw *)
Fixpoint findM {A} (p : A -> outcome bool) (l : list A) : outcome (option A) :=
  match l with
  | [] => Done None
  | x :: rest =>
      match p x with
      | Done true => Done (Some x)
      | Done false => findM p rest
      | Fails e => Fails e
      | Unmodelled => Unmodelled
      end
  end.

Fixpoint filterO {A} (p : A -> outcome bool) (l : list A) : outcome (list A) :=
  match l with
  | [] => Done []
  | x :: rest =>
      match p x with
      | Done keep =>
          match filterO p rest with
          | Done ys => Done (if keep then x :: ys else ys)
          | Fails e => Fails e
          | Unmodelled => Unmodelled
          end
      | Fails e => Fails e
      | Unmodelled => Unmodelled
      end
  end.

Definition company_type_is (c : AnimeCompany) (ty : CompanyType) : bool :=
  match company_type c, ty with
  | Producer, Producer | Licensor, Licensor | Studio, Studio => true
  | _, _ => false
  end.

(** [l.length > 0] *)
Definition nonempty {A} (l : list A) : value := VBool (0 <? List.length l)%nat.

(** ** The test framework of anime-poc.test.ts *)

Record TestResult := {
  tr_name : string;
  tr_passed : bool;
  tr_error : option thrown;
  tr_duration : Z
}.

Record TestRunner := {
  results : list TestResult;
  currentSuite : string
}.

Definition new_TestRunner : TestRunner := {| results := []; currentSuite := "" |}.

Definition suite (r : TestRunner) (name : string) : TestRunner * list out :=
  ({| results := results r; currentSuite := name |},
   [Stdout [Lit (nl ++ rule)];
    Stdout [Lit ("📦 TEST SUITE: " ++ name)];
    Stdout [Lit rule]]).

(** A call of [test] whose body has not settled yet: what the call fixed
    before its [await] *)
Record PendingTest := {
  pt_fullName : string;
  pt_name : string;
  pt_start : Z
}.

(** [test(name, fn)] up to [await fn()]: the name of the result is built
    from the suite that is current at the call, and [Date.now()] is read
    ([start]).  No caller awaits [test], so suites may be opened and other
    tests called before the body settles. *)
Definition test_called (r : TestRunner) (name : string) (start : Z) : PendingTest :=
  {| pt_fullName := (currentSuite r ++ " > " ++ name)%string;
     pt_name := name;
     pt_start := start |}.

(** The rest of [test], run once the body has settled: it returned
    ([None]) or threw.  [r] is the runner as it is by then and [finish]
    the second reading of [Date.now()].  The lines are those [test] itself
    logs.  The third component tells whether the call itself rejects:
    reading [.message] of a thrown [null] or [undefined] does. *)
Definition test_settled (r : TestRunner) (p : PendingTest) (finish : Z)
           (thrown_by_body : option thrown)
  : TestRunner * list out * result unit :=
  let duration := (finish - pt_start p)%Z in
  match thrown_by_body with
  | None =>
      ({| results := results r ++ [{| tr_name := pt_fullName p; tr_passed := true;
                                      tr_error := None; tr_duration := duration |}];
          currentSuite := currentSuite r |},
       [Stdout [Lit ("✅ " ++ pt_name p ++ " (" ++ show_Z duration ++ "ms)")]],
       Normal tt)
  | Some th =>
      let r' := {| results := results r ++ [{| tr_name := pt_fullName p; tr_passed := false;
                                               tr_error := Some th;
                                               tr_duration := duration |}];
                   currentSuite := currentSuite r |} in
      let failed := Stdout [Lit ("❌ " ++ pt_name p ++ " (" ++ show_Z duration ++ "ms)")] in
      match th with
      | ThrownNullish => (r', [failed], Throw TypeError)
      | Thrown _ => (r', [failed; Stdout [Lit "   Error: "; MessageOf th]], Normal tt)
      end
  end.

(** [test(name, fn)] as a whole, when the runner is left alone while the
    body runs *)
Definition test (r : TestRunner) (name : string) (start finish : Z)
           (thrown_by_body : option thrown)
  : TestRunner * list out * result unit :=
  test_settled r (test_called r name start) finish thrown_by_body.

Definition passed_count (r : TestRunner) : nat :=
  List.length (filter tr_passed (results r)).

Definition failed_count (r : TestRunner) : nat :=
  List.length (filter (fun x => negb (tr_passed x)) (results r)).

Definition total_duration (r : TestRunner) : Z :=
  fold_left (fun sum x => (sum + tr_duration x)%Z) (results r) 0%Z.

(** [`    ${r.error?.message}`] *)
Definition error_line (x : TestResult) : line :=
  match tr_error x with
  | None | Some ThrownNullish => [Lit "    undefined"]
  | Some (Thrown x) => [Lit "    "; MessageOf (Thrown x)]
  end.

Definition failure_lines (x : TestResult) : list out :=
  [Stdout [Lit ("  - " ++ tr_name x)]; Stdout (error_line x)].

Definition printSummary (r : TestRunner) : list out * ending :=
  let failed := failed_count r in
  ([Stdout [Lit (nl ++ rule)];
    Stdout [Lit "📊 TEST SUMMARY"];
    Stdout [Lit rule];
    Stdout [Lit ("Total Tests: " ++ show_N (N.of_nat (List.length (results r))))];
    Stdout [Lit ("✅ Passed: " ++ show_N (N.of_nat (passed_count r)))];
    Stdout [Lit ("❌ Failed: " ++ show_N (N.of_nat failed))];
    Stdout [Lit ("⏱️  Total Duration: " ++ show_Z (total_duration r) ++ "ms")]]
   ++ (if (0 <? failed)%nat
       then Stdout [Lit (nl ++ "❌ FAILED TESTS:")]
            :: flat_map failure_lines
                        (filter (fun x => negb (tr_passed x)) (results r))
       else [])
   ++ [Stdout [Lit rule]],
   if (0 <? failed)%nat then Exited 1 else Completed).

(** A session with the runner, in the order in which things happen: a
    suite is opened, [test] is called, the body of a test that was called
    earlier settles.  [BodySettled i] is about the test that is then the
    [i]-th of those still waiting for their body, counted from 0. *)
Inductive runner_call : Type :=
| CallSuite (name : string)
| CallTest (name : string) (start : Z)
| BodySettled (i : nat) (finish : Z) (thrown_by_body : option thrown).

Record Session := {
  runner : TestRunner;
  pending : list PendingTest
}.

Definition new_Session : Session := {| runner := new_TestRunner; pending := [] |}.

Definition remove_nth {A} (i : nat) (l : list A) : list A :=
  firstn i l ++ skipn (S i) l.

(** [None]: there is no such test waiting *)
Definition play_call (s : Session) (c : runner_call) : option Session :=
  match c with
  | CallSuite name =>
      Some {| runner := fst (suite (runner s) name); pending := pending s |}
  | CallTest name start =>
      Some {| runner := runner s;
              pending := pending s ++ [test_called (runner s) name start] |}
  | BodySettled i finish th =>
      match nth_error (pending s) i with
      | Some p =>
          Some {| runner := fst (fst (test_settled (runner s) p finish th));
                  pending := remove_nth i (pending s) |}
      | None => None
      end
  end.

Fixpoint play (s : Session) (calls : list runner_call) : option Session :=
  match calls with
  | [] => Some s
  | c :: rest =>
      match play_call s c with
      | Some s' => play s' rest
      | None => None
      end
  end.

Definition is_settled (c : runner_call) : bool :=
  match c with
  | BodySettled _ _ _ => true
  | _ => false
  end.

Definition body_threw (c : runner_call) : bool :=
  match c with
  | BodySettled _ _ (Some _) => true
  | _ => false
  end.

(** The names [test] builds over a session that starts with [suite0] as
    the current suite: for each call of [test], the suite open at that
    call, " > ", and the name given *)
Fixpoint names_called (suite0 : string) (calls : list runner_call) : list string :=
  match calls with
  | [] => []
  | CallSuite name :: rest => names_called name rest
  | CallTest name _ :: rest => (suite0 ++ " > " ++ name)%string :: names_called suite0 rest
  | BodySettled _ _ _ :: rest => names_called suite0 rest
  end.

(** The names a session holds: of the results and of the tests waiting *)
Definition names_held (s : Session) : list string :=
  map tr_name (results (runner s)) ++ map pt_fullName (pending s).

(** A sample session: two tests are called under different suites before
    either body settles, and the second settles first *)
Definition sample_session : list runner_call :=
  [CallSuite "Unit Tests"; CallTest "maps ids" 10;
   CallSuite "Integration Tests"; CallTest "fetches" 11;
   BodySettled 1 15 (Some (Thrown (AssertionError "ID should match")));
   BodySettled 0 20 None].

(** ** The two callers of [getFullAnimeDetails] *)

Definition FRIEREN_ID : Z := 52991.

(** [error.message] where the source itself fixes it or node's [assert]
    built it; the message an engine gives its own errors is not modelled *)
Definition message_of (x : exn) : option string :=
  match x with
  | Raised (Error m) => Some m
  | AssertionError m => Some m
  | Raised TypeError | Raised SyntaxError => None
  end.

(** The validations of the integration test in anime-poc.test.ts, from
    the first assertion to the closing log line *)
Definition integration_checks (N : Node) (anime : Anime) : script unit :=
  assert_strictEqual N (id anime) (VNum 52991) "ID should match" ~;;
  has <~ eval (call_includes (title anime) "Frieren") ;;
  assert_ok N (VBool has) ("Title should contain " ++ dq ++ "Frieren" ++ dq) ~;;
  pop <~ eval (populated (synopsis anime)) ;;
  assert_ok N pop "Synopsis should be populated" ~;;
  madhouse <~ pure (find (fun c => strict_eq_str (company_name (company c)) "Madhouse")
                         (companies anime)) ;;
  assert_ok N (found AnimeCompany_value madhouse) "Madhouse should be listed" ~;;
  assert_strictEqual N (found (fun c => CompanyType_value (company_type c)) madhouse)
                     (VStr "Studio") "Madhouse should be a Studio" ~;;
  frierenChar <~ eval (findM (fun c => call_includes (character_name (character c)) "Frieren")
                             (characters anime)) ;;
  assert_ok N (found AnimeCharacter_value frierenChar) "Frieren character should exist" ~;;
  assert_strictEqual N (found character_role frierenChar)
                     (VStr "Main") "Frieren should be Main character" ~;;
  jpVA <~ pure (match frierenChar with
                | Some c => find (fun va => strict_eq_str (va_language va) "Japanese")
                                 (voiceActors c)
                | None => None
                end) ;;
  tanezaki <~ eval (match jpVA with
                    | Some va => outcome_map VBool
                                   (call_includes (person_name (va_person va)) "Tanezaki")
                    | None => Done VUndefined
                    end) ;;
  assert_ok N tanezaki "Tanezaki should be JP VA" ~;;
  musicStaff <~ eval (filterO (fun s => lower_includes (staff_role s) "music")
                              (staff anime)) ;;
  assert_ok N (nonempty musicStaff) "Music staff should be listed" ~;;
  assert_ok N (nonempty (themes anime)) "Should have themes" ~;;
  console_log_line [Lit "   ℹ️  Integration test completed successfully"].

(** The body handed to [runner.test] for the integration test: the
    pipeline, the validations, and the handler that turns whatever was
    thrown with "429" in its message into a skip and rethrows anything
    else *)
Definition integration_test (N : Node) (up : Upstream) (hist : list event) : script unit :=
  let (es, r) := run up hist (getFullAnimeDetails FRIEREN_ID) in
  match (map Net es, Done tt) ~;; anime <~ of_result r ;; integration_checks N anime with
  | (os, Fails x) =>
      match message_of x with
      | Some m =>
          if includes "429" m
          then (os ++ [Stdout [Lit "   ⚠️  Skipped due to API rate limit"]], Done tt)
          else (os, Fails x)
      | None => (os, Unmodelled)
      end
  | settled => settled
  end.

(** The try block of [runTest] in anime-poc.ts after the pipeline has
    returned *)
Definition runTest_checks (N : Node) (anime : Anime) (duration : Z) : script unit :=
  console_log_line [Lit (nl ++ "--- FETCH COMPLETE (" ++ show_Z duration ++ "ms) ---")] ~;;
  console_log_line [Lit "Title: "; Interp (title anime);
                    Lit " ("; Interp (titleJapanese anime); Lit ")"] ~;;
  console_log_line [Lit "Score: "; Interp (score (stats anime));
                    Lit " (Ranked #"; Interp (ranked (stats anime)); Lit ")"] ~;;
  console_log_line [Lit (nl ++ "--- RUNNING ASSERTIONS ---")] ~;;
  assert_strictEqual N (id anime) (VNum 52991) "ID mismatch" ~;;
  has <~ eval (call_includes (title anime) "Frieren") ;;
  assert_ok N (VBool has) ("Title should contain " ++ dq ++ "Frieren" ++ dq) ~;;
  pop <~ eval (populated (synopsis anime)) ;;
  assert_ok N pop "Synopsis should be populated" ~;;
  console_log_line [Lit "✅ Metadata Verified"] ~;;
  madhouse <~ pure (find (fun c => strict_eq_str (company_name (company c)) "Madhouse")
                         (companies anime)) ;;
  assert_ok N (found AnimeCompany_value madhouse) "Madhouse should be listed as a company" ~;;
  assert_strictEqual N (found (fun c => CompanyType_value (company_type c)) madhouse)
                     (VStr "Studio") "Madhouse should be a Studio" ~;;
  console_log_line [Lit "✅ Company/Studio Verified"] ~;;
  frierenChar <~ eval (findM (fun c => call_includes (character_name (character c)) "Frieren")
                             (characters anime)) ;;
  assert_ok N (found AnimeCharacter_value frierenChar)
            ("Character " ++ dq ++ "Frieren" ++ dq ++ " should exist") ~;;
  assert_strictEqual N (found character_role frierenChar)
                     (VStr "Main") "Frieren should be a Main character" ~;;
  console_log_line [Lit "✅ Character Data Verified"] ~;;
  jpVA <~ pure (match frierenChar with
                | Some c => find (fun va => strict_eq_str (va_language va) "Japanese")
                                 (voiceActors c)
                | None => None
                end) ;;
  tanezaki <~ eval (match jpVA with
                    | Some va => outcome_map VBool
                                   (call_includes (person_name (va_person va)) "Tanezaki")
                    | None => Done VUndefined
                    end) ;;
  assert_ok N tanezaki "Atsumi Tanezaki should be the JP VA" ~;;
  console_log_line [Lit "✅ Voice Actor Data Verified"] ~;;
  composer <~ pure (find (fun s => strict_eq_str (staff_role s) "Music"
                                   && strict_eq_str (person_name (staff_person s)) "Evan Call")
                         (staff anime)) ;;
  assert_ok N (found AnimeStaff_value composer) "Evan Call should be listed for Music" ~;;
  console_log_line [Lit "✅ Staff Data Verified"] ~;;
  assert_ok N (nonempty (themes anime)) "Themes (OP/ED) should be present" ~;;
  console_log_line [Lit "✅ Themes Verified"] ~;;
  console_log_line [Lit (nl ++ "[SUCCESS] All checks passed for: "); Interp (title anime)].

(** [runTest], with [start] and [finish] the two readings of [Date.now()] *)
Definition runTest (N : Node) (up : Upstream) (hist : list event) (start finish : Z)
  : list out * ending :=
  let banner := Stdout [Lit (nl ++ "--- STARTING POC TEST FOR ID: "
                                ++ show_Z FRIEREN_ID ++ " ---" ++ nl)] in
  let (es, r) := run up hist (getFullAnimeDetails FRIEREN_ID) in
  match (map Net es, Done tt) ~;; anime <~ of_result r ;;
        runTest_checks N anime (finish - start)%Z with
  | (os, Done _) => (banner :: os, Completed)
  | (os, Fails x) =>
      (banner :: os ++ [Stderr [Lit (nl ++ "[FAILED] Test failed with error:")];
                        StderrError x],
       Exited 1)
  | (os, Unmodelled) => (banner :: os, Unknown)
  end.

(** The conditions the validations common to both callers put on a Title *)
Definition madhouse_first_is_studio (anime : Anime) : bool :=
  match find (fun c => strict_eq_str (company_name (company c)) "Madhouse")
             (companies anime) with
  | Some c => company_type_is c Studio
  | None => false
  end.

(** A response with status 500 whose status text happens to hold "429" *)
Definition misleading_500 : Response :=
  {| res_status := 500; res_statusText := "Upstream said 429";
     res_body := None |}.

Definition misleading_upstream : Upstream :=
  serve 52991 misleading_500 (json_ok frieren_characters) (json_ok frieren_staff).

(** The Frieren metadata with Madhouse credited as a producer as well *)
Definition coproduced_full : value :=
  override "producers" (VArr [meta 17 "Aniplex"; meta 11 "Madhouse"]) frieren_full.

Definition coproduced_upstream : Upstream :=
  serve 52991 (json_ok coproduced_full) (json_ok frieren_characters) (json_ok frieren_staff).

(** What a test body's settlement is to [runner.test] *)
Definition as_thrown (o : outcome unit) : option (option thrown) :=
  match o with
  | Done _ => Some None
  | Fails x => Some (Some (Thrown x))
  | Unmodelled => None
  end.

(** The second step of [runner.test(name, body)] for a body given as a
    script: what the body wrote, then what [test] does once it has
    settled *)
Definition run_registered_test (r : TestRunner) (p : PendingTest) (finish : Z)
           (body : script unit) : option (TestRunner * list out * result unit) :=
  match as_thrown (snd body) with
  | Some th =>
      let '(r', outs, settled) := test_settled r p finish th in
      Some (r', fst body ++ outs, settled)
  | None => None
  end.

Definition completed_line : out :=
  Stdout [Lit "   ℹ️  Integration test completed successfully"].

(** Two sample nodes.  The first reports the message an assertion was
    given.  The second goes on, after the message given to
    [assert.strictEqual], with the two values compared, in the way of
    'ID should match' + two line feeds + '429 !== 52991' + line feed;
    its text for values other than integers and strings does not matter
    here and is a question mark. *)
Definition plain_node : Node :=
  {| ok_message := fun _ m => m;
     strictEqual_message := fun _ _ m => m |}.

Definition integer_of (n : float) : option Z :=
  match Prim2SF n with
  | S754_zero _ => Some 0%Z
  | S754_finite sign m e =>
      let magnitude :=
        if (0 <=? e)%Z then Some (Z.pos m * 2 ^ e)%Z
        else if (Z.pos m mod 2 ^ (- e) =? 0)%Z then Some (Z.pos m / 2 ^ (- e))%Z
        else None in
      match magnitude with
      | Some z => Some (if sign then (- z)%Z else z)
      | None => None
      end
  | _ => None
  end.

Definition inspect (v : value) : string :=
  match v with
  | VNum n => match integer_of n with
              | Some z => show_Z z
              | None => "?"
              end
  | VStr s => "'" ++ s ++ "'"
  | _ => "?"
  end.

Definition telling_node : Node :=
  {| ok_message := fun _ m => m;
     strictEqual_message :=
       fun a e m => (m ++ nl ++ nl ++ inspect a ++ " !== " ++ inspect e ++ nl)%string |}.

(** The Frieren metadata under the id 429 *)
Definition renumbered_full : value := override "mal_id" (VNum 429) frieren_full.

Definition renumbered_upstream : Upstream :=
  serve 52991 (json_ok renumbered_full) (json_ok frieren_characters) (json_ok frieren_staff).

Definition renumbered_trace : list event :=
  fst (run renumbered_upstream [] (getFullAnimeDetails FRIEREN_ID)).

Definition renumbered_title : Anime :=
  anime_of renumbered_full frieren_characters frieren_staff.

Definition skipped_line : out := Stdout [Lit "   ⚠️  Skipped due to API rate limit"].

Definition failed_banner : out := Stderr [Lit (nl ++ "[FAILED] Test failed with error:")].

Definition named_madhouse (p : value) : bool := strict_eq_str (get_opt p "name") "Madhouse".

(** The Frieren metadata with a synopsis of more than fifty characters *)
Definition told_full : value :=
  override "synopsis"
    (VStr "During their decade-long quest to defeat the Demon King, the hero's party grew close.")
    frieren_full.

Definition told_upstream : Upstream :=
  serve 52991 (json_ok told_full) (json_ok frieren_characters) (json_ok frieren_staff).

Definition coproduced_trace : list event :=
  fst (run coproduced_upstream [] (getFullAnimeDetails FRIEREN_ID)).

Definition coproduced_title : Anime :=
  anime_of coproduced_full frieren_characters frieren_staff.

Definition misleading_trace : list event :=
  fst (run misleading_upstream [] (getFullAnimeDetails FRIEREN_ID)).

(** ** docs/js/main.js: the language switch of the documentation page

    The table [translations] is defined by another script of the page.  It
    enters as what main.js reads of it: whether [translations[lang]] is
    truthy, and, for such a [lang], the string [translations[lang][key]]
    ([None] when the entry is missing).  The page is described by what the script reads and
    writes; its [data-i18n] elements are taken not to contain one another,
    and the element [#language-select] to exist. *)

Record Translations := {
  known : string -> bool;
  translation : string -> string -> option string
}.

Record Page := {
  location_search : list (string * string);      (* the query of [window.location] *)
  history_past : list (list (string * string));  (* queries of the entries left behind *)
  local_storage_lang : option string;            (* [localStorage] item 'anime_poc_lang' *)
  navigator_language : string;
  i18n_elements : list (string * string);        (* [data-i18n] key and text content *)
  html_dir : option string;                      (* [dir] attribute of the root element *)
  body_classList : list string;
  select_options : list string;                  (* values of the options of the select *)
  select_selected : option string;               (* value of its selected option, if any *)
  currentLang : string
}.

(** [URLSearchParams.get] and [URLSearchParams.set] *)
Fixpoint params_get (k : string) (l : list (string * string)) : option string :=
  match l with
  | [] => None
  | (k', v) :: rest => if k' =? k then Some v else params_get k rest
  end.

Definition params_delete (k : string) (l : list (string * string)) : list (string * string) :=
  filter (fun kv => negb (fst kv =? k)) l.

Fixpoint params_set (k v : string) (l : list (string * string)) : list (string * string) :=
  match l with
  | [] => [(k, v)]
  | (k', v') :: rest =>
      if k' =? k then (k, v) :: params_delete k rest
      else (k', v') :: params_set k v rest
  end.

(** [classList.add] and [classList.remove] *)
Definition class_add (c : string) (l : list string) : list string :=
  if existsb (String.eqb c) l then l else l ++ [c].

Definition class_remove (c : string) (l : list string) : list string :=
  filter (fun x => negb (x =? c)) l.

(** [select.value = v] *)
Definition select_value (v : string) (opts : list string) : option string :=
  if existsb (String.eqb v) opts then Some v else None.

(** The callback of [querySelectorAll('[data-i18n]').forEach] *)
Definition relabel (T : Translations) (lang : string) (el : string * string)
  : string * string :=
  match translation T lang (fst el) with
  | Some text => if text =? "" then el else (fst el, text)
  | None => el
  end.

Definition setLanguage (T : Translations) (lang : string) (p : Page) : Page :=
  if negb (known T lang) then p
  else
    {| location_search := params_set "lang" lang (location_search p);
       history_past := location_search p :: history_past p;
       local_storage_lang := Some lang;
       navigator_language := navigator_language p;
       i18n_elements := map (relabel T lang) (i18n_elements p);
       html_dir := Some (if lang =? "ar" then "rtl" else "ltr");
       body_classList := if lang =? "ar" then class_add "rtl" (body_classList p)
                         else class_remove "rtl" (body_classList p);
       select_options := select_options p;
       select_selected := select_selected p;
       currentLang := lang |}.

(** [x && translations[x]] for a parameter or stored item that may be
    missing *)
Definition usable (T : Translations) (x : option string) : bool :=
  match x with
  | Some l => negb (l =? "") && known T l
  | None => false
  end.

(** The language the load handler settles on before it calls
    [setLanguage] *)
Definition initial_language (T : Translations) (p : Page) : string :=
  let langParam := params_get "lang" (location_search p) in
  let storedLang := local_storage_lang p in
  if usable T langParam then
    match langParam with Some l => l | None => "en" end
  else if usable T storedLang then
    match storedLang with Some l => l | None => "en" end
  else
    let browserLang := substring 0 2 (navigator_language p) in
    if known T browserLang then browserLang else "en".

Definition with_currentLang (lang : string) (p : Page) : Page :=
  {| location_search := location_search p;
     history_past := history_past p;
     local_storage_lang := local_storage_lang p;
     navigator_language := navigator_language p;
     i18n_elements := i18n_elements p;
     html_dir := html_dir p;
     body_classList := body_classList p;
     select_options := select_options p;
     select_selected := select_selected p;
     currentLang := lang |}.

Definition with_selected (v : string) (p : Page) : Page :=
  {| location_search := location_search p;
     history_past := history_past p;
     local_storage_lang := local_storage_lang p;
     navigator_language := navigator_language p;
     i18n_elements := i18n_elements p;
     html_dir := html_dir p;
     body_classList := body_classList p;
     select_options := select_options p;
     select_selected := select_value v (select_options p);
     currentLang := currentLang p |}.

(** The [DOMContentLoaded] handler up to the registration of the change
    listener *)
Definition on_load (T : Translations) (p : Page) : Page :=
  let lang := initial_language T p in
  let p' := setLanguage T lang (with_currentLang lang p) in
  with_selected (currentLang p') p'.

(** The change listener, for the value of the option the user picked *)
Definition on_change (T : Translations) (value : string) (p : Page) : Page :=
  setLanguage T value p.

(** The page as the script left it agrees with the language it shows *)
Definition in_step (p : Page) : Prop :=
  local_storage_lang p = Some (currentLang p)
  /\ params_get "lang" (location_search p) = Some (currentLang p)
  /\ html_dir p = Some (if currentLang p =? "ar" then "rtl" else "ltr")
  /\ (existsb (String.eqb "rtl") (body_classList p) = (currentLang p =? "ar")).

(** A reload keeps the query, the storage and the browser; the document
    comes back as served *)
Definition reload (served p : Page) : Page :=
  {| location_search := location_search p;
     history_past := history_past p;
     local_storage_lang := local_storage_lang p;
     navigator_language := navigator_language p;
     i18n_elements := i18n_elements served;
     html_dir := html_dir served;
     body_classList := body_classList served;
     select_options := select_options served;
     select_selected := select_selected served;
     currentLang := "en" |}.

(** A sample table and page *)
Definition sample_translations : Translations :=
  {| known := fun lang => (lang =? "en") || (lang =? "ar") || (lang =? "pt");
     translation := fun lang key =>
       if (lang =? "en") && (key =? "title") then Some "Anime PoC"
       else if (lang =? "ar") && (key =? "title") then Some "Anime PoC (ar)"
       else if (lang =? "en") && (key =? "intro") then Some "Fetch and validate"
       else None |}.

Definition sample_page : Page :=
  {| location_search := [("ref", "readme"); ("lang", "pt"); ("lang", "xx")];
     history_past := [];
     local_storage_lang := Some "ar";
     navigator_language := "en-US";
     i18n_elements := [("title", "Anime PoC"); ("intro", "Fetch and validate")];
     html_dir := None;
     body_classList := ["dark"];
     select_options := ["en"; "ar"; "pt"];
     select_selected := Some "en";
     currentLang := "en" |}.

(** The load handler followed by the change events of a visit *)
Definition visit (T : Translations) (p : Page) (picked : list string) : Page :=
  fold_left (fun q v => on_change T v q) picked (on_load T p).

(** Nothing of the page but the script's own variable and the select has
    been touched *)
Definition untouched (p q : Page) : Prop :=
  location_search q = location_search p
  /\ history_past q = history_past p
  /\ local_storage_lang q = local_storage_lang p
  /\ i18n_elements q = i18n_elements p
  /\ html_dir q = html_dir p
  /\ body_classList q = body_classList p.

(** The same page up to the session history *)
Definition same_but_history (p q : Page) : Prop :=
  location_search q = location_search p
  /\ local_storage_lang q = local_storage_lang p
  /\ navigator_language q = navigator_language p
  /\ i18n_elements q = i18n_elements p
  /\ html_dir q = html_dir p
  /\ body_classList q = body_classList p
  /\ select_options q = select_options p
  /\ select_selected q = select_selected p
  /\ currentLang q = currentLang p.

(** ** Basic facts about the JavaScript fragment *)


Lemma rbind_Normal_inv {A B} (m : result A) (k : A -> result B) (b : B) :
  rbind m k = Normal b -> exists a, m = Normal a /\ k a = Normal b.
Proof.
  destruct m as [a|e]; simpl; intros H; [eauto | discriminate].
Qed.

Lemma get_Normal (v : value) (k : string) (x : value) :
  get v k = Normal x -> x = get_opt v k.
Proof.
  destruct v; simpl; intros H; inversion H; reflexivity.
Qed.

Lemma get_Normal_nullish (v : value) (k : string) (x : value) :
  get v k = Normal x -> is_nullish v = false.
Proof.
  destruct v; simpl; intros H; try discriminate; reflexivity.
Qed.

Lemma get_not_nullish (v : value) (k : string) :
  is_nullish v = false -> get v k = Normal (get_opt v k).
Proof.
  destruct v; simpl; intros H; try discriminate; reflexivity.
Qed.

Lemma as_array_Normal (v : value) (l : list value) :
  as_array v = Normal l -> v = VArr l.
Proof.
  destruct v; simpl; intros H; inversion H; reflexivity.
Qed.

Lemma as_array_elements (v : value) (l : list value) :
  as_array v = Normal l -> elements v = l.
Proof.
  intros H; apply as_array_Normal in H; subst; reflexivity.
Qed.

Lemma mapM_Forall2 {A B} (f : A -> result B) (l : list A) (out : list B) :
  mapM f l = Normal out -> Forall2 (fun x y => f x = Normal y) l out.
Proof.
  revert out; induction l as [|x l IH]; simpl; intros out H.
  - inversion H; constructor.
  - destruct (f x) as [y|] eqn:Ex; simpl in H; [|discriminate].
    destruct (mapM f l) as [ys|] eqn:El; simpl in H; [|discriminate].
    inversion H; subst; constructor; auto.
Qed.

Lemma mapM_map {A B} (f : A -> result B) (g : A -> B) (l : list A) (out : list B) :
  (forall x y, f x = Normal y -> y = g x) ->
  mapM f l = Normal out -> out = map g l.
Proof.
  intros Hfg H; apply mapM_Forall2 in H.
  induction H as [|x y l out Hxy _ IH]; simpl; [reflexivity|].
  rewrite (Hfg _ _ Hxy), IH; reflexivity.
Qed.

Lemma mapM_total {A B} (f : A -> result B) (g : A -> B) (l : list A) :
  (forall x, f x = Normal (g x)) -> mapM f l = Normal (map g l).
Proof.
  intros Hfg; induction l as [|x l IH]; simpl; [reflexivity|].
  rewrite Hfg, IH; reflexivity.
Qed.

Lemma filterM_filter {A} (p : A -> result bool) (q : A -> bool) (l out : list A) :
  (forall x b, p x = Normal b -> b = q x) ->
  filterM p l = Normal out -> out = filter q l.
Proof.
  intros Hpq; revert out; induction l as [|x l IH]; simpl; intros out H.
  - inversion H; reflexivity.
  - destruct (p x) as [b|] eqn:Ex; simpl in H; [|discriminate].
    destruct (filterM p l) as [ys|] eqn:El; simpl in H; [|discriminate].
    inversion H; subst.
    rewrite <- (Hpq _ _ Ex), <- (IH ys eq_refl); reflexivity.
Qed.

Lemma array_map_map {B} (f : value -> result B) (g : value -> B) (v : value) (out : list B) :
  (forall x y, f x = Normal y -> y = g x) ->
  array_map f v = Normal out -> v = VArr (elements v) /\ out = map g (elements v).
Proof.
  unfold array_map; intros Hfg H; binds_inv H.
  apply as_array_Normal in E; subst v; simpl; split; [reflexivity|].
  eapply mapM_map; eauto.
Qed.

(** ** Running async code *)

Lemma run_abind {A B} (up : Upstream) (m : Async A) (k : A -> Async B) :
  forall hist,
    run up hist (abind m k) =
    match run up hist m with
    | (es, Normal a) =>
        let (es', r) := run up (hist ++ es) (k a) in (es ++ es', r)
    | (es, Throw e) => (es, Throw e)
    end.
Proof.
  induction m as [a|e|msg m IH|url h IH|ms m IH]; intros hist; simpl.
  - rewrite app_nil_r; destruct (run up hist (k a)); reflexivity.
  - reflexivity.
  - rewrite IH. destruct (run up (hist ++ [EvLog msg]) m) as [es [a|e]].
    + rewrite <- app_assoc; simpl.
      destruct (run up (hist ++ EvLog msg :: es) (k a)); reflexivity.
    + reflexivity.
  - destruct (up hist url) as [res|]; [|reflexivity].
    rewrite IH.
    destruct (run up (hist ++ [EvFetch url (Some res)]) (h res)) as [es [a|e]].
    + rewrite <- app_assoc; simpl.
      destruct (run up (hist ++ EvFetch url (Some res) :: es) (k a)); reflexivity.
    + reflexivity.
  - rewrite IH. destruct (run up (hist ++ [EvSleep ms]) m) as [es [a|e]].
    + rewrite <- app_assoc; simpl.
      destruct (run up (hist ++ EvSleep ms :: es) (k a)); reflexivity.
    + reflexivity.
Qed.

Lemma run_lift {A} (up : Upstream) (hist : list event) (r : result A) :
  run up hist (lift r) = ([], r).
Proof. destruct r; reflexivity. Qed.

Lemma run_fetchJikan (up : Upstream) (hist : list event) (endpoint : string) :
  let line := EvLog ("[FETCHER] Requesting: " ++ endpoint) in
  let res := up (hist ++ [line]) (BASE_URL ++ endpoint)%string in
  run up hist (fetchJikan endpoint) =
  ([line; EvFetch (BASE_URL ++ endpoint) res], settle res).
Proof.
  unfold fetchJikan, console_log, fetch; simpl.
  destruct (up _ _) as [res|]; simpl; [|reflexivity].
  rewrite run_lift; reflexivity.
Qed.

Lemma run_sleep_then {A} (up : Upstream) (hist : list event) (ms : Z) (k : Async A) :
  run up hist (sleep ms ;; k) =
  let (es, r) := run up (hist ++ [EvSleep ms]) k in (EvSleep ms :: es, r).
Proof. reflexivity. Qed.

Lemma run_getFullAnimeDetails (up : Upstream) (hist : list event) (malId : Z) :
  Invocation malId (fst (run up hist (getFullAnimeDetails malId)))
                   (snd (run up hist (getFullAnimeDetails malId))).
Proof.
  unfold getFullAnimeDetails.
  rewrite run_abind, run_fetchJikan.
  destruct (settle _) as [rawAnime|e] eqn:E1; [|now apply inv_full_fails].
  rewrite run_sleep_then, run_abind, run_fetchJikan.
  destruct (settle (up _ (BASE_URL ++ endpoint_characters malId)%string))
    as [rawChars|e] eqn:E2; [|now eapply inv_characters_fails; eauto].
  rewrite run_sleep_then, run_abind, run_fetchJikan.
  destruct (settle (up _ (BASE_URL ++ endpoint_staff malId)%string))
    as [rawStaff|e] eqn:E3; [|now eapply inv_staff_fails; eauto].
  rewrite run_lift; simpl.
  now apply inv_mapped.
Qed.

Lemma run_Invocation (up : Upstream) (hist : list event) (malId : Z) es r :
  run up hist (getFullAnimeDetails malId) = (es, r) -> Invocation malId es r.
Proof.
  intros H. pose proof (run_getFullAnimeDetails up hist malId) as I.
  rewrite H in I; exact I.
Qed.

(** ** The mapper computes its declarative reading *)

(** Turn successful reads into equations with the total read. *)
Ltac gets :=
  repeat match goal with
         | H : get _ _ = Normal _ |- _ => apply get_Normal in H
         end;
  subst.

Lemma map_company_spec ty p c : map_company ty p = Normal c -> c = org ty p.
Proof.
  unfold map_company; intros H; binds_inv H; gets.
  inversion H; reflexivity.
Qed.

Lemma map_companies_spec rawAnime out :
  map_companies rawAnime = Normal out ->
  get_opt rawAnime "producers" = VArr (elements (get_opt rawAnime "producers")) /\
  get_opt rawAnime "licensors" = VArr (elements (get_opt rawAnime "licensors")) /\
  get_opt rawAnime "studios" = VArr (elements (get_opt rawAnime "studios")) /\
  out = map (org Producer) (elements (get_opt rawAnime "producers"))
        ++ map (org Licensor) (elements (get_opt rawAnime "licensors"))
        ++ map (org Studio) (elements (get_opt rawAnime "studios")).
Proof.
  unfold map_companies; intros H; binds_inv H; gets.
  repeat match goal with
         | H : array_map (map_company ?ty) _ = Normal _ |- _ =>
             apply array_map_map with (g := org ty) in H;
             [ destruct H as [? ?] | apply map_company_spec ]
         end.
  subst; inversion H; auto.
Qed.

Lemma map_themes_spec rawAnime out :
  map_themes rawAnime = Normal out ->
  out = map (theme_of Opening) (theme_list rawAnime "openings")
        ++ map (theme_of Ending) (theme_list rawAnime "endings").
Proof.
  unfold map_themes; intros H; binds_inv H; gets.
  repeat match goal with
         | H : array_map (map_theme ?ty) _ = Normal _ |- _ =>
             apply array_map_map with (g := theme_of ty) in H;
             [ destruct H as [_ ?] | intros ? ? Hm; inversion Hm; reflexivity ]
         end.
  subst; inversion H; reflexivity.
Qed.

Lemma map_person_spec o p :
  map_person o = Normal p -> p = person_of (get_opt o "person").
Proof.
  unfold map_person; intros H; binds_inv H; gets.
  inversion H; reflexivity.
Qed.

Lemma map_voiceActor_spec va a : map_voiceActor va = Normal a -> a = voice_of va.
Proof.
  unfold map_voiceActor; intros H; binds_inv H; gets.
  match goal with Hp : map_person _ = Normal _ |- _ => apply map_person_spec in Hp end.
  subst; inversion H; reflexivity.
Qed.

Lemma map_character_spec c a : map_character c = Normal a -> a = character_of c.
Proof.
  unfold map_character; intros H; binds_inv H; gets.
  match goal with
  | Hv : array_map map_voiceActor _ = Normal _ |- _ =>
      apply array_map_map with (g := voice_of) in Hv;
      [ destruct Hv as [_ ?] | apply map_voiceActor_spec ]
  end.
  subst; inversion H; reflexivity.
Qed.

Lemma map_characters_spec rawChars out :
  map_characters rawChars = Normal out ->
  rawChars = VArr (elements rawChars) /\ out = map character_of (elements rawChars).
Proof.
  unfold map_characters; intros H.
  apply array_map_map with (g := character_of) in H; [exact H | apply map_character_spec].
Qed.

Lemma map_staff_entry_spec s out :
  map_staff_entry s = Normal out -> out = credits_of s.
Proof.
  unfold map_staff_entry, credits_of; intros H; binds_inv H; gets.
  apply array_map_map with (g := credit_of s) in H; [tauto|].
  intros role y Hy; binds_inv Hy; gets.
  match goal with Hp : map_person _ = Normal _ |- _ => apply map_person_spec in Hp end.
  subst; inversion Hy; reflexivity.
Qed.

Lemma map_staff_spec rawStaff out :
  map_staff rawStaff = Normal out ->
  rawStaff = VArr (elements rawStaff) /\ out = flat_map credits_of (elements rawStaff).
Proof.
  unfold map_staff, array_flatMap; intros H; binds_inv H.
  apply as_array_Normal in E; subst rawStaff; simpl; split; [reflexivity|].
  apply mapM_map with (g := credits_of) in E0; [|apply map_staff_entry_spec].
  inversion H; subst. symmetry; apply flat_map_concat_map.
Qed.

Lemma map_relation_spec rel out :
  map_relation rel = Normal out -> out = related_in rel.
Proof.
  unfold map_relation, related_in; intros H; binds_inv H; gets.
  unfold array_filter in *.
  match goal with Hf : rbind (as_array _) _ = Normal _ |- _ => binds_inv Hf end.
  match goal with Ha : as_array _ = Normal _ |- _ => apply as_array_elements in Ha; rewrite Ha end.
  match goal with
  | Hf : filterM _ _ = Normal _ |- _ =>
      apply filterM_filter with (q := is_anime) in Hf;
      [ | intros x b Hx; binds_inv Hx; gets; inversion Hx; reflexivity ]
  end.
  subst. eapply mapM_map; [|exact H].
  intros x y Hy; binds_inv Hy; gets. inversion Hy; reflexivity.
Qed.

Lemma map_relatedEntries_spec rawAnime out :
  map_relatedEntries rawAnime = Normal out ->
  out = flat_map related_in (elements (get_opt rawAnime "relations")).
Proof.
  unfold map_relatedEntries; intros H; binds_inv H; gets.
  destruct (is_nullish (get_opt rawAnime "relations")) eqn:En.
  - inversion H. destruct (get_opt rawAnime "relations"); try discriminate; reflexivity.
  - unfold array_flatMap in H; binds_inv H.
    match goal with Ha : as_array _ = Normal _ |- _ => apply as_array_elements in Ha; rewrite Ha end.
    match goal with
    | Hm : mapM map_relation _ = Normal _ |- _ =>
        apply mapM_map with (g := related_in) in Hm; [|apply map_relation_spec]
    end.
    inversion H; subst. symmetry; apply flat_map_concat_map.
Qed.

Lemma map_aired_date_spec rawAnime f d :
  map_aired_date rawAnime f = Normal d -> d = aired_date rawAnime f.
Proof.
  unfold map_aired_date, aired_date; intros H; binds_inv H; gets.
  destruct (truthy _); [|inversion H; reflexivity].
  binds_inv H; gets. unfold new_Date in H.
  destruct (unprintable _); [discriminate H|]. inversion H; reflexivity.
Qed.

Lemma map_genre_spec g a : map_genre g = Normal a -> a = genre_of g.
Proof.
  unfold map_genre; intros H; binds_inv H; gets.
  inversion H; reflexivity.
Qed.

Lemma map_anime_spec rawAnime rawChars rawStaff t :
  map_anime rawAnime rawChars rawStaff = Normal t ->
  t = anime_of rawAnime rawChars rawStaff.
Proof.
  unfold map_anime; intros H; binds_inv H; gets.
  repeat match goal with
         | Hx : map_companies _ = Normal _ |- _ =>
             apply map_companies_spec in Hx; destruct Hx as (_ & _ & _ & ?)
         | Hx : map_themes _ = Normal _ |- _ => apply map_themes_spec in Hx
         | Hx : map_relatedEntries _ = Normal _ |- _ => apply map_relatedEntries_spec in Hx
         | Hx : map_characters _ = Normal _ |- _ =>
             apply map_characters_spec in Hx; destruct Hx as [_ ?]
         | Hx : map_staff _ = Normal _ |- _ =>
             apply map_staff_spec in Hx; destruct Hx as [_ ?]
         | Hx : map_aired_date _ _ = Normal _ |- _ => apply map_aired_date_spec in Hx
         | Hx : array_map map_genre _ = Normal _ |- _ =>
             apply array_map_map with (g := genre_of) in Hx;
             [ destruct Hx as [_ ?] | apply map_genre_spec ]
         end.
  subst; inversion H; reflexivity.
Qed.

(** ** What a settled invocation tells *)

Lemma Invocation_aggregate malId es r :
  Invocation malId es r -> r = aggregate (payloads es).
Proof.
  intros I; destruct I; unfold aggregate; simpl;
    repeat match goal with H : settle _ = _ |- _ => rewrite H; clear H end;
    reflexivity.
Qed.

Lemma Invocation_prefix malId es r :
  Invocation malId es r -> exists rest, schedule malId = steps es ++ rest.
Proof.
  intros I; destruct I; simpl; unfold schedule; eexists; reflexivity.
Qed.

Lemma Invocation_fulfilled malId es t :
  Invocation malId es (Normal t) ->
  steps es = schedule malId /\
  List.length (payloads es) = 3 /\
  map_anime (rawAnime_of es) (rawChars_of es) (rawStaff_of es) = Normal t.
Proof.
  intros I; inversion I as [| | |f1 f2 f3 a c s H1 H2 H3 Hes Hr]; subst.
  unfold rawAnime_of, rawChars_of, rawStaff_of, payload_at; simpl.
  rewrite H1, H2, H3; auto.
Qed.

Lemma returned_mapped up hist malId es t :
  run up hist (getFullAnimeDetails malId) = (es, Normal t) ->
  map_anime (rawAnime_of es) (rawChars_of es) (rawStaff_of es) = Normal t.
Proof.
  intros H; apply run_Invocation, Invocation_fulfilled in H; tauto.
Qed.

Lemma returned_anime_of up hist malId es t :
  run up hist (getFullAnimeDetails malId) = (es, Normal t) ->
  t = anime_of (rawAnime_of es) (rawChars_of es) (rawStaff_of es).
Proof.
  intros H; apply map_anime_spec; eapply returned_mapped; eauto.
Qed.

Lemma map_anime_shapes rawAnime rawChars rawStaff t :
  map_anime rawAnime rawChars rawStaff = Normal t ->
  is_nullish rawAnime = false /\
  map_companies rawAnime = Normal (companies t) /\
  map_staff rawStaff = Normal (staff t) /\
  map_characters rawChars = Normal (characters t).
Proof.
  unfold map_anime; intros H; binds_inv H.
  inversion H; subst; simpl.
  repeat split; auto.
  eapply get_Normal_nullish; eauto.
Qed.

Lemma lookup_absent k props :
  existsb (fun kv => fst kv =? k) props = false -> lookup k props = VUndefined.
Proof.
  induction props as [|[k' v] props IH]; simpl; [reflexivity|].
  destruct (k' =? k); simpl; [discriminate | exact IH].
Qed.

Lemma get_opt_absent k v : has_prop k v = false -> get_opt v k = VUndefined.
Proof.
  destruct v; simpl; try reflexivity. apply lookup_absent.
Qed.

(** ** Sample runs *)

Lemma frieren_run :
  run frieren_upstream [] (getFullAnimeDetails 52991) = (frieren_trace, Normal frieren_title).
Proof. vm_compute; reflexivity. Qed.

Lemma sparse_run :
  run sparse_upstream [] (getFullAnimeDetails 52991) = (sparse_trace, Normal sparse_title).
Proof. vm_compute; reflexivity. Qed.

Lemma odd_run :
  run odd_upstream [] (getFullAnimeDetails 52991) = (odd_trace, Normal odd_title).
Proof. vm_compute; reflexivity. Qed.

(** An [aired.from] with a [toString] of its own: the Date constructor
    throws, after the three fetches, and the payload does not conform. *)
Lemma unprintable_run :
  snd (run unprintable_upstream [] (getFullAnimeDetails 52991)) = Throw TypeError
  /\ List.length (payloads (fst (run unprintable_upstream [] (getFullAnimeDetails 52991)))) = 3%nat
  /\ conforming_metadata unprintable_full = false.
Proof. repeat split; vm_compute; reflexivity. Qed.

(** ** The mapper returns on conforming payloads *)

Lemma mapM_total_on {A B} (f : A -> result B) (g : A -> B) (l : list A) :
  (forall x, In x l -> f x = Normal (g x)) -> mapM f l = Normal (map g l).
Proof.
  induction l as [|x l IH]; simpl; intros Hfg; [reflexivity|].
  rewrite Hfg by auto; simpl. rewrite IH by auto; reflexivity.
Qed.

Lemma filterM_total_on {A} (p : A -> result bool) (q : A -> bool) (l : list A) :
  (forall x, In x l -> p x = Normal (q x)) -> filterM p l = Normal (filter q l).
Proof.
  induction l as [|x l IH]; simpl; intros Hpq; [reflexivity|].
  rewrite Hpq by auto; simpl. rewrite IH by auto; simpl.
  destruct (q x); reflexivity.
Qed.

Lemma present_get v :
  present v = true -> forall k, get v k = Normal (get_opt v k).
Proof.
  unfold present; intros H k; apply get_not_nullish.
  destruct (is_nullish v); [discriminate|reflexivity].
Qed.

Lemma array_map_total_on {B} (f : value -> result B) (g : value -> B) (P : value -> bool) v :
  (forall x, P x = true -> f x = Normal (g x)) ->
  is_array v = true -> forallb P (elements v) = true ->
  array_map f v = Normal (map g (elements v)).
Proof.
  intros Hfg Ha HP; destruct v; try discriminate; simpl in *.
  apply mapM_total_on; intros x Hx; apply Hfg.
  rewrite forallb_forall in HP; auto.
Qed.

Ltac split_andb :=
  repeat match goal with
         | H : _ && _ = true |- _ => apply andb_prop in H; destruct H
         end.

Lemma map_company_total ty p :
  present p = true -> map_company ty p = Normal (org ty p).
Proof.
  intros Hp; unfold map_company. rewrite !(present_get _ Hp); reflexivity.
Qed.

Lemma map_companies_total rawAnime :
  present rawAnime = true ->
  array_of_present (get_opt rawAnime "producers") = true ->
  array_of_present (get_opt rawAnime "licensors") = true ->
  array_of_present (get_opt rawAnime "studios") = true ->
  map_companies rawAnime
  = Normal (map (org Producer) (elements (get_opt rawAnime "producers"))
            ++ map (org Licensor) (elements (get_opt rawAnime "licensors"))
            ++ map (org Studio) (elements (get_opt rawAnime "studios"))).
Proof.
  unfold array_of_present, map_companies; intros Hr Hp Hl Hs; split_andb.
  rewrite !(present_get _ Hr); cbn [rbind].
  repeat (erewrite array_map_total_on with (P := present);
          eauto using map_company_total; cbn [rbind]).
  reflexivity.
Qed.

Lemma map_themes_total rawAnime :
  present rawAnime = true ->
  is_array (or_else (get_opt (get_opt rawAnime "theme") "openings") (VArr [])) = true ->
  is_array (or_else (get_opt (get_opt rawAnime "theme") "endings") (VArr [])) = true ->
  map_themes rawAnime
  = Normal (map (theme_of Opening) (theme_list rawAnime "openings")
            ++ map (theme_of Ending) (theme_list rawAnime "endings")).
Proof.
  unfold map_themes, theme_list; intros Hr Ho He.
  rewrite !(present_get _ Hr); cbn [rbind].
  repeat (erewrite array_map_total_on with (P := fun _ => true);
          [ cbn [rbind] | reflexivity | assumption
          | apply forallb_forall; reflexivity ]).
  reflexivity.
Qed.

Lemma map_relation_total rel :
  conforming_relation rel = true -> map_relation rel = Normal (related_in rel).
Proof.
  unfold conforming_relation, array_of_present, map_relation, related_in.
  intros H. apply andb_prop in H; destruct H as [Hrel H].
  apply andb_prop in H; destruct H as [Harr Hall].
  rewrite (present_get _ Hrel); cbn [rbind].
  destruct (get_opt rel "entry") as [| | | | |entries| |] eqn:Ee; try discriminate.
  simpl in Hall; rewrite forallb_forall in Hall.
  unfold array_filter; cbn [as_array rbind elements].
  rewrite filterM_total_on with (q := is_anime).
  - cbn [rbind]. apply mapM_total_on; intros e He.
    apply filter_In in He; destruct He as [He _].
    rewrite (present_get _ Hrel), !(present_get _ (Hall _ He)); reflexivity.
  - intros e He. rewrite (present_get _ (Hall _ He)); reflexivity.
Qed.

Lemma map_relatedEntries_total rawAnime :
  present rawAnime = true ->
  is_nullish (get_opt rawAnime "relations")
  || (is_array (get_opt rawAnime "relations")
      && forallb conforming_relation (elements (get_opt rawAnime "relations"))) = true ->
  map_relatedEntries rawAnime
  = Normal (flat_map related_in (elements (get_opt rawAnime "relations"))).
Proof.
  unfold map_relatedEntries; intros Hr H.
  rewrite (present_get _ Hr); cbn [rbind].
  destruct (is_nullish (get_opt rawAnime "relations")) eqn:En.
  - destruct (get_opt rawAnime "relations"); try discriminate; reflexivity.
  - simpl in H. apply andb_prop in H; destruct H as [Harr Hall].
    destruct (get_opt rawAnime "relations") as [| | | | |rels| |]; try discriminate.
    simpl in Hall; rewrite forallb_forall in Hall.
    unfold array_flatMap; cbn [as_array rbind elements].
    rewrite mapM_total_on with (g := related_in).
    + cbn [rbind]; rewrite flat_map_concat_map; reflexivity.
    + intros rel Hrel; apply map_relation_total; auto.
Qed.

Lemma map_person_total o :
  present o = true -> present (get_opt o "person") = true ->
  map_person o = Normal (person_of (get_opt o "person")).
Proof.
  intros Ho Hp; unfold map_person.
  rewrite !(present_get _ Ho); cbn [rbind].
  rewrite !(present_get _ Hp); reflexivity.
Qed.

Lemma map_voiceActor_total va :
  conforming_voice va = true -> map_voiceActor va = Normal (voice_of va).
Proof.
  unfold conforming_voice, map_voiceActor; intros H.
  apply andb_prop in H; destruct H as [Hva Hp].
  rewrite (present_get _ Hva); cbn [rbind].
  rewrite map_person_total by assumption; reflexivity.
Qed.

Lemma map_character_total c :
  conforming_character c = true -> map_character c = Normal (character_of c).
Proof.
  unfold conforming_character, map_character; intros H.
  apply andb_prop in H; destruct H as [H Hvoices].
  apply andb_prop in H; destruct H as [H Harr].
  apply andb_prop in H; destruct H as [Hc Hch].
  rewrite !(present_get _ Hc); cbn [rbind].
  rewrite !(present_get _ Hch); cbn [rbind].
  erewrite array_map_total_on; eauto using map_voiceActor_total.
  reflexivity.
Qed.

Lemma map_characters_total rawChars :
  conforming_cast rawChars = true ->
  map_characters rawChars = Normal (map character_of (elements rawChars)).
Proof.
  unfold conforming_cast, map_characters; intros H; split_andb.
  eapply array_map_total_on; eauto using map_character_total.
Qed.

Lemma map_staff_entry_total s :
  conforming_credit s = true -> map_staff_entry s = Normal (credits_of s).
Proof.
  unfold conforming_credit, map_staff_entry, credits_of; intros H.
  apply andb_prop in H; destruct H as [H Hp].
  apply andb_prop in H; destruct H as [Hs Harr].
  rewrite (present_get _ Hs); cbn [rbind].
  destruct (get_opt s "positions") as [| | | | |positions| |]; try discriminate.
  unfold array_map; cbn [as_array rbind elements] in *.
  apply mapM_total_on; intros role Hrole.
  destruct positions; [contradiction|].
  rewrite map_person_total by assumption; reflexivity.
Qed.

Lemma map_staff_total rawStaff :
  conforming_staff rawStaff = true ->
  map_staff rawStaff = Normal (flat_map credits_of (elements rawStaff)).
Proof.
  unfold conforming_staff, map_staff, array_flatMap; intros H.
  apply andb_prop in H; destruct H as [Harr Hall].
  destruct rawStaff as [| | | | |entries| |]; try discriminate.
  simpl in Hall; rewrite forallb_forall in Hall.
  cbn [as_array rbind elements].
  rewrite mapM_total_on with (g := credits_of).
  - cbn [rbind]; rewrite flat_map_concat_map; reflexivity.
  - intros s Hs; apply map_staff_entry_total; auto.
Qed.

Lemma map_aired_date_total rawAnime f :
  present rawAnime = true ->
  unprintable (get_opt (get_opt rawAnime "aired") f) = false ->
  map_aired_date rawAnime f = Normal (aired_date rawAnime f).
Proof.
  intros Hr Hu; unfold map_aired_date, aired_date.
  rewrite !(present_get _ Hr); cbn [rbind].
  destruct (truthy (get_opt (get_opt rawAnime "aired") f)) eqn:Et; [|reflexivity].
  rewrite present_get; [cbn [rbind]; unfold new_Date; rewrite Hu; reflexivity|].
  destruct (get_opt rawAnime "aired"); try discriminate; reflexivity.
Qed.

Lemma map_genre_total g :
  present g = true -> map_genre g = Normal (genre_of g).
Proof.
  intros Hg; unfold map_genre. rewrite !(present_get _ Hg); reflexivity.
Qed.

(** On payloads of the expected shape the mapping section completes, and
    with the Title the declarative reading describes. *)
Lemma map_anime_total rawAnime rawChars rawStaff :
  conforming_metadata rawAnime = true ->
  conforming_cast rawChars = true ->
  conforming_staff rawStaff = true ->
  map_anime rawAnime rawChars rawStaff = Normal (anime_of rawAnime rawChars rawStaff).
Proof.
  unfold conforming_metadata; intros Ha Hc Hs; split_andb.
  unfold map_anime.
  rewrite map_companies_total by assumption; cbn [rbind].
  rewrite map_themes_total by assumption; cbn [rbind].
  rewrite map_relatedEntries_total by assumption; cbn [rbind].
  rewrite map_characters_total by assumption; cbn [rbind].
  rewrite map_staff_total by assumption; cbn [rbind].
  rewrite !map_aired_date_total
    by first [assumption | apply Bool.negb_true_iff; assumption].
  match goal with Hp : present rawAnime = true |- _ =>
    rewrite !(present_get _ Hp) end; cbn [rbind].
  match goal with Hg : array_of_present (get_opt rawAnime "genres") = true |- _ =>
    unfold array_of_present in Hg; apply andb_prop in Hg; destruct Hg as [Hg1 Hg2] end.
  erewrite array_map_total_on with (P := present); eauto using map_genre_total.
  reflexivity.
Qed.

(** An upstream that answers the three requests of an invocation with
    success statuses and JSON envelopes around conforming payloads makes
    the invocation return the Title. *)
Lemma conforming_upstream_returns (up : Upstream) (hist : list event) (malId : Z)
      (r1 r2 r3 : Response) (rawAnime rawChars rawStaff : value) :
  let l1 := EvLog ("[FETCHER] Requesting: " ++ endpoint_full malId) in
  let l2 := EvLog ("[FETCHER] Requesting: " ++ endpoint_characters malId) in
  let l3 := EvLog ("[FETCHER] Requesting: " ++ endpoint_staff malId) in
  let h1 := hist ++ [l1] in
  let h2 := h1 ++ [EvFetch (url_full malId) (Some r1); EvSleep DELAY_MS; l2] in
  let h3 := h2 ++ [EvFetch (url_characters malId) (Some r2); EvSleep DELAY_MS; l3] in
  up h1 (url_full malId) = Some r1 ->
  up h2 (url_characters malId) = Some r2 ->
  up h3 (url_staff malId) = Some r3 ->
  unwrap r1 = Normal rawAnime ->
  unwrap r2 = Normal rawChars ->
  unwrap r3 = Normal rawStaff ->
  conforming_metadata rawAnime = true ->
  conforming_cast rawChars = true ->
  conforming_staff rawStaff = true ->
  snd (run up hist (getFullAnimeDetails malId))
  = Normal (anime_of rawAnime rawChars rawStaff).
Proof.
  intros l1 l2 l3 h1 h2 h3 U1 U2 U3 E1 E2 E3 Ca Cc Cs.
  unfold getFullAnimeDetails.
  rewrite run_abind, run_fetchJikan.
  fold l1 h1; change (BASE_URL ++ endpoint_full malId)%string with (url_full malId).
  rewrite U1; simpl settle; rewrite E1.
  rewrite run_sleep_then, run_abind, run_fetchJikan.
  fold l2; change (BASE_URL ++ endpoint_characters malId)%string with (url_characters malId).
  replace (((hist ++ [l1; EvFetch (url_full malId) (Some r1)]) ++ [EvSleep DELAY_MS]) ++ [l2])
    with h2 by (unfold h2, h1; rewrite <- !app_assoc; reflexivity).
  rewrite U2; simpl settle; rewrite E2.
  rewrite run_sleep_then, run_abind, run_fetchJikan.
  fold l3; change (BASE_URL ++ endpoint_staff malId)%string with (url_staff malId).
  match goal with
  | |- context [up ?h (url_staff malId)] =>
      replace h with h3 by (unfold h3, h2, h1; rewrite <- !app_assoc; reflexivity)
  end.
  rewrite U3; simpl settle; rewrite E3.
  rewrite run_lift; simpl.
  apply map_anime_total; assumption.
Qed.

(** * The claims *)

(** C7: whenever [getFullAnimeDetails] returns a Title, reading [mal_id]
    from the raw metadata payload (the data handed back by the first
    fetch) succeeds and yields exactly the Title's [id]; and on payloads of
    the expected shape the mapping does produce a Title, whose [id] is the
    payload's [mal_id]. *)
Theorem id_is_raw_mal_id up hist malId es t :
  run up hist (getFullAnimeDetails malId) = (es, Normal t) ->
  get (rawAnime_of es) "mal_id" = Normal (id t)
  /\ (forall rawAnime rawChars rawStaff,
        conforming_metadata rawAnime = true ->
        conforming_cast rawChars = true ->
        conforming_staff rawStaff = true ->
        exists t', map_anime rawAnime rawChars rawStaff = Normal t'
                   /\ get rawAnime "mal_id" = Normal (id t')).
Proof.
  intros H. pose proof (returned_mapped _ _ _ H) as Hm.
  pose proof (map_anime_shapes _ _ _ Hm) as (Hn & _).
  split.
  - rewrite (map_anime_spec _ _ _ Hm); simpl.
    apply get_not_nullish, Hn.
  - intros a c s Ha Hc Hs.
    exists (anime_of a c s); split; [apply map_anime_total; assumption|].
    simpl. apply present_get.
    unfold conforming_metadata in Ha.
    repeat (apply andb_prop in Ha; destruct Ha as [Ha _]). exact Ha.
Qed.

Lemma id_is_raw_mal_id_witness :
  run frieren_upstream [] (getFullAnimeDetails 52991) = (frieren_trace, Normal frieren_title)
  /\ get (rawAnime_of frieren_trace) "mal_id" = Normal (id frieren_title).
Proof.
  split; [vm_compute; reflexivity|].
  apply (id_is_raw_mal_id frieren_upstream [] 52991); vm_compute; reflexivity.
Defined.

(** C5: in every returned Title the organization list is the raw
    producers, each mapped to its (id, name) pair tagged Producer, followed
    by the raw licensors tagged Licensor, followed by the raw studios
    tagged Studio, every sublist in its input order. *)
Theorem companies_by_role_in_order up hist malId es t :
  run up hist (getFullAnimeDetails malId) = (es, Normal t) ->
  exists producers licensors studios,
    get (rawAnime_of es) "producers" = Normal (VArr producers) /\
    get (rawAnime_of es) "licensors" = Normal (VArr licensors) /\
    get (rawAnime_of es) "studios" = Normal (VArr studios) /\
    companies t = map (org Producer) producers
                  ++ map (org Licensor) licensors
                  ++ map (org Studio) studios.
Proof.
  intros H. pose proof (returned_mapped _ _ _ H) as Hm.
  pose proof (map_anime_shapes _ _ _ Hm) as (Hn & Hc & _).
  apply map_companies_spec in Hc; destruct Hc as (Hp & Hl & Hs & Hc).
  exists (elements (get_opt (rawAnime_of es) "producers")),
         (elements (get_opt (rawAnime_of es) "licensors")),
         (elements (get_opt (rawAnime_of es) "studios")).
  rewrite <- Hp, <- Hl, <- Hs.
  repeat split; try (apply get_not_nullish, Hn). exact Hc.
Qed.

Lemma companies_by_role_in_order_witness :
  run frieren_upstream [] (getFullAnimeDetails 52991) = (frieren_trace, Normal frieren_title)
  /\ exists producers licensors studios,
       get (rawAnime_of frieren_trace) "producers" = Normal (VArr producers) /\
       get (rawAnime_of frieren_trace) "licensors" = Normal (VArr licensors) /\
       get (rawAnime_of frieren_trace) "studios" = Normal (VArr studios) /\
       companies frieren_title = map (org Producer) producers
                                 ++ map (org Licensor) licensors
                                 ++ map (org Studio) studios.
Proof.
  split; [vm_compute; reflexivity|].
  apply (companies_by_role_in_order frieren_upstream [] 52991); vm_compute; reflexivity.
Defined.

(** C6: in every returned Title the theme list is the raw opening strings,
    each tagged Opening, followed by the raw ending strings, each tagged
    Ending, both groups in input order.  A missing [openings] or [endings]
    sub-list, or a missing [theme] object, contributes nothing, and the
    theme mapping of a metadata object whose sub-lists are arrays or
    missing never throws. *)
Theorem themes_openings_then_endings up hist malId es t :
  run up hist (getFullAnimeDetails malId) = (es, Normal t) ->
  themes t = map (theme_of Opening) (theme_list (rawAnime_of es) "openings")
             ++ map (theme_of Ending) (theme_list (rawAnime_of es) "endings")
  /\ (forall raw k l,
        get_opt (get_opt raw "theme") k = VArr l -> theme_list raw k = l)
  /\ (forall raw k,
        is_nullish (get_opt (get_opt raw "theme") k) = true -> theme_list raw k = [])
  /\ (forall raw k,
        is_nullish (get_opt raw "theme") = true -> theme_list raw k = [])
  /\ (forall props,
        let raw := VObj props in
        (forall k, k = "openings" \/ k = "endings" ->
                   is_nullish (get_opt (get_opt raw "theme") k) = true
                   \/ exists l, get_opt (get_opt raw "theme") k = VArr l) ->
        map_themes raw =
        Normal (map (theme_of Opening) (theme_list raw "openings")
                ++ map (theme_of Ending) (theme_list raw "endings"))).
Proof.
  intros H. pose proof (returned_mapped _ _ _ H) as Hm.
  split; [|split; [|split; [|split]]].
  - rewrite (map_anime_spec _ _ _ Hm); reflexivity.
  - intros raw k l E; unfold theme_list; rewrite E; reflexivity.
  - intros raw k E; unfold theme_list.
    destruct (get_opt (get_opt raw "theme") k); try discriminate; reflexivity.
  - intros raw k E; unfold theme_list.
    destruct (get_opt raw "theme"); try discriminate; reflexivity.
  - intros props raw Hk.
    assert (Hmap : forall ty k, k = "openings" \/ k = "endings" ->
              array_map (map_theme ty) (or_else (get_opt (get_opt raw "theme") k) (VArr []))
              = Normal (map (theme_of ty) (theme_list raw k))).
    { intros ty k Hin; unfold theme_list.
      destruct (Hk k Hin) as [En|[l El]].
      - destruct (get_opt (get_opt raw "theme") k); try discriminate; reflexivity.
      - rewrite El; unfold or_else, array_map; simpl.
        apply mapM_total; reflexivity. }
    unfold map_themes.
    change (get raw "theme") with (Normal (get_opt raw "theme")); cbn [rbind].
    rewrite (Hmap Opening "openings") by auto; cbn [rbind].
    rewrite (Hmap Ending "endings") by auto; reflexivity.
Qed.

Lemma themes_openings_then_endings_witness :
  run themeless_upstream [] (getFullAnimeDetails 52991) = (themeless_trace, Normal themeless_title)
  /\ themes themeless_title
     = map (theme_of Opening) (theme_list (rawAnime_of themeless_trace) "openings")
       ++ map (theme_of Ending) (theme_list (rawAnime_of themeless_trace) "endings")
  /\ themes themeless_title = [].
Proof.
  split; [vm_compute; reflexivity|].
  split; [|vm_compute; reflexivity].
  apply (themes_openings_then_endings themeless_upstream [] 52991); vm_compute; reflexivity.
Defined.

(** C2, as stated, fails: with [title_english], [episodes], [synopsis] and
    [score] absent from the raw metadata, the returned Title holds
    [undefined] in the corresponding fields, not [null]. *)
Lemma absent_scalar_is_not_null :
  run sparse_upstream [] (getFullAnimeDetails 52991) = (sparse_trace, Normal sparse_title)
  /\ has_prop "title_english" (rawAnime_of sparse_trace) = false
  /\ titleEnglish sparse_title = VUndefined
  /\ titleEnglish sparse_title <> VNull
  /\ episodes sparse_title <> VNull
  /\ synopsis sparse_title <> VNull
  /\ score (stats sparse_title) <> VNull.
Proof.
  split; [vm_compute; reflexivity|].
  split; [vm_compute; reflexivity|].
  split; [vm_compute; reflexivity|].
  repeat split; vm_compute; discriminate.
Qed.

(** C2, amended: in every returned Title each optional scalar field holds
    exactly what the raw metadata payload holds under the corresponding
    name.  Hence a raw [null] is carried through as [null], and an absent
    raw field is carried through as [undefined]; no empty string, zero or
    other stand-in is ever substituted. *)
Theorem scalars_carried_through up hist malId es t :
  run up hist (getFullAnimeDetails malId) = (es, Normal t) ->
  Forall (fun f => get (rawAnime_of es) (fst f) = Normal (snd f t)) scalar_fields
  /\ (forall k proj, In (k, proj) scalar_fields ->
        (get_opt (rawAnime_of es) k = VNull -> proj t = VNull)
        /\ (has_prop k (rawAnime_of es) = false -> proj t = VUndefined)).
Proof.
  intros H. pose proof (returned_mapped _ _ _ H) as Hm.
  pose proof (map_anime_shapes _ _ _ Hm) as (Hn & _).
  assert (HF : Forall (fun f => snd f t = get_opt (rawAnime_of es) (fst f)) scalar_fields).
  { rewrite (map_anime_spec _ _ _ Hm); repeat constructor. }
  split.
  - eapply Forall_impl; [|exact HF].
    intros f Hf; simpl in Hf; rewrite Hf. apply get_not_nullish, Hn.
  - intros k proj Hin. rewrite Forall_forall in HF.
    specialize (HF _ Hin); simpl in HF; rewrite HF. split.
    + auto.
    + apply get_opt_absent.
Qed.

Lemma scalars_carried_through_witness :
  run sparse_upstream [] (getFullAnimeDetails 52991) = (sparse_trace, Normal sparse_title)
  /\ has_prop "title_english" (rawAnime_of sparse_trace) = false
  /\ titleEnglish sparse_title = VUndefined
  /\ get_opt (rawAnime_of sparse_trace) "title_japanese" = VNull
  /\ titleJapanese sparse_title = VNull.
Proof.
  assert (Hrun : run sparse_upstream [] (getFullAnimeDetails 52991)
                 = (sparse_trace, Normal sparse_title)) by (vm_compute; reflexivity).
  destruct (scalars_carried_through sparse_upstream [] 52991 Hrun) as [_ Hk].
  split; [exact Hrun|].
  split; [vm_compute; reflexivity|].
  split.
  - apply (Hk "title_english" titleEnglish); [simpl; tauto | vm_compute; reflexivity].
  - split; [vm_compute; reflexivity|].
    apply (Hk "title_japanese" titleJapanese); [simpl; tauto | vm_compute; reflexivity].
Defined.

(** C3: a fetch that comes back with a non-success status makes the
    Gateway throw an error whose message carries the numeric status and the
    status text; the whole invocation rejects with that very error right
    after that fetch, and returns no Title. *)
Theorem upstream_error_rejects up hist malId es r url res :
  run up hist (getFullAnimeDetails malId) = (es, r) ->
  In (EvFetch url (Some res)) es ->
  ok res = false ->
  unwrap res = Throw (Error ("Jikan API Error " ++ show_N (res_status res)
                             ++ ": " ++ res_statusText res))
  /\ r = Throw (Error ("Jikan API Error " ++ show_N (res_status res)
                       ++ ": " ++ res_statusText res))
  /\ (forall t, r <> Normal t)
  /\ (exists before, es = before ++ [EvFetch url (Some res)]).
Proof.
  intros H Hin Hok.
  assert (Hu : unwrap res = Throw (api_error res)).
  { unfold unwrap; rewrite Hok; reflexivity. }
  split; [exact Hu|].
  apply run_Invocation in H.
  assert (Hr : r = Throw (api_error res)
               /\ exists before, es = before ++ [EvFetch url (Some res)]).
  { destruct H; simpl in Hin;
      repeat match goal with
             | Hor : _ \/ _ |- _ => destruct Hor
             | Hf : False |- _ => contradiction
             | He : EvLog _ = EvFetch _ _ |- _ => discriminate He
             | He : EvSleep _ = EvFetch _ _ |- _ => discriminate He
             | He : EvFetch _ ?f = EvFetch _ (Some res) |- _ =>
                 inversion He; subst; clear He
             end;
      simpl settle in *; try congruence;
      (split; [congruence|]).
    - exists [EvLog ("[FETCHER] Requesting: " ++ endpoint_full malId)]; reflexivity.
    - eexists [_; _; _; _]; reflexivity.
    - eexists [_; _; _; _; _; _; _]; reflexivity. }
  destruct Hr as [Hr Hlast]; split; [exact Hr|]; split; [|exact Hlast].
  intros t Ht; rewrite Hr in Ht; discriminate.
Qed.

Lemma upstream_error_rejects_witness :
  run throttled_upstream [] (getFullAnimeDetails 52991)
  = (throttled_trace, @Throw Anime (Error "Jikan API Error 429: Too Many Requests"))
  /\ In (EvFetch (url_characters 52991) (Some too_many_requests)) throttled_trace
  /\ ok too_many_requests = false
  /\ forall t : Anime, Throw (Error "Jikan API Error 429: Too Many Requests") <> Normal t.
Proof.
  split; [vm_compute; reflexivity|].
  split; [vm_compute; tauto|].
  split; [reflexivity|].
  apply (upstream_error_rejects throttled_upstream [] 52991
           (url_characters 52991) too_many_requests (es := throttled_trace));
    [vm_compute; reflexivity | vm_compute; tauto | reflexivity].
Defined.

(** ** Flattening of staff credits *)

Lemma map_staff_entry_block s block :
  map_staff_entry s = Normal block ->
  exists positions,
    get s "positions" = Normal (VArr positions) /\
    block = map (credit_of s) positions.
Proof.
  intros H. pose proof (map_staff_entry_spec _ H) as Hb.
  unfold map_staff_entry in H.
  apply rbind_Normal_inv in H; destruct H as (v & Hv & H).
  unfold array_map in H.
  apply rbind_Normal_inv in H; destruct H as (positions & Hp & _).
  apply as_array_Normal in Hp; subst v.
  exists positions; split; [exact Hv|].
  rewrite Hb; unfold credits_of.
  rewrite <- (get_Normal _ _ Hv); reflexivity.
Qed.

Lemma credits_roles s positions :
  map staff_role (map (credit_of s) positions) = positions.
Proof.
  rewrite map_map; simpl; apply map_id.
Qed.

Lemma credits_person s positions :
  Forall (fun e => staff_person e = person_of (get_opt s "person"))
         (map (credit_of s) positions).
Proof.
  apply Forall_map, Forall_forall; intros; reflexivity.
Qed.

Lemma blocks_lengths entries (blocks : list (list AnimeStaff)) :
  Forall2 (fun s block => map_staff_entry s = Normal block) entries blocks ->
  map (@List.length AnimeStaff) blocks
  = map (fun s => List.length (elements (get_opt s "positions"))) entries.
Proof.
  induction 1 as [|s block entries blocks Hsb _ IH]; simpl; [reflexivity|].
  rewrite IH, (map_staff_entry_spec _ Hsb).
  unfold credits_of; rewrite length_map; reflexivity.
Qed.

(** C4: in every returned Title the staff list is the concatenation, in
    input order, of one block per raw staff entry; the block of an entry
    with N position labels has exactly N Staff entries, whose roles are the
    entry's position labels in order and whose person is in each case the
    entry's person.  So the number of output staff entries is the sum of
    the position-label counts of the input entries. *)
Theorem staff_one_entry_per_position up hist malId es t :
  run up hist (getFullAnimeDetails malId) = (es, Normal t) ->
  exists entries blocks,
    rawStaff_of es = VArr entries /\
    staff t = List.concat blocks /\
    Forall2 (fun s block =>
               exists positions,
                 get s "positions" = Normal (VArr positions) /\
                 List.length block = List.length positions /\
                 map staff_role block = positions /\
                 Forall (fun e => staff_person e = person_of (get_opt s "person")) block)
            entries blocks /\
    List.length (staff t)
    = list_sum (map (fun s => List.length (elements (get_opt s "positions"))) entries).
Proof.
  intros H. pose proof (returned_mapped _ _ _ H) as Hm.
  pose proof (map_anime_shapes _ _ _ Hm) as (_ & _ & Hs & _).
  unfold map_staff, array_flatMap in Hs.
  apply rbind_Normal_inv in Hs; destruct Hs as (entries & E & Hs).
  apply rbind_Normal_inv in Hs; destruct Hs as (blocks & E0 & Hs).
  apply as_array_Normal in E. apply mapM_Forall2 in E0.
  inversion Hs as [Hst]; clear Hs.
  exists entries, blocks; repeat split; auto.
  - eapply Forall2_impl; [|exact E0].
    intros s block Hsb; simpl in Hsb.
    destruct (map_staff_entry_block _ Hsb) as (positions & Hp & Hb).
    exists positions; subst block; repeat split; auto.
    + apply length_map.
    + apply credits_roles.
    + apply credits_person.
  - rewrite length_concat, (blocks_lengths E0); reflexivity.
Qed.

Lemma staff_one_entry_per_position_witness :
  run frieren_upstream [] (getFullAnimeDetails 52991) = (frieren_trace, Normal frieren_title)
  /\ exists entries blocks,
       rawStaff_of frieren_trace = VArr entries /\
       staff frieren_title = List.concat blocks /\
       Forall2 (fun s block =>
                  exists positions,
                    get s "positions" = Normal (VArr positions) /\
                    List.length block = List.length positions /\
                    map staff_role block = positions /\
                    Forall (fun e => staff_person e = person_of (get_opt s "person")) block)
               entries blocks /\
       List.length (staff frieren_title)
       = list_sum (map (fun s => List.length (elements (get_opt s "positions"))) entries).
Proof.
  split; [vm_compute; reflexivity|].
  apply (staff_one_entry_per_position frieren_upstream [] 52991); vm_compute; reflexivity.
Defined.

(** ** Ids and images are copies of upstream values *)

Lemma Forall2_map_right {A B} (R : A -> B -> Prop) (f : A -> B) (l : list A) :
  (forall x, In x l -> R x (f x)) -> Forall2 R l (map f l).
Proof.
  induction l as [|x l IH]; simpl; intros H; constructor; auto.
Qed.

Lemma map_flat_map {A B C} (f : B -> C) (g : A -> list B) (l : list A) :
  map f (flat_map g l) = flat_map (fun x => map f (g x)) l.
Proof.
  induction l as [|x l IH]; simpl; [reflexivity|].
  rewrite map_app, IH; reflexivity.
Qed.

Lemma flat_map_of_map {A B C} (f : B -> list C) (g : A -> B) (l : list A) :
  flat_map f (map g l) = flat_map (fun x => f (g x)) l.
Proof.
  induction l as [|x l IH]; simpl; [reflexivity|].
  rewrite IH; reflexivity.
Qed.

Lemma incl_flat_map_pointwise {A B} (f g : A -> list B) (l : list A) :
  (forall x, incl (f x) (g x)) -> incl (flat_map f l) (flat_map g l).
Proof.
  intros Hfg; induction l as [|x l IH]; simpl; [apply incl_refl|].
  apply incl_app_app; auto.
Qed.

Lemma incl_flat_map_const {A B} (f : A -> list B) (g : A -> B) (l : list A) :
  (forall x y, In y (f x) -> y = g x) -> incl (flat_map f l) (map g l).
Proof.
  intros Hfg; induction l as [|x l IH]; simpl; [apply incl_refl|].
  apply incl_app.
  - intros y Hy; left; symmetry; eauto.
  - apply incl_tl, IH.
Qed.

Lemma nested_ids_incl rawAnime rawChars rawStaff :
  incl (nested_ids (anime_of rawAnime rawChars rawStaff))
       (upstream_ids rawAnime rawChars rawStaff).
Proof.
  unfold nested_ids, upstream_ids; simpl.
  repeat apply incl_app_app.
  - rewrite map_map; apply incl_refl.
  - rewrite !map_app, !map_map; apply incl_refl.
  - rewrite map_flat_map. apply incl_flat_map_pointwise; intros rel.
    unfold related_in; rewrite map_map; simpl.
    apply (incl_map mal_id_of), incl_filter.
  - rewrite map_map; apply incl_refl.
  - rewrite flat_map_of_map. apply incl_flat_map_pointwise; intros c; simpl.
    rewrite map_map; apply incl_refl.
  - rewrite map_flat_map. apply incl_flat_map_const.
    intros s y Hy; unfold credits_of in Hy; rewrite map_map in Hy.
    apply in_map_iff in Hy; destruct Hy as (role & Hy & _).
    rewrite <- Hy; reflexivity.
Qed.

Lemma title_images_anime_of rawAnime rawChars rawStaff :
  title_images (anime_of rawAnime rawChars rawStaff)
  = map (fun u => or_else u VNull) (upstream_image_urls rawChars rawStaff).
Proof.
  unfold title_images, upstream_image_urls; simpl.
  rewrite !map_app. f_equal; [|f_equal].
  - rewrite !map_map; reflexivity.
  - rewrite flat_map_of_map, map_flat_map. apply flat_map_ext; intros c; simpl.
    rewrite !map_map; reflexivity.
  - rewrite !map_flat_map. apply flat_map_ext; intros s.
    unfold credits_of; rewrite !map_map; reflexivity.
Qed.

Lemma or_else_null_cases u :
  or_else u VNull = VNull \/ (or_else u VNull = u /\ truthy u = true).
Proof.
  unfold or_else; destruct (truthy u); auto.
Qed.

Lemma or_else_null_not_empty u : or_else u VNull <> VStr "".
Proof.
  destruct (or_else_null_cases u) as [E|[E Ht]]; rewrite E; [discriminate|].
  intros ->; discriminate.
Qed.

Lemma or_else_null_typed u :
  string_or_missing u -> null_or_nonempty_string (or_else u VNull).
Proof.
  intros [->|[->|[s ->]]]; [left; reflexivity | left; reflexivity |].
  unfold or_else; simpl.
  destruct (s =? "") eqn:Es; simpl; [left; reflexivity|].
  right; exists s; split; [reflexivity|]. apply String.eqb_neq, Es.
Qed.

Lemma map_anime_genres rawAnime rawChars rawStaff t :
  map_anime rawAnime rawChars rawStaff = Normal t ->
  get_opt rawAnime "genres" = VArr (elements (get_opt rawAnime "genres")).
Proof.
  unfold map_anime; intros H; binds_inv H; gets.
  match goal with
  | Hx : array_map map_genre _ = Normal _ |- _ =>
      apply array_map_map with (g := genre_of) in Hx;
      [ destruct Hx as [Hx _]; exact Hx | apply map_genre_spec ]
  end.
Qed.

Lemma aired_date_cases rawAnime f :
  aired_date rawAnime f = VNull
  \/ exists v, get_opt (get_opt rawAnime "aired") f = v /\ truthy v = true
               /\ aired_date rawAnime f = VDate v.
Proof.
  unfold aired_date; destruct (truthy _) eqn:Et; [right|left; reflexivity].
  eexists; repeat split; exact Et.
Qed.

(** With an upstream genre whose [mal_id] is -5 the returned Title holds a
    nested id that is not a non-negative integer. *)
Lemma negative_nested_id :
  run odd_upstream [] (getFullAnimeDetails 52991) = (odd_trace, Normal odd_title)
  /\ In (VNum (-5)) (nested_ids odd_title)
  /\ is_nonneg_integer (VNum (-5)) = false
  /\ ~ Forall (fun v => is_nonneg_integer v = true) (nested_ids odd_title).
Proof.
  assert (Hin : In (VNum (-5)) (nested_ids odd_title)) by (vm_compute; tauto).
  split; [vm_compute; reflexivity|].
  split; [exact Hin|].
  split; [vm_compute; reflexivity|].
  intros HF; rewrite Forall_forall in HF.
  specialize (HF _ Hin); vm_compute in HF; discriminate.
Qed.

Lemma ids_copied_anime_of rawAnime rawChars rawStaff :
  ids_copied (anime_of rawAnime rawChars rawStaff) rawAnime rawChars rawStaff.
Proof.
  unfold ids_copied, genre_ids_of, company_ids_of, related_ids_of, character_ids_of,
    voice_ids_of, staff_ids_of; simpl.
  split; [|split; [|split; [|split; [|split]]]].
  - rewrite map_map; reflexivity.
  - rewrite !map_app, !map_map; reflexivity.
  - rewrite map_flat_map. apply flat_map_ext; intros rel.
    unfold related_in; rewrite map_map; reflexivity.
  - rewrite map_map; reflexivity.
  - rewrite map_map. apply map_ext; intros c; simpl.
    rewrite map_map; reflexivity.
  - rewrite map_flat_map. apply flat_map_ext; intros st.
    unfold credits_of; rewrite map_map; reflexivity.
Qed.

Lemma nested_ids_in_order t rawAnime rawChars rawStaff :
  ids_copied t rawAnime rawChars rawStaff ->
  nested_ids t
  = genre_ids_of rawAnime ++ company_ids_of rawAnime ++ related_ids_of rawAnime
    ++ character_ids_of rawChars ++ List.concat (voice_ids_of rawChars)
    ++ staff_ids_of rawStaff.
Proof.
  intros (Hg & Hc & Hr & Hch & Hv & Hs); unfold nested_ids.
  rewrite Hg, Hc, Hr, Hch, Hs, <- Hv.
  rewrite flat_map_concat_map; reflexivity.
Qed.

(** C8, as stated, fails, for the ids and for the dates: with an upstream
    genre whose [mal_id] is -5 the returned Title holds a nested id that
    is not a non-negative integer, and with an upstream [aired.from] of
    1e300 its [airedFrom] is a Date that holds no instant. *)
Lemma nested_id_and_date_unchecked :
  (run odd_upstream [] (getFullAnimeDetails 52991) = (odd_trace, Normal odd_title)
   /\ In (VNum (-5)) (nested_ids odd_title)
   /\ is_nonneg_integer (VNum (-5)) = false
   /\ ~ Forall (fun v => is_nonneg_integer v = true) (nested_ids odd_title))
  /\ (run far_upstream [] (getFullAnimeDetails 52991) = (far_trace, Normal far_title)
      /\ airedFrom far_title = VDate (VNum 1e300)
      /\ airedFrom far_title <> VNull
      /\ invalid_date_of_number (airedFrom far_title) = true).
Proof.
  split; [exact negative_nested_id|].
  split; [vm_compute; reflexivity|].
  split; [reflexivity|].
  split; [discriminate|].
  vm_compute; reflexivity.
Qed.

(** C8, amended: in every returned Title the id is the [mal_id] of the
    metadata payload; every nested id is the [mal_id] of the upstream
    entry at the same place of the same collection, copied unchanged (so
    all nested ids are non-negative integers whenever the upstream ids
    are, and the mapper checks nothing beyond that); the raw lists behind
    the collections were arrays, so no collection is absent; and
    [airedFrom] and [airedTo] are each either [null] or the Date built
    from the truthy raw [aired.from] / [aired.to] value, whether or not
    that Date holds an instant. *)
Theorem title_invariants up hist malId es t :
  run up hist (getFullAnimeDetails malId) = (es, Normal t) ->
  get (rawAnime_of es) "mal_id" = Normal (id t)
  /\ ids_copied t (rawAnime_of es) (rawChars_of es) (rawStaff_of es)
  /\ nested_ids t
     = genre_ids_of (rawAnime_of es) ++ company_ids_of (rawAnime_of es)
       ++ related_ids_of (rawAnime_of es) ++ character_ids_of (rawChars_of es)
       ++ List.concat (voice_ids_of (rawChars_of es)) ++ staff_ids_of (rawStaff_of es)
  /\ (Forall (fun v => is_nonneg_integer v = true)
             (upstream_ids (rawAnime_of es) (rawChars_of es) (rawStaff_of es)) ->
      Forall (fun v => is_nonneg_integer v = true) (nested_ids t))
  /\ (exists gs ps ls ss cs sts,
        get_opt (rawAnime_of es) "genres" = VArr gs /\
        get_opt (rawAnime_of es) "producers" = VArr ps /\
        get_opt (rawAnime_of es) "licensors" = VArr ls /\
        get_opt (rawAnime_of es) "studios" = VArr ss /\
        rawChars_of es = VArr cs /\
        rawStaff_of es = VArr sts)
  /\ (airedFrom t = VNull
      \/ exists v, get_opt (get_opt (rawAnime_of es) "aired") "from" = v
                   /\ truthy v = true /\ airedFrom t = VDate v)
  /\ (airedTo t = VNull
      \/ exists v, get_opt (get_opt (rawAnime_of es) "aired") "to" = v
                   /\ truthy v = true /\ airedTo t = VDate v).
Proof.
  intros H. pose proof (returned_mapped _ _ _ H) as Hm.
  pose proof (map_anime_shapes _ _ _ Hm) as (Hn & Hc & Hs & Hch).
  pose proof (map_anime_genres _ _ _ Hm) as Hg.
  pose proof (map_anime_spec _ _ _ Hm) as Ht.
  assert (Hids : ids_copied t (rawAnime_of es) (rawChars_of es) (rawStaff_of es)).
  { rewrite Ht; apply ids_copied_anime_of. }
  assert (Hincl : incl (nested_ids t)
            (upstream_ids (rawAnime_of es) (rawChars_of es) (rawStaff_of es))).
  { rewrite Ht; apply nested_ids_incl. }
  split; [|split; [|split; [|split; [|split; [|split]]]]].
  - rewrite Ht; simpl; apply get_not_nullish, Hn.
  - exact Hids.
  - apply nested_ids_in_order, Hids.
  - intros HF; eapply incl_Forall; eauto.
  - apply map_companies_spec in Hc; destruct Hc as (Hp & Hl & Hss & _).
    apply map_staff_spec in Hs; destruct Hs as [Hs _].
    apply map_characters_spec in Hch; destruct Hch as [Hch _].
    do 6 eexists; repeat split; eassumption.
  - rewrite Ht; simpl; apply aired_date_cases.
  - rewrite Ht; simpl; apply aired_date_cases.
Qed.

Lemma title_invariants_witness :
  run frieren_upstream [] (getFullAnimeDetails 52991) = (frieren_trace, Normal frieren_title)
  /\ Forall (fun v => is_nonneg_integer v = true)
            (upstream_ids (rawAnime_of frieren_trace) (rawChars_of frieren_trace)
                          (rawStaff_of frieren_trace))
  /\ Forall (fun v => is_nonneg_integer v = true) (nested_ids frieren_title).
Proof.
  assert (Hrun : run frieren_upstream [] (getFullAnimeDetails 52991)
                 = (frieren_trace, Normal frieren_title)) by (vm_compute; reflexivity).
  assert (Hup : Forall (fun v => is_nonneg_integer v = true)
            (upstream_ids (rawAnime_of frieren_trace) (rawChars_of frieren_trace)
                          (rawStaff_of frieren_trace))).
  { vm_compute; repeat constructor. }
  split; [exact Hrun|]. split; [exact Hup|].
  apply (title_invariants frieren_upstream [] 52991 Hrun), Hup.
Defined.

(** C10, as stated, fails: an upstream image URL that is a number comes
    out as that number, which is neither [null] nor a non-empty string. *)
Lemma image_neither_null_nor_string :
  run numbered_upstream [] (getFullAnimeDetails 52991)
  = (numbered_trace, Normal numbered_title)
  /\ In (VNum 5) (title_images numbered_title)
  /\ ~ null_or_nonempty_string (VNum 5)
  /\ ~ Forall null_or_nonempty_string (title_images numbered_title).
Proof.
  assert (Hin : In (VNum 5) (title_images numbered_title)) by (vm_compute; tauto).
  assert (Hno : ~ null_or_nonempty_string (VNum 5)).
  { intros [Hx|(u & Hx & _)]; discriminate Hx. }
  split; [vm_compute; reflexivity|].
  split; [exact Hin|]. split; [exact Hno|].
  intros HF; rewrite Forall_forall in HF. exact (Hno (HF _ Hin)).
Qed.

(** C10, amended: in every returned Title each image field of a
    character, voice performer or staff person is [url || null] for the
    upstream [images.jpg.image_url] of that entity, place by place: [null]
    when the URL is absent, [null] or any other falsy value (the empty
    string among them), and the URL itself, whatever it is, when it is
    truthy.  So the empty string never appears, and where the upstream URL
    is a string the image field is [null] or a non-empty string. *)
Theorem images_null_or_truthy_url up hist malId es t :
  run up hist (getFullAnimeDetails malId) = (es, Normal t) ->
  title_images t
  = map (fun u => or_else u VNull)
        (upstream_image_urls (rawChars_of es) (rawStaff_of es))
  /\ Forall2 (fun u v =>
                (truthy u = false /\ v = VNull \/ truthy u = true /\ v = u)
                /\ (string_or_missing u -> null_or_nonempty_string v))
             (upstream_image_urls (rawChars_of es) (rawStaff_of es))
             (title_images t)
  /\ Forall (fun v => v = VNull \/ truthy v = true) (title_images t)
  /\ or_else VUndefined VNull = VNull
  /\ or_else (VStr "") VNull = VNull
  /\ Forall (fun v => v <> VStr "") (title_images t).
Proof.
  intros H. pose proof (returned_anime_of _ _ _ H) as Ht.
  assert (Hi : title_images t
               = map (fun u => or_else u VNull)
                     (upstream_image_urls (rawChars_of es) (rawStaff_of es))).
  { rewrite Ht; apply title_images_anime_of. }
  split; [exact Hi|]. rewrite Hi.
  split; [|split; [|split; [reflexivity|]; split; [reflexivity|]]].
  - apply Forall2_map_right; intros u _. split.
    + unfold or_else; destruct (truthy u); auto.
    + apply or_else_null_typed.
  - apply Forall_map, Forall_forall; intros u _.
    destruct (or_else_null_cases u) as [E|[E Hu]]; rewrite E; auto.
  - apply Forall_map, Forall_forall; intros u _; apply or_else_null_not_empty.
Qed.

Lemma images_null_or_truthy_url_witness :
  run frieren_upstream [] (getFullAnimeDetails 52991) = (frieren_trace, Normal frieren_title)
  /\ title_images frieren_title
     = [VStr "https://cdn.example/frieren.jpg"; VNull; VNull; VNull;
        VStr "https://cdn.example/evan.jpg"; VStr "https://cdn.example/evan.jpg"; VNull]
  /\ Forall (fun v => v <> VStr "") (title_images frieren_title).
Proof.
  assert (Hrun : run frieren_upstream [] (getFullAnimeDetails 52991)
                 = (frieren_trace, Normal frieren_title)) by (vm_compute; reflexivity).
  split; [exact Hrun|]. split; [vm_compute; reflexivity|].
  apply (images_null_or_truthy_url frieren_upstream [] 52991 Hrun).
Defined.

(** C1, as stated, fails: an invocation whose three fetches all succeed
    suspends for the delay twice, once after the metadata fetch and once
    more between the characters fetch and the staff fetch. *)
Lemma delay_before_staff_fetch :
  run frieren_upstream [] (getFullAnimeDetails 52991) = (frieren_trace, Normal frieren_title)
  /\ steps frieren_trace
     = [DoFetch "https://api.jikan.moe/v4/anime/52991/full";
        DoSleep 1000;
        DoFetch "https://api.jikan.moe/v4/anime/52991/characters";
        DoSleep 1000;
        DoFetch "https://api.jikan.moe/v4/anime/52991/staff"]
  /\ steps frieren_trace <> schedule_single_delay 52991.
Proof.
  split; [vm_compute; reflexivity|].
  split; [vm_compute; reflexivity|].
  vm_compute; discriminate.
Qed.

(** C1, amended: every invocation fetches in the fixed order metadata,
    characters, staff and suspends for the fixed delay [DELAY_MS] after the
    metadata fetch and again after the characters fetch, so exactly one
    delay lies between any two consecutive fetches.  An invocation cut
    short by a failing fetch performs an initial part of that schedule;
    one that reaches its third fetch, in particular one that returns a
    Title, performs all of it. *)
Theorem fetches_in_order_with_delays up hist malId es r :
  run up hist (getFullAnimeDetails malId) = (es, r) ->
  (exists rest, schedule malId = steps es ++ rest)
  /\ (List.length (payloads es) = 3 -> steps es = schedule malId)
  /\ (forall t, r = Normal t -> steps es = schedule malId).
Proof.
  intros H; apply run_Invocation in H.
  split; [eapply Invocation_prefix; eauto|].
  split.
  - destruct H; simpl; intros Hl; try discriminate; reflexivity.
  - intros t ->. apply Invocation_fulfilled in H; tauto.
Qed.

Lemma fetches_in_order_with_delays_witness :
  run frieren_upstream [] (getFullAnimeDetails 52991) = (frieren_trace, Normal frieren_title)
  /\ steps frieren_trace = schedule 52991.
Proof.
  split; [vm_compute; reflexivity|].
  apply (fetches_in_order_with_delays frieren_upstream [] 52991
           (es := frieren_trace) (r := Normal frieren_title));
    [vm_compute; reflexivity | vm_compute; reflexivity].
Defined.

(** * Further properties of the pipeline *)

(** ** When the mapper completes *)

Lemma get_present v k x : get v k = Normal x -> present v = true.
Proof.
  intros H; unfold present; rewrite (get_Normal_nullish _ _ H); reflexivity.
Qed.

Lemma mapM_forallb {A B} (f : A -> result B) (P : A -> bool) (l : list A) (out : list B) :
  (forall x y, f x = Normal y -> P x = true) ->
  mapM f l = Normal out -> forallb P l = true.
Proof.
  intros HP H; apply mapM_Forall2 in H.
  induction H as [|x y l out Hxy _ IH]; simpl; [reflexivity|].
  rewrite (HP _ _ Hxy), IH; reflexivity.
Qed.

Lemma filterM_forallb {A} (p : A -> result bool) (P : A -> bool) (l out : list A) :
  (forall x b, p x = Normal b -> P x = true) ->
  filterM p l = Normal out -> forallb P l = true.
Proof.
  intros HP; revert out; induction l as [|x l IH]; simpl; intros out H; [reflexivity|].
  destruct (p x) as [b|] eqn:Ex; simpl in H; [|discriminate].
  destruct (filterM p l) as [ys|] eqn:El; simpl in H; [|discriminate].
  rewrite (HP _ _ Ex), (IH _ eq_refl); reflexivity.
Qed.

Lemma array_map_forallb {B} (f : value -> result B) (P : value -> bool) v (out : list B) :
  (forall x y, f x = Normal y -> P x = true) ->
  array_map f v = Normal out ->
  is_array v = true /\ forallb P (elements v) = true.
Proof.
  unfold array_map; intros HP H.
  apply rbind_Normal_inv in H; destruct H as (l & Hl & H).
  apply as_array_Normal in Hl; subst v; simpl; split; [reflexivity|].
  eapply mapM_forallb; eauto.
Qed.

Lemma array_map_present {B} (f : value -> result B) v (out : list B) :
  (forall x y, f x = Normal y -> present x = true) ->
  array_map f v = Normal out -> array_of_present v = true.
Proof.
  intros HP H.
  apply array_map_forallb with (P := present) in H; [|exact HP].
  destruct H as [Ha Hall].
  unfold array_of_present; rewrite Ha, Hall; reflexivity.
Qed.

Lemma map_company_present ty p c : map_company ty p = Normal c -> present p = true.
Proof.
  unfold map_company; intros H.
  apply rbind_Normal_inv in H; destruct H as (i & Hi & _).
  eapply get_present; eauto.
Qed.

Lemma map_genre_present g a : map_genre g = Normal a -> present g = true.
Proof.
  unfold map_genre; intros H.
  apply rbind_Normal_inv in H; destruct H as (i & Hi & _).
  eapply get_present; eauto.
Qed.

Lemma map_companies_conforming rawAnime out :
  map_companies rawAnime = Normal out ->
  present rawAnime = true /\
  array_of_present (get_opt rawAnime "producers") = true /\
  array_of_present (get_opt rawAnime "licensors") = true /\
  array_of_present (get_opt rawAnime "studios") = true.
Proof.
  unfold map_companies; intros H.
  apply rbind_Normal_inv in H; destruct H as (ps & Hps & H).
  pose proof (get_present _ _ Hps) as Hr. apply get_Normal in Hps; subst ps.
  apply rbind_Normal_inv in H; destruct H as (ps' & Hps' & H).
  apply rbind_Normal_inv in H; destruct H as (ls & Hls & H).
  apply get_Normal in Hls; subst ls.
  apply rbind_Normal_inv in H; destruct H as (ls' & Hls' & H).
  apply rbind_Normal_inv in H; destruct H as (ss & Hss & H).
  apply get_Normal in Hss; subst ss.
  apply rbind_Normal_inv in H; destruct H as (ss' & Hss' & _).
  split; [exact Hr|].
  split; [eapply array_map_present; [|exact Hps']; apply map_company_present|].
  split; [eapply array_map_present; [|exact Hls']; apply map_company_present|].
  eapply array_map_present; [|exact Hss']; apply map_company_present.
Qed.

Lemma map_themes_conforming rawAnime out :
  map_themes rawAnime = Normal out ->
  is_array (or_else (get_opt (get_opt rawAnime "theme") "openings") (VArr [])) = true /\
  is_array (or_else (get_opt (get_opt rawAnime "theme") "endings") (VArr [])) = true.
Proof.
  unfold map_themes; intros H.
  apply rbind_Normal_inv in H; destruct H as (th & Hth & H).
  apply get_Normal in Hth; subst th.
  apply rbind_Normal_inv in H; destruct H as (ops & Hops & H).
  apply rbind_Normal_inv in H; destruct H as (th & Hth & H).
  apply get_Normal in Hth; subst th.
  apply rbind_Normal_inv in H; destruct H as (eds & Heds & _).
  apply array_map_forallb with (P := fun _ => true) in Hops; [|reflexivity].
  apply array_map_forallb with (P := fun _ => true) in Heds; [|reflexivity].
  tauto.
Qed.

Lemma map_relation_conforming rel out :
  map_relation rel = Normal out -> conforming_relation rel = true.
Proof.
  unfold map_relation, conforming_relation; intros H.
  apply rbind_Normal_inv in H; destruct H as (entries & He & H).
  pose proof (get_present _ _ He) as Hr. apply get_Normal in He; subst entries.
  apply rbind_Normal_inv in H; destruct H as (kept & Hk & _).
  unfold array_filter in Hk.
  apply rbind_Normal_inv in Hk; destruct Hk as (l & Hl & Hk).
  apply as_array_Normal in Hl.
  rewrite Hr; unfold array_of_present; rewrite Hl; simpl.
  eapply filterM_forallb; [|exact Hk].
  intros e b Hb. apply rbind_Normal_inv in Hb; destruct Hb as (ty & Hty & _).
  eapply get_present; eauto.
Qed.

Lemma map_relatedEntries_conforming rawAnime out :
  map_relatedEntries rawAnime = Normal out ->
  is_nullish (get_opt rawAnime "relations")
  || (is_array (get_opt rawAnime "relations")
      && forallb conforming_relation (elements (get_opt rawAnime "relations"))) = true.
Proof.
  unfold map_relatedEntries; intros H.
  apply rbind_Normal_inv in H; destruct H as (rels & Hr & H).
  apply get_Normal in Hr; subst rels.
  destruct (is_nullish (get_opt rawAnime "relations")); [reflexivity|]; simpl.
  unfold array_flatMap in H.
  apply rbind_Normal_inv in H; destruct H as (l & Hl & H).
  apply rbind_Normal_inv in H; destruct H as (chunks & Hc & _).
  apply as_array_Normal in Hl; rewrite Hl; simpl.
  eapply mapM_forallb; [|exact Hc]. apply map_relation_conforming.
Qed.

Lemma map_person_conforming o p :
  map_person o = Normal p -> present o = true /\ present (get_opt o "person") = true.
Proof.
  unfold map_person; intros H.
  apply rbind_Normal_inv in H; destruct H as (x & Hx & H).
  pose proof (get_present _ _ Hx) as Ho. apply get_Normal in Hx; subst x.
  apply rbind_Normal_inv in H; destruct H as (i & Hi & _).
  split; [exact Ho | eapply get_present; eauto].
Qed.

Lemma map_voiceActor_conforming va a :
  map_voiceActor va = Normal a -> conforming_voice va = true.
Proof.
  unfold map_voiceActor, conforming_voice; intros H.
  apply rbind_Normal_inv in H; destruct H as (l & _ & H).
  apply rbind_Normal_inv in H; destruct H as (p & Hp & _).
  destruct (map_person_conforming _ Hp) as [H1 H2]; rewrite H1, H2; reflexivity.
Qed.

Lemma map_character_conforming c a :
  map_character c = Normal a -> conforming_character c = true.
Proof.
  unfold map_character, conforming_character; intros H.
  apply rbind_Normal_inv in H; destruct H as (r & Hr & H).
  pose proof (get_present _ _ Hr) as Hc.
  apply rbind_Normal_inv in H; destruct H as (ch & Hch & H).
  apply get_Normal in Hch; subst ch.
  apply rbind_Normal_inv in H; destruct H as (i & Hi & H).
  pose proof (get_present _ _ Hi) as Hp.
  do 4 (apply rbind_Normal_inv in H; destruct H as (? & _ & H)).
  apply rbind_Normal_inv in H; destruct H as (vas & Hvas & H).
  apply get_Normal in Hvas; subst vas.
  apply rbind_Normal_inv in H; destruct H as (voices & Hv & _).
  apply array_map_forallb with (P := conforming_voice) in Hv;
    [|apply map_voiceActor_conforming].
  destruct Hv as [Ha Hall].
  rewrite Hc, Hp, Ha, Hall; reflexivity.
Qed.

Lemma map_characters_conforming rawChars out :
  map_characters rawChars = Normal out -> conforming_cast rawChars = true.
Proof.
  unfold map_characters, conforming_cast; intros H.
  apply array_map_forallb with (P := conforming_character) in H;
    [|apply map_character_conforming].
  destruct H as [Ha Hall].
  rewrite Ha, Hall; reflexivity.
Qed.

Lemma map_staff_entry_conforming s out :
  map_staff_entry s = Normal out -> conforming_credit s = true.
Proof.
  unfold map_staff_entry, conforming_credit; intros H.
  apply rbind_Normal_inv in H; destruct H as (ps & Hps & H).
  pose proof (get_present _ _ Hps) as Hs. apply get_Normal in Hps; subst ps.
  unfold array_map in H.
  apply rbind_Normal_inv in H; destruct H as (l & Hl & H).
  apply as_array_Normal in Hl; rewrite Hs, Hl; simpl.
  destruct l as [|role l]; [reflexivity|].
  simpl in H. apply rbind_Normal_inv in H; destruct H as (y & Hy & _).
  apply rbind_Normal_inv in Hy; destruct Hy as (p & Hp & _).
  apply map_person_conforming in Hp; tauto.
Qed.

Lemma map_staff_conforming rawStaff out :
  map_staff rawStaff = Normal out -> conforming_staff rawStaff = true.
Proof.
  unfold map_staff, array_flatMap, conforming_staff; intros H.
  apply rbind_Normal_inv in H; destruct H as (l & Hl & H).
  apply rbind_Normal_inv in H; destruct H as (chunks & Hc & _).
  apply as_array_Normal in Hl; subst rawStaff; simpl.
  eapply mapM_forallb; [|exact Hc]. apply map_staff_entry_conforming.
Qed.

Lemma unprintable_truthy v : unprintable v = true -> truthy v = true.
Proof. destruct v; simpl; intros H; try discriminate; reflexivity. Qed.

Lemma map_aired_date_conforming rawAnime f d :
  map_aired_date rawAnime f = Normal d ->
  unprintable (get_opt (get_opt rawAnime "aired") f) = false.
Proof.
  unfold map_aired_date; intros H.
  apply rbind_Normal_inv in H; destruct H as (aired & Ha & H).
  apply get_Normal in Ha; subst aired.
  destruct (truthy (get_opt (get_opt rawAnime "aired") f)) eqn:Et.
  - apply rbind_Normal_inv in H; destruct H as (aired' & Ha' & H).
    apply get_Normal in Ha'; subst aired'.
    apply rbind_Normal_inv in H; destruct H as (d' & Hd & H).
    apply get_Normal in Hd; subst d'.
    unfold new_Date in H.
    destruct (unprintable (get_opt (get_opt rawAnime "aired") f)); [discriminate H|reflexivity].
  - destruct (unprintable (get_opt (get_opt rawAnime "aired") f)) eqn:Eu; [|reflexivity].
    apply unprintable_truthy in Eu; congruence.
Qed.

Lemma map_anime_conforming rawAnime rawChars rawStaff t :
  map_anime rawAnime rawChars rawStaff = Normal t ->
  conforming_metadata rawAnime = true /\
  conforming_cast rawChars = true /\
  conforming_staff rawStaff = true.
Proof.
  intros H.
  pose proof (map_anime_genres _ _ _ H) as Hg.
  unfold map_anime in H.
  apply rbind_Normal_inv in H; destruct H as (cs & Hcs & H).
  apply rbind_Normal_inv in H; destruct H as (ths & Hths & H).
  apply rbind_Normal_inv in H; destruct H as (rels & Hrels & H).
  apply rbind_Normal_inv in H; destruct H as (chs & Hchs & H).
  apply rbind_Normal_inv in H; destruct H as (sts & Hsts & H).
  binds_inv H; gets.
  repeat match goal with
         | Hx : map_aired_date _ _ = Normal _ |- _ => apply map_aired_date_conforming in Hx
         end.
  apply map_companies_conforming in Hcs; destruct Hcs as (Hr & Hp & Hl & Hs).
  apply map_themes_conforming in Hths; destruct Hths as (Ho & He).
  apply map_relatedEntries_conforming in Hrels.
  apply map_characters_conforming in Hchs.
  apply map_staff_conforming in Hsts.
  repeat split; auto.
  unfold conforming_metadata.
  rewrite Hr, Hp, Hl, Hs, Ho, He, Hrels; simpl.
  repeat match goal with
         | Hx : unprintable _ = false |- _ => rewrite Hx; clear Hx
         end.
  cbn [negb]; rewrite !Bool.andb_true_r.
  match goal with
  | Hx : array_map map_genre _ = Normal _ |- _ =>
      eapply array_map_present; [|exact Hx]; apply map_genre_present
  end.
Qed.

(** ** What the mapper can throw *)

Lemma only_TypeError_Normal {A} (a : A) : throws_only_TypeError (Normal a).
Proof. intros e H; discriminate. Qed.

Lemma only_TypeError_get v k : throws_only_TypeError (get v k).
Proof. intros e H; destruct v; simpl in H; congruence. Qed.

Lemma only_TypeError_as_array v : throws_only_TypeError (as_array v).
Proof. intros e H; destruct v; simpl in H; congruence. Qed.

Lemma only_TypeError_bind {A B} (m : result A) (k : A -> result B) :
  throws_only_TypeError m ->
  (forall a, throws_only_TypeError (k a)) ->
  throws_only_TypeError (rbind m k).
Proof.
  intros Hm Hk e H; destruct m as [a|e']; simpl in H.
  - eapply Hk; eauto.
  - apply Hm; congruence.
Qed.

Lemma only_TypeError_mapM {A B} (f : A -> result B) (l : list A) :
  (forall x, throws_only_TypeError (f x)) -> throws_only_TypeError (mapM f l).
Proof.
  intros Hf; induction l as [|x l IH]; simpl.
  - apply only_TypeError_Normal.
  - apply only_TypeError_bind; [apply Hf|intros y].
    apply only_TypeError_bind; [apply IH|intros ys].
    apply only_TypeError_Normal.
Qed.

Lemma only_TypeError_filterM {A} (p : A -> result bool) (l : list A) :
  (forall x, throws_only_TypeError (p x)) -> throws_only_TypeError (filterM p l).
Proof.
  intros Hp; induction l as [|x l IH]; simpl.
  - apply only_TypeError_Normal.
  - apply only_TypeError_bind; [apply Hp|intros y].
    apply only_TypeError_bind; [apply IH|intros ys].
    apply only_TypeError_Normal.
Qed.

Lemma only_TypeError_new_Date x : throws_only_TypeError (new_Date x).
Proof. intros e H; unfold new_Date in H; destruct (unprintable x); congruence. Qed.

Ltac only_TypeError :=
  repeat first
    [ apply only_TypeError_Normal
    | apply only_TypeError_get
    | apply only_TypeError_new_Date
    | apply only_TypeError_as_array
    | apply only_TypeError_bind; [|intros ?]
    | apply only_TypeError_mapM; intros ?
    | apply only_TypeError_filterM; intros ?
    | match goal with
      | |- throws_only_TypeError (if ?c then _ else _) => destruct c
      end ].

Lemma map_anime_only_TypeError rawAnime rawChars rawStaff :
  throws_only_TypeError (map_anime rawAnime rawChars rawStaff).
Proof.
  unfold map_anime, map_companies, map_themes, map_relatedEntries, map_characters,
    map_staff, map_aired_date, array_flatMap, array_map.
  only_TypeError;
    unfold map_company, map_theme, map_relation, map_character, map_staff_entry,
      map_genre, map_voiceActor, map_person, array_filter, array_map;
    only_TypeError;
    unfold map_voiceActor, map_person; only_TypeError.
Qed.

(** ** Success, failure and the remaining collections *)

Lemma length_flat_map_sum {A B} (f : A -> list B) (l : list A) :
  List.length (flat_map f l) = list_sum (map (fun x => List.length (f x)) l).
Proof.
  induction l as [|x l IH]; simpl; [reflexivity|].
  rewrite length_app, IH; reflexivity.
Qed.

Lemma is_anime_type e : is_anime e = true -> get_opt e "type" = VStr "anime".
Proof.
  unfold is_anime, strict_eq_str.
  destruct (get_opt e "type"); try discriminate.
  intros H; apply String.eqb_eq in H; subst; reflexivity.
Qed.

(** X1: [getFullAnimeDetails] returns a Title exactly when its three
    fetches hand back payloads on which the mapper does not throw
    ([conforming_metadata], [conforming_cast], [conforming_staff]: the
    properties read on are present, what is iterated is an array, and a
    truthy [aired.from] / [aired.to] is accepted by [new Date]); in every
    other case it rejects.  The Title it returns is the declarative
    reading [anime_of] of the three payloads. *)
Theorem returns_exactly_on_conforming_payloads up hist malId es r :
  run up hist (getFullAnimeDetails malId) = (es, r) ->
  ((exists t, r = Normal t) <->
   (exists a c s,
      payloads es = [Normal a; Normal c; Normal s] /\
      conforming_metadata a = true /\
      conforming_cast c = true /\
      conforming_staff s = true))
  /\ (forall t, r = Normal t ->
        t = anime_of (rawAnime_of es) (rawChars_of es) (rawStaff_of es)).
Proof.
  intros H. split.
  - apply run_Invocation in H.
    destruct H as [f1 e E1|f1 f2 a e E1 E2|f1 f2 f3 a c e E1 E2 E3|f1 f2 f3 a c s E1 E2 E3];
      simpl payloads; rewrite ?E1, ?E2, ?E3; simpl.
    1-3: split; [intros [t Ht]; discriminate
                | intros (a' & c' & s' & Hp & _); discriminate].
    split.
    + intros [t Ht]. exists a, c, s; split; [reflexivity|].
      apply (map_anime_conforming _ _ _ Ht).
    + intros (a' & c' & s' & Hp & Ha & Hc & Hs).
      inversion Hp; subst a' c' s'.
      rewrite (map_anime_total _ _ _ Ha Hc Hs); eauto.
  - intros t ->. eapply returned_anime_of; eauto.
Qed.

Lemma returns_exactly_on_conforming_payloads_witness :
  run frieren_upstream [] (getFullAnimeDetails 52991) = (frieren_trace, Normal frieren_title)
  /\ exists a c s,
       payloads frieren_trace = [Normal a; Normal c; Normal s] /\
       conforming_metadata a = true /\
       conforming_cast c = true /\
       conforming_staff s = true.
Proof.
  assert (Hrun : run frieren_upstream [] (getFullAnimeDetails 52991)
                 = (frieren_trace, Normal frieren_title)) by (vm_compute; reflexivity).
  split; [exact Hrun|].
  apply (returns_exactly_on_conforming_payloads frieren_upstream [] 52991 Hrun).
  exists frieren_title; reflexivity.
Defined.

(** X2: whatever makes a fetch fail -- a network failure, a non-success
    status, a body that is not JSON, a JSON [null] body -- the invocation
    rejects with the error of that fetch, and that fetch is the last thing
    it does: no later endpoint is requested and nothing is retried. *)
Theorem any_fetch_failure_aborts up hist malId es r url res e :
  run up hist (getFullAnimeDetails malId) = (es, r) ->
  In (EvFetch url res) es ->
  settle res = Throw e ->
  r = Throw e /\ exists before, es = before ++ [EvFetch url res].
Proof.
  intros H Hin He. apply run_Invocation in H.
  destruct H; simpl in Hin;
    repeat match goal with
           | Hor : _ \/ _ |- _ => destruct Hor
           | Hf : False |- _ => contradiction
           | Hx : EvLog _ = EvFetch _ _ |- _ => discriminate Hx
           | Hx : EvSleep _ = EvFetch _ _ |- _ => discriminate Hx
           | Hx : EvFetch _ _ = EvFetch _ _ |- _ => inversion Hx; subst; clear Hx
           end;
    try congruence;
    (split; [congruence|]).
  - exists [EvLog ("[FETCHER] Requesting: " ++ endpoint_full malId)]; reflexivity.
  - eexists [_; _; _; _]; reflexivity.
  - eexists [_; _; _; _; _; _; _]; reflexivity.
Qed.

Lemma any_fetch_failure_aborts_witness :
  run offline_staff_upstream [] (getFullAnimeDetails 52991)
  = (offline_staff_trace, @Throw Anime TypeError)
  /\ In (EvFetch (url_staff 52991) None) offline_staff_trace
  /\ settle None = Throw TypeError
  /\ exists before, offline_staff_trace = before ++ [EvFetch (url_staff 52991) None].
Proof.
  split; [vm_compute; reflexivity|].
  split; [vm_compute; tauto|].
  split; [reflexivity|].
  apply (any_fetch_failure_aborts offline_staff_upstream [] 52991
           (url_staff 52991) None (r := @Throw Anime TypeError) (e := TypeError));
    [vm_compute; reflexivity | vm_compute; tauto | reflexivity].
Defined.

(** X3: the payloads are not looked at between the fetches.  When all the
    fetches of an invocation handed their payload back and the invocation
    still rejects, it has performed the complete schedule of three fetches
    and two delays, and the error is a [TypeError] raised by the mapping. *)
Theorem shape_errors_surface_after_all_fetches up hist malId es e :
  run up hist (getFullAnimeDetails malId) = (es, Throw e) ->
  Forall handed_back (payloads es) ->
  steps es = schedule malId
  /\ List.length (payloads es) = 3
  /\ e = TypeError.
Proof.
  intros H HF. apply run_Invocation in H.
  inversion H as [f1 e' E1|f1 f2 a e' E1 E2|f1 f2 f3 a c e' E1 E2 E3
                  |f1 f2 f3 a c s E1 E2 E3 Hes Hr]; subst;
    simpl in HF; rewrite ?E1, ?E2, ?E3 in HF.
  - inversion HF as [|? ? [v Hv] _]; discriminate.
  - inversion HF as [|? ? _ HF']; inversion HF' as [|? ? [v Hv] _]; discriminate.
  - inversion HF as [|? ? _ HF']; inversion HF' as [|? ? _ HF''];
      inversion HF'' as [|? ? [v Hv] _]; discriminate.
  - repeat split. apply (map_anime_only_TypeError a c s); congruence.
Qed.

Lemma shape_errors_surface_after_all_fetches_witness :
  run bare_upstream [] (getFullAnimeDetails 52991) = (bare_trace, Throw TypeError)
  /\ Forall handed_back (payloads bare_trace)
  /\ steps bare_trace = schedule 52991.
Proof.
  assert (Hrun : run bare_upstream [] (getFullAnimeDetails 52991)
                 = (bare_trace, Throw TypeError)) by (vm_compute; reflexivity).
  assert (HF : Forall handed_back (payloads bare_trace)).
  { vm_compute; repeat (constructor; [eexists; reflexivity|]); constructor. }
  split; [exact Hrun|]. split; [exact HF|].
  apply (shape_errors_surface_after_all_fetches bare_upstream [] 52991 Hrun HF).
Defined.

(** X4: in every returned Title the related-title list holds, group after
    group in input order, exactly the entries of each relation group whose
    [type] is the string "anime", each with the group's relation label and
    the entry's id and name; entries of any other type never appear, a
    missing relations list gives the empty list, and the length is the sum
    over the groups of their anime-typed entries. *)
Theorem related_entries_anime_only up hist malId es t :
  run up hist (getFullAnimeDetails malId) = (es, Normal t) ->
  relatedEntries t
  = flat_map (fun rel => map (related_of rel)
                             (filter is_anime (elements (get_opt rel "entry"))))
             (elements (get_opt (rawAnime_of es) "relations"))
  /\ (is_nullish (get_opt (rawAnime_of es) "relations") = true -> relatedEntries t = [])
  /\ Forall (fun r => exists rel e,
                 In rel (elements (get_opt (rawAnime_of es) "relations")) /\
                 In e (elements (get_opt rel "entry")) /\
                 get_opt e "type" = VStr "anime" /\
                 r = related_of rel e)
            (relatedEntries t)
  /\ List.length (relatedEntries t)
     = list_sum (map anime_entry_count (elements (get_opt (rawAnime_of es) "relations"))).
Proof.
  intros H. pose proof (returned_anime_of _ _ _ H) as Ht.
  assert (Hr : relatedEntries t
               = flat_map related_in (elements (get_opt (rawAnime_of es) "relations"))).
  { rewrite Ht; reflexivity. }
  split; [exact Hr|]. rewrite Hr. split; [|split].
  - intros Hn. destruct (get_opt (rawAnime_of es) "relations"); try discriminate; reflexivity.
  - apply Forall_forall; intros r Hin.
    apply in_flat_map in Hin; destruct Hin as (rel & Hrel & Hin).
    unfold related_in in Hin. apply in_map_iff in Hin; destruct Hin as (e & He & Hin).
    apply filter_In in Hin; destruct Hin as [Hin Ha].
    exists rel, e; repeat split; auto. apply is_anime_type, Ha.
  - rewrite length_flat_map_sum. f_equal. apply map_ext; intros rel.
    unfold related_in, anime_entry_count; apply length_map.
Qed.

Lemma related_entries_anime_only_witness :
  run frieren_upstream [] (getFullAnimeDetails 52991) = (frieren_trace, Normal frieren_title)
  /\ List.length (relatedEntries frieren_title)
     = list_sum (map anime_entry_count
                     (elements (get_opt (rawAnime_of frieren_trace) "relations"))).
Proof.
  split; [vm_compute; reflexivity|].
  apply (related_entries_anime_only frieren_upstream [] 52991); vm_compute; reflexivity.
Defined.

Lemma character_of_voices c :
  conforming_character c = true ->
  exists vas,
    get_opt c "voice_actors" = VArr vas /\
    Forall2 (fun va a =>
               va_language a = get_opt va "language" /\
               person_id (va_person a) = get_opt (get_opt va "person") "mal_id" /\
               person_name (va_person a) = get_opt (get_opt va "person") "name")
            vas (voiceActors (character_of c)).
Proof.
  unfold conforming_character; intros H.
  apply andb_prop in H; destruct H as [H _].
  apply andb_prop in H; destruct H as [_ Ha].
  destruct (get_opt c "voice_actors") as [| | | | |vas| |] eqn:Ev; try discriminate.
  exists vas; split; [reflexivity|].
  unfold character_of; simpl; rewrite Ev; simpl.
  apply Forall2_map_right; intros va _; repeat split.
Qed.

(** X5: in every returned Title the cast list has one entry per raw
    character entry, in input order.  Each entry carries the raw role
    string as it came (it is not checked against Main/Supporting), the
    character's id and name, and one voice-performer assignment per raw
    [voice_actors] entry, again in input order, with that entry's language
    and the performer's id and name. *)
Theorem cast_in_order_roles_verbatim up hist malId es t :
  run up hist (getFullAnimeDetails malId) = (es, Normal t) ->
  exists cs,
    rawChars_of es = VArr cs /\
    List.length (characters t) = List.length cs /\
    Forall2 (fun c out =>
               character_role out = get_opt c "role" /\
               character_id (character out) = get_opt (get_opt c "character") "mal_id" /\
               character_name (character out) = get_opt (get_opt c "character") "name" /\
               exists vas,
                 get_opt c "voice_actors" = VArr vas /\
                 Forall2 (fun va a =>
                            va_language a = get_opt va "language" /\
                            person_id (va_person a) = get_opt (get_opt va "person") "mal_id" /\
                            person_name (va_person a) = get_opt (get_opt va "person") "name")
                         vas (voiceActors out))
            cs (characters t).
Proof.
  intros H. pose proof (returned_mapped _ _ _ H) as Hm.
  pose proof (map_anime_shapes _ _ _ Hm) as (_ & _ & _ & Hc).
  unfold map_characters, array_map in Hc.
  apply rbind_Normal_inv in Hc; destruct Hc as (cs & Hcs & Hc).
  apply as_array_Normal in Hcs. apply mapM_Forall2 in Hc.
  exists cs; split; [exact Hcs|]. split.
  - symmetry; eapply Forall2_length; eauto.
  - eapply Forall2_impl; [|exact Hc].
    intros c out Hco; simpl in Hco.
    pose proof (map_character_conforming _ Hco) as Hconf.
    apply map_character_spec in Hco; subst out.
    repeat split. apply character_of_voices, Hconf.
Qed.

Lemma cast_in_order_roles_verbatim_witness :
  run frieren_upstream [] (getFullAnimeDetails 52991) = (frieren_trace, Normal frieren_title)
  /\ exists cs,
       rawChars_of frieren_trace = VArr cs /\
       List.length (characters frieren_title) = List.length cs.
Proof.
  split; [vm_compute; reflexivity|].
  destruct (cast_in_order_roles_verbatim frieren_upstream [] 52991
              (es := frieren_trace) (t := frieren_title)) as (cs & Hcs & Hlen & _);
    [vm_compute; reflexivity|].
  exists cs; split; assumption.
Defined.

(** X6: in every returned Title the genre list is the raw [genres] array
    mapped entry by entry to (id, name) pairs, in input order and of the
    same length; nothing is dropped or merged, so a raw id that occurs
    twice occurs twice in the Title. *)
Theorem genres_in_order up hist malId es t :
  run up hist (getFullAnimeDetails malId) = (es, Normal t) ->
  exists gs,
    get (rawAnime_of es) "genres" = Normal (VArr gs) /\
    genres t = map genre_of gs /\
    map genre_id (genres t) = map (fun g => get_opt g "mal_id") gs /\
    List.length (genres t) = List.length gs.
Proof.
  intros H. pose proof (returned_mapped _ _ _ H) as Hm.
  pose proof (map_anime_shapes _ _ _ Hm) as (Hn & _).
  pose proof (map_anime_genres _ _ _ Hm) as Hg.
  pose proof (map_anime_spec _ _ _ Hm) as Ht.
  exists (elements (get_opt (rawAnime_of es) "genres")).
  rewrite <- Hg. split; [apply get_not_nullish, Hn|].
  assert (Hgs : genres t = map genre_of (elements (get_opt (rawAnime_of es) "genres"))).
  { rewrite Ht; reflexivity. }
  rewrite Hgs. split; [reflexivity|]. split.
  - rewrite map_map; reflexivity.
  - apply length_map.
Qed.

Lemma genres_in_order_witness :
  run frieren_upstream [] (getFullAnimeDetails 52991) = (frieren_trace, Normal frieren_title)
  /\ exists gs,
       get (rawAnime_of frieren_trace) "genres" = Normal (VArr gs) /\
       genres frieren_title = map genre_of gs /\
       map genre_id (genres frieren_title) = map (fun g => get_opt g "mal_id") gs /\
       List.length (genres frieren_title) = List.length gs.
Proof.
  split; [vm_compute; reflexivity|].
  apply (genres_in_order frieren_upstream [] 52991); vm_compute; reflexivity.
Defined.

(** X7: the Title's main picture is the raw [images.jpg.large_image_url]
    when that is truthy and the raw [images.jpg.image_url] otherwise,
    whatever the latter is.  Unlike the image of a character or person it
    is not replaced by [null]: with no [images] object at all the main
    picture is [undefined]. *)
Theorem main_picture_prefers_large up hist malId es t :
  run up hist (getFullAnimeDetails malId) = (es, Normal t) ->
  (truthy (get_opt (get_opt (get_opt (rawAnime_of es) "images") "jpg") "large_image_url") = true ->
   mainPicture t
   = get_opt (get_opt (get_opt (rawAnime_of es) "images") "jpg") "large_image_url")
  /\ (truthy (get_opt (get_opt (get_opt (rawAnime_of es) "images") "jpg") "large_image_url") = false ->
      mainPicture t
      = get_opt (get_opt (get_opt (rawAnime_of es) "images") "jpg") "image_url")
  /\ (is_nullish (get_opt (rawAnime_of es) "images") = true -> mainPicture t = VUndefined).
Proof.
  intros H. rewrite (returned_anime_of _ _ _ H); simpl; unfold or_else.
  split; [intros ->; reflexivity|]. split; [intros ->; reflexivity|].
  intros Hn. destruct (get_opt (rawAnime_of es) "images"); try discriminate; reflexivity.
Qed.

Lemma main_picture_prefers_large_witness :
  run frieren_upstream [] (getFullAnimeDetails 52991) = (frieren_trace, Normal frieren_title)
  /\ truthy (get_opt (get_opt (get_opt (rawAnime_of frieren_trace) "images") "jpg")
                     "large_image_url") = true
  /\ mainPicture frieren_title
     = get_opt (get_opt (get_opt (rawAnime_of frieren_trace) "images") "jpg") "large_image_url".
Proof.
  assert (Hrun : run frieren_upstream [] (getFullAnimeDetails 52991)
                 = (frieren_trace, Normal frieren_title)) by (vm_compute; reflexivity).
  split; [exact Hrun|]. split; [vm_compute; reflexivity|].
  apply (main_picture_prefers_large frieren_upstream [] 52991 Hrun).
  vm_compute; reflexivity.
Defined.

(** * The test framework *)

Lemma test_settled_results r p finish th :
  exists entry,
    results (fst (fst (test_settled r p finish th))) = results r ++ [entry]
    /\ tr_name entry = pt_fullName p
    /\ tr_passed entry = match th with None => true | Some _ => false end
    /\ currentSuite (fst (fst (test_settled r p finish th))) = currentSuite r.
Proof.
  destruct th as [[|x]|]; simpl; eexists; repeat split.
Qed.

Lemma play_passed (calls : list runner_call) :
  forall s s',
    play s calls = Some s' ->
    map tr_passed (results (runner s'))
    = map tr_passed (results (runner s))
      ++ map (fun c => negb (body_threw c)) (filter is_settled calls).
Proof.
  induction calls as [|c calls IH]; intros s s' H; simpl in H.
  - inversion H; subst; simpl; rewrite app_nil_r; reflexivity.
  - destruct (play_call s c) as [s1|] eqn:E; [|discriminate].
    rewrite (IH _ _ H).
    destruct c as [name|name start|i finish th]; simpl in E.
    + inversion E; subst; reflexivity.
    + inversion E; subst; reflexivity.
    + destruct (nth_error (pending s) i) as [p|]; [|discriminate].
      inversion E; subst; cbn [runner filter is_settled map].
      destruct (test_settled_results (runner s) p finish th) as (entry & Hr & _ & Hp & _).
      rewrite Hr, map_app, <- app_assoc; cbn [map app]; rewrite Hp.
      destruct th; reflexivity.
Qed.

Lemma count_passed (l : list TestResult) :
  List.length (filter tr_passed l)
  = List.length (filter (fun b => b) (map tr_passed l)).
Proof.
  induction l as [|x l IH]; simpl; [reflexivity|].
  destruct (tr_passed x); simpl; rewrite IH; reflexivity.
Qed.

Lemma count_failed (l : list TestResult) :
  List.length (filter (fun x => negb (tr_passed x)) l)
  = List.length (filter negb (map tr_passed l)).
Proof.
  induction l as [|x l IH]; simpl; [reflexivity|].
  destruct (tr_passed x); simpl; rewrite IH; reflexivity.
Qed.

Lemma passed_failed_partition (bs : list bool) :
  (List.length (filter (fun b => b) bs) + List.length (filter negb bs))%nat
  = List.length bs.
Proof.
  induction bs as [|b bs IH]; simpl; [reflexivity|].
  destruct b; simpl; rewrite <- IH; [reflexivity|].
  rewrite <- plus_n_Sm; reflexivity.
Qed.

Lemma count_threw (calls : list runner_call) :
  List.length (filter negb (map (fun c => negb (body_threw c)) (filter is_settled calls)))
  = List.length (filter body_threw calls).
Proof.
  induction calls as [|c calls IH]; simpl; [reflexivity|].
  destruct c as [name|name start|i finish [th|]]; simpl; rewrite ?IH; reflexivity.
Qed.

Lemma filter_nonempty_In {A} (f : A -> bool) (l : list A) :
  (0 <? List.length (filter f l))%nat = true <-> exists x, In x l /\ f x = true.
Proof.
  split.
  - intros H. destruct (filter f l) as [|x rest] eqn:E; [discriminate|].
    assert (Hin : In x (filter f l)) by (rewrite E; left; reflexivity).
    apply filter_In in Hin; eauto.
  - intros (x & Hin & Hx).
    assert (Hf : In x (filter f l)) by (apply filter_In; auto).
    destruct (filter f l); [contradiction|reflexivity].
Qed.

Lemma remove_nth_Permutation {A} (l : list A) :
  forall i a, nth_error l i = Some a -> Permutation (a :: remove_nth i l) l.
Proof.
  induction l as [|x l IH]; intros [|i] a H; simpl in H; try discriminate.
  - inversion H; subst. apply Permutation_refl.
  - change (remove_nth (S i) (x :: l)) with (x :: remove_nth i l).
    eapply perm_trans; [apply perm_swap|]. apply perm_skip, IH, H.
Qed.

(** Every name built at a call of [test] is held, once, by a result or by
    a test still waiting, and no other name is. *)
Lemma play_names (calls : list runner_call) :
  forall s s',
    play s calls = Some s' ->
    Permutation (names_held s')
                (names_held s ++ names_called (currentSuite (runner s)) calls).
Proof.
  induction calls as [|c calls IH]; intros s s' H; simpl in H.
  - inversion H; subst; simpl; rewrite app_nil_r; apply Permutation_refl.
  - destruct (play_call s c) as [s1|] eqn:E; [|discriminate].
    eapply perm_trans; [apply (IH _ _ H)|]. clear IH H.
    destruct c as [name|name start|i finish th]; simpl in E.
    + inversion E; subst; apply Permutation_refl.
    + inversion E; subst; unfold names_held; cbn [runner pending names_called].
      rewrite map_app, <- !app_assoc; apply Permutation_refl.
    + destruct (nth_error (pending s) i) as [p|] eqn:Ep; [|discriminate].
      inversion E; subst; unfold names_held; cbn [runner pending names_called].
      destruct (test_settled_results (runner s) p finish th) as (entry & Hr & Hn & _ & Hc).
      rewrite Hr, Hc, map_app, <- !app_assoc; cbn [map app]; rewrite Hn.
      apply Permutation_app_head.
      rewrite app_comm_cons; apply Permutation_app_tail.
      change (pt_fullName p :: map pt_fullName (remove_nth i (pending s)))
        with (map pt_fullName (p :: remove_nth i (pending s))).
      apply Permutation_map, remove_nth_Permutation, Ep.
Qed.

(** X8: in a session on a fresh runner (suites opened, tests called,
    bodies settling in any order) the runner holds one result per settled
    body, in the order of settling, passed exactly for the bodies that did
    not throw; the counts that [printSummary] prints satisfy passed +
    failed = total; [printSummary] ends the process with exit code 1
    exactly when some body threw, and returns otherwise; and the names of
    the results, with those of the tests still waiting, are the names built
    at the calls of [test], each from the suite that was open then. *)
Theorem summary_reflects_session (calls : list runner_call) (s : Session) :
  play new_Session calls = Some s ->
  let r := runner s in
  map tr_passed (results r) = map (fun c => negb (body_threw c)) (filter is_settled calls)
  /\ List.length (results r) = List.length (filter is_settled calls)
  /\ failed_count r = List.length (filter body_threw calls)
  /\ (passed_count r + failed_count r)%nat = List.length (results r)
  /\ (snd (printSummary r) = Exited 1 <-> exists c, In c calls /\ body_threw c = true)
  /\ (snd (printSummary r) = Completed <-> forall c, In c calls -> body_threw c = false)
  /\ Permutation (map tr_name (results r) ++ map pt_fullName (pending s))
                 (names_called "" calls).
Proof.
  intros Hplay r.
  assert (Hp : map tr_passed (results r)
               = map (fun c => negb (body_threw c)) (filter is_settled calls)).
  { unfold r; rewrite (play_passed _ _ Hplay); reflexivity. }
  assert (Hf : failed_count r = List.length (filter body_threw calls)).
  { unfold failed_count; rewrite count_failed, Hp; apply count_threw. }
  assert (Hex : (0 <? failed_count r)%nat = true <-> exists c, In c calls /\ body_threw c = true).
  { rewrite Hf; apply filter_nonempty_In. }
  split; [exact Hp|]. split; [|split; [exact Hf|split; [|split; [|split]]]].
  - rewrite <- (length_map tr_passed), Hp; apply length_map.
  - unfold passed_count, failed_count.
    rewrite count_passed, count_failed, passed_failed_partition; apply length_map.
  - unfold printSummary; simpl. rewrite <- Hex.
    destruct (0 <? failed_count r)%nat; split; intros H; congruence.
  - unfold printSummary; simpl.
    destruct (0 <? failed_count r)%nat eqn:E; split; intros H; try discriminate; try reflexivity.
    + destruct (proj1 Hex eq_refl) as (c & Hin & Hc).
      rewrite (H c Hin) in Hc; discriminate.
    + intros c Hin. destruct (body_threw c) eqn:Hc; [|reflexivity].
      assert (Habs : false = true) by (apply Hex; eauto).
      discriminate.
  - apply (play_names _ _ Hplay).
Qed.

Lemma summary_reflects_session_witness :
  exists s,
    play new_Session sample_session = Some s
    /\ map tr_name (results (runner s)) = ["Integration Tests > fetches"; "Unit Tests > maps ids"]
    /\ map tr_passed (results (runner s)) = [false; true]
    /\ snd (printSummary (runner s)) = Exited 1.
Proof.
  eexists; split; [reflexivity|]. split; [reflexivity|]. split; [reflexivity|].
  apply (summary_reflects_session sample_session eq_refl).
  eexists; split; [right; right; right; right; left; reflexivity | reflexivity].
Defined.

(** * The callers of the pipeline *)

Lemma sbind_Done_inv {A B} (m : script A) (k : A -> script B) os b :
  sbind m k = (os, Done b) ->
  exists a os1 os2, m = (os1, Done a) /\ k a = (os2, Done b) /\ os = os1 ++ os2.
Proof.
  destruct m as [os1 [a|x|]]; simpl; intros H; try discriminate.
  destruct (k a) as [os2 r] eqn:Ek. inversion H; subst.
  exists a, os1, os2; auto.
Qed.

Lemma sbind_Fails_inv {A B} (m : script A) (k : A -> script B) os x :
  sbind m k = (os, Fails x) ->
  m = (os, Fails x)
  \/ exists a os1 os2, m = (os1, Done a) /\ k a = (os2, Fails x) /\ os = os1 ++ os2.
Proof.
  destruct m as [os1 [a|y|]]; simpl; intros H; try discriminate.
  - right. destruct (k a) as [os2 r] eqn:Ek. inversion H; subst.
    exists a, os1, os2; auto.
  - left; inversion H; reflexivity.
Qed.

Lemma assert_ok_Done N v message os u :
  assert_ok N v message = (os, Done u) -> truthy v = true /\ os = [].
Proof.
  unfold assert_ok; destruct (truthy v); intros H; inversion H; auto.
Qed.

Lemma assert_ok_Fails N v message os x :
  assert_ok N v message = (os, Fails x) ->
  os = [] /\ x = AssertionError (ok_message N v message).
Proof.
  unfold assert_ok; destruct (truthy v); intros H; inversion H; auto.
Qed.

Lemma assert_strictEqual_Done N a e message os u :
  assert_strictEqual N a e message = (os, Done u) -> same_value a e = true /\ os = [].
Proof.
  unfold assert_strictEqual; destruct (same_value a e); intros H; inversion H; auto.
Qed.

Lemma assert_strictEqual_Fails N a e message os x :
  assert_strictEqual N a e message = (os, Fails x) ->
  os = [] /\ x = AssertionError (strictEqual_message N a e message).
Proof.
  unfold assert_strictEqual; destruct (same_value a e); intros H; inversion H; auto.
Qed.

Lemma eval_inv {A} (c : outcome A) os o : eval c = (os, o) -> os = [] /\ c = o.
Proof. unfold eval; intros H; inversion H; auto. Qed.

Lemma pure_inv {A} (a : A) os o : pure a = (os, o) -> os = [] /\ o = Done a.
Proof. unfold pure; intros H; inversion H; auto. Qed.

Lemma console_log_line_Done l os u :
  console_log_line l = (os, Done u) -> os = [Stdout l].
Proof.
  unfold console_log_line; destruct (forallb renders l); intros H; inversion H; reflexivity.
Qed.

Lemma console_log_line_Fails l os x : console_log_line l = (os, Fails x) -> False.
Proof.
  unfold console_log_line; destruct (forallb renders l); discriminate.
Qed.

Lemma outcome_map_Fails {A B} (f : A -> B) (o : outcome A) x :
  outcome_map f o = Fails x -> o = Fails x.
Proof. destruct o; simpl; intros H; inversion H; reflexivity. Qed.

Lemma call_includes_Fails v needle x :
  call_includes v needle = Fails x -> x = Raised TypeError.
Proof. destruct v; simpl; intros H; inversion H; reflexivity. Qed.

Lemma lower_includes_Fails v needle x :
  lower_includes v needle = Fails x -> x = Raised TypeError.
Proof.
  destruct v; simpl; intros H; try (inversion H; reflexivity).
  destruct (is_ascii_string s); discriminate.
Qed.

Lemma populated_Fails v x : populated v = Fails x -> x = Raised TypeError.
Proof.
  unfold populated; destruct (truthy v); [|discriminate].
  intros H; apply outcome_map_Fails in H.
  destruct v; simpl in H; try (inversion H; reflexivity).
  destruct (lookup "length" props); discriminate.
Qed.

Lemma findM_Fails {A} (p : A -> outcome bool) (l : list A) x :
  (forall a y, p a = Fails y -> y = Raised TypeError) ->
  findM p l = Fails x -> x = Raised TypeError.
Proof.
  intros Hp; induction l as [|a l IH]; simpl; [discriminate|].
  destruct (p a) as [[|]|y|] eqn:Ea; intros H; try discriminate; auto.
  inversion H; subst; eauto.
Qed.

Lemma filterO_Fails {A} (p : A -> outcome bool) (l : list A) x :
  (forall a y, p a = Fails y -> y = Raised TypeError) ->
  filterO p l = Fails x -> x = Raised TypeError.
Proof.
  intros Hp; induction l as [|a l IH]; simpl; [discriminate|].
  destruct (p a) as [keep|y|] eqn:Ea; intros H; try discriminate.
  - destruct (filterO p l) as [ys|z|]; try discriminate.
    inversion H; subst; auto.
  - inversion H; subst; eauto.
Qed.

(** The body of a caller: the pipeline's events, then either its error or
    the caller's own code on the Title *)
Lemma caller_body {A} (es : list event) (r : result Anime) (K : Anime -> script A) :
  ((map Net es, Done tt) ~;; anime <~ of_result r ;; K anime)
  = match r with
    | Normal t => (map Net es ++ fst (K t), snd (K t))
    | Throw e => (map Net es, Fails (Raised e))
    end.
Proof.
  destruct r as [t|e]; simpl.
  - destruct (K t); reflexivity.
  - rewrite app_nil_r; reflexivity.
Qed.

Lemma includes_append_left (needle p s : string) :
  includes needle s = true -> includes needle (p ++ s) = true.
Proof.
  intros H; induction p as [|c p IH]; simpl; [exact H|].
  rewrite IH; apply Bool.orb_true_r.
Qed.

(** What a step that completed tells, and that it wrote nothing unless it
    is a [console.log] *)
Ltac completed_step Hs :=
  first
    [ apply assert_ok_Done in Hs; destruct Hs as [Hs ->]
    | apply assert_strictEqual_Done in Hs; destruct Hs as [Hs ->]
    | apply pure_inv in Hs; destruct Hs as [-> Hs]; inversion Hs; clear Hs
    | apply eval_inv in Hs; destruct Hs as [-> Hs]
    | apply console_log_line_Done in Hs; subst ].

(** Why a step of the validations failed *)
Ltac thrown_by_evaluation H :=
  first [ eapply call_includes_Fails; exact H
        | eapply populated_Fails; exact H
        | eapply findM_Fails; [|exact H];
          intros ? ? Hc; cbv beta in Hc; eapply call_includes_Fails; exact Hc
        | eapply filterO_Fails; [|exact H];
          intros ? ? Hc; cbv beta in Hc; eapply lower_includes_Fails; exact Hc
        | match type of H with
          | match ?o with Some _ => _ | None => _ end = Fails _ =>
              destruct o; [|discriminate H];
              apply outcome_map_Fails in H; eapply call_includes_Fails; exact H
          end ].

(** The validations of the integration test write nothing before they
    fail, and fail with a [TypeError] of their own evaluation or with the
    [AssertionError] of one of their assertions, none of which was given a
    message that holds "429". *)
Lemma integration_checks_failure N anime os x :
  integration_checks N anime = (os, Fails x) ->
  os = []
  /\ (x = Raised TypeError
      \/ (exists v m, x = AssertionError (ok_message N v m) /\ includes "429" m = false)
      \/ (exists a e m, x = AssertionError (strictEqual_message N a e m)
                        /\ includes "429" m = false)).
Proof.
  unfold integration_checks; intros H.
  repeat (let Hstep := fresh "Hstep" in
          apply sbind_Fails_inv in H;
          destruct H as [H | (?a & ?os1 & ?os2 & Hstep & H & ->)];
          [ first
              [ apply assert_ok_Fails in H; destruct H as [-> ->];
                split; [reflexivity|]; right; left; do 2 eexists;
                split; [reflexivity | vm_compute; reflexivity]
              | apply assert_strictEqual_Fails in H; destruct H as [-> ->];
                split; [reflexivity|]; right; right; do 3 eexists;
                split; [reflexivity | vm_compute; reflexivity]
              | apply eval_inv in H; destruct H as [-> H];
                split; [reflexivity|]; left; thrown_by_evaluation H
              | apply pure_inv in H; destruct H as [_ H]; discriminate H ]
          | completed_step Hstep; cbn [app] ]).
  exfalso; eapply console_log_line_Fails; eauto.
Qed.

(** Take a script that ran to its end apart into its steps. *)
Ltac script_steps H :=
  repeat (let a := fresh "a" in
          let os1 := fresh "os" in
          let os2 := fresh "os" in
          let Hstep := fresh "Hstep" in
          let Hos := fresh "Hos" in
          apply sbind_Done_inv in H;
          destruct H as (a & os1 & os2 & Hstep & H & Hos));
  repeat match goal with
         | Hs : assert_ok _ _ _ = (_, Done _) |- _ =>
             apply assert_ok_Done in Hs; destruct Hs as [? ?]
         | Hs : assert_strictEqual _ _ _ _ = (_, Done _) |- _ =>
             apply assert_strictEqual_Done in Hs; destruct Hs as [? ?]
         | Hs : pure _ = (_, Done _) |- _ => inversion Hs; clear Hs
         | Hs : eval _ = (_, Done _) |- _ => inversion Hs; clear Hs
         | Hs : console_log_line _ = (_, Done _) |- _ =>
             apply console_log_line_Done in Hs
         end.

Lemma studio_check (o : option AnimeCompany) :
  same_value (found (fun c => CompanyType_value (company_type c)) o) (VStr "Studio")
  = match o with
    | Some c => company_type_is c Studio
    | None => false
    end.
Proof.
  destruct o as [[co ty]|]; [destruct ty|]; reflexivity.
Qed.

Lemma integration_checks_Done N anime os u :
  integration_checks N anime = (os, Done u) ->
  os = [completed_line]
  /\ madhouse_first_is_studio anime = true.
Proof.
  unfold integration_checks; intros H.
  script_steps H; subst. split; [reflexivity|].
  unfold madhouse_first_is_studio; rewrite <- studio_check; assumption.
Qed.

Lemma runTest_checks_Done N anime duration os u :
  runTest_checks N anime duration = (os, Done u) ->
  madhouse_first_is_studio anime = true.
Proof.
  unfold runTest_checks; intros H.
  script_steps H; subst.
  unfold madhouse_first_is_studio; rewrite <- studio_check; assumption.
Qed.

(** The first assertion of the integration test, when the ids differ *)
Lemma integration_checks_id_mismatch N anime :
  same_value (id anime) (VNum 52991) = false ->
  integration_checks N anime
  = ([], Fails (AssertionError
                  (strictEqual_message N (id anime) (VNum 52991) "ID should match"))).
Proof.
  intros Hne; unfold integration_checks.
  unfold assert_strictEqual at 1; rewrite Hne; reflexivity.
Qed.

Lemma failing_fetch_rejects malId es r url res e :
  Invocation malId es r ->
  In (EvFetch url res) es ->
  settle res = Throw e ->
  r = Throw e.
Proof.
  intros H Hin He.
  destruct H; simpl in Hin;
    repeat match goal with
           | Hor : _ \/ _ |- _ => destruct Hor
           | Hf : False |- _ => contradiction
           | Hx : EvLog _ = EvFetch _ _ |- _ => discriminate Hx
           | Hx : EvSleep _ = EvFetch _ _ |- _ => discriminate Hx
           | Hx : EvFetch _ _ = EvFetch _ _ |- _ => inversion Hx; subst; clear Hx
           end;
    congruence.
Qed.

Lemma not_ok_settles res : ok res = false -> settle (Some res) = Throw (api_error res).
Proof. intros H; simpl; unfold unwrap; rewrite H; reflexivity. Qed.

Lemma integration_test_on_rejection N up hist es e :
  run up hist (getFullAnimeDetails FRIEREN_ID) = (es, Throw e) ->
  integration_test N up hist
  = match message_of (Raised e) with
    | Some m => if includes "429" m
                then (map Net es ++ [skipped_line], Done tt)
                else (map Net es, Fails (Raised e))
    | None => (map Net es, Unmodelled)
    end.
Proof.
  intros H; unfold integration_test; rewrite H, caller_body.
  destruct e; reflexivity.
Qed.

(** After a returned Title the integration test ends as its validations
    do, but for a failure with "429" in its message *)
Lemma integration_test_on_title N up hist es t :
  run up hist (getFullAnimeDetails FRIEREN_ID) = (es, Normal t) ->
  integration_test N up hist
  = match integration_checks N t with
    | (osC, Fails x) =>
        match message_of x with
        | Some m => if includes "429" m
                    then ((map Net es ++ osC) ++ [skipped_line], Done tt)
                    else (map Net es ++ osC, Fails x)
        | None => (map Net es ++ osC, Unmodelled)
        end
    | (osC, settled) => (map Net es ++ osC, settled)
    end.
Proof.
  intros H; unfold integration_test; rewrite H, caller_body.
  destruct (integration_checks N t) as [osC [u|x|]]; reflexivity.
Qed.

(** On a node that reports the messages the assertions were given, the
    handler of the integration test leaves a failed assertion as it is. *)
Lemma integration_test_given_messages N up hist es t :
  reports_given_messages N ->
  run up hist (getFullAnimeDetails FRIEREN_ID) = (es, Normal t) ->
  snd (integration_test N up hist) = Unmodelled
  \/ (integration_test N up hist = (map Net es ++ [completed_line], Done tt)
      /\ madhouse_first_is_studio t = true)
  \/ exists m, integration_test N up hist = (map Net es, Fails (AssertionError m))
               /\ includes "429" m = false.
Proof.
  intros [Hok Heq] H.
  rewrite (integration_test_on_title N _ _ H).
  destruct (integration_checks N t) as [osC [u|x|]] eqn:EC.
  - apply integration_checks_Done in EC; destruct EC as [-> Hm].
    destruct u; right; left; auto.
  - destruct (integration_checks_failure _ _ EC)
      as [-> [->|[(v & m & -> & Hm)|(a & e & m & -> & Hm)]]];
      cbn [message_of]; [left; reflexivity| |];
      rewrite ?Hok, ?Heq, Hm, app_nil_r; right; right; eauto.
  - left; reflexivity.
Qed.

Lemma runTest_on_rejection N up hist start finish es e :
  run up hist (getFullAnimeDetails FRIEREN_ID) = (es, Throw e) ->
  runTest N up hist start finish
  = (Stdout [Lit (nl ++ "--- STARTING POC TEST FOR ID: " ++ show_Z FRIEREN_ID
                     ++ " ---" ++ nl)]
     :: map Net es ++ [failed_banner; StderrError (Raised e)],
     Exited 1).
Proof.
  intros H; unfold runTest; rewrite H, caller_body; reflexivity.
Qed.

(** On the sample upstream both callers get through their validations. *)
Lemma sample_callers_succeed :
  snd (integration_test plain_node told_upstream []) = Done tt
  /\ In completed_line (fst (integration_test plain_node told_upstream []))
  /\ snd (runTest plain_node told_upstream [] 0 2150) = Completed.
Proof.
  split; [vm_compute; reflexivity|]. split; [|vm_compute; reflexivity].
  vm_compute. repeat (first [left; reflexivity | right]).
Qed.

Lemma rate_limit_message res :
  res_status res = 429%N ->
  ok res = false
  /\ exists m, api_error res = Error m /\ includes "429" m = true.
Proof.
  intros Hs; split; [unfold ok; rewrite Hs; reflexivity|].
  unfold api_error; rewrite Hs; eexists; split; [reflexivity|].
  apply (includes_append_left "429" "Jikan API Error "); reflexivity.
Qed.

(** X9: when a fetch of the pipeline is answered with status 429, the
    integration test of anime-poc.test.ts catches the error, logs that it
    was skipped and returns, so that [runner.test] records it as a passed
    test under the name fixed at its call; [runTest] of anime-poc.ts, on
    the same answers, reports the error and ends the process with exit
    code 1.  This holds whatever node does with assertion messages. *)
Theorem rate_limit_skips_the_test_and_fails_the_poc N up hist es r url res :
  run up hist (getFullAnimeDetails FRIEREN_ID) = (es, r) ->
  In (EvFetch url (Some res)) es ->
  res_status res = 429%N ->
  integration_test N up hist = (map Net es ++ [skipped_line], Done tt)
  /\ (forall runner p finish,
        exists runner' outs entry,
          run_registered_test runner p finish (integration_test N up hist)
          = Some (runner', outs, Normal tt)
          /\ results runner' = results runner ++ [entry]
          /\ tr_passed entry = true
          /\ tr_name entry = pt_fullName p)
  /\ (forall start finish,
        runTest N up hist start finish
        = (Stdout [Lit (nl ++ "--- STARTING POC TEST FOR ID: " ++ show_Z FRIEREN_ID
                           ++ " ---" ++ nl)]
           :: map Net es ++ [failed_banner; StderrError (Raised (api_error res))],
           Exited 1)).
Proof.
  intros H Hin Hs.
  destruct (rate_limit_message _ Hs) as (Hok & m & Hm & Hinc).
  assert (Hr : r = Throw (api_error res)).
  { eapply failing_fetch_rejects; eauto using run_Invocation, not_ok_settles. }
  subst r.
  assert (Hi : integration_test N up hist = (map Net es ++ [skipped_line], Done tt)).
  { rewrite (integration_test_on_rejection N _ _ H), Hm.
    cbn [message_of]; rewrite Hinc; reflexivity. }
  split; [exact Hi|]. split.
  - intros runner p finish.
    unfold run_registered_test; rewrite Hi; simpl.
    do 3 eexists; split; [reflexivity|]. repeat split; reflexivity.
  - intros start finish. apply runTest_on_rejection, H.
Qed.

Lemma rate_limit_skips_the_test_and_fails_the_poc_witness :
  run throttled_upstream [] (getFullAnimeDetails FRIEREN_ID)
  = (throttled_trace, Throw (Error "Jikan API Error 429: Too Many Requests"))
  /\ In (EvFetch (url_characters 52991) (Some too_many_requests)) throttled_trace
  /\ res_status too_many_requests = 429%N
  /\ integration_test telling_node throttled_upstream []
     = (map Net throttled_trace ++ [skipped_line], Done tt).
Proof.
  split; [vm_compute; reflexivity|].
  split; [vm_compute; tauto|].
  split; [reflexivity|].
  apply (@rate_limit_skips_the_test_and_fails_the_poc telling_node throttled_upstream []
           throttled_trace (Throw (Error "Jikan API Error 429: Too Many Requests"))
           (url_characters 52991) too_many_requests);
    [vm_compute; reflexivity | vm_compute; tauto | reflexivity].
Defined.

(** X10: the skip of the integration test is a substring test on the
    message of whatever was thrown inside its [try].  A rejection of the
    pipeline with an [Error] whose message holds "429" is skipped, so a
    failing answer of any status whose status text holds "429"; an
    [Error] without "429" is thrown on unchanged.  After a returned Title
    the test is skipped only through a failed assertion whose message, as
    node built it, holds "429".  On a node that reports the messages the
    assertions were given that does not happen: where the model determines
    the outcome, the test gets through its validations or fails with the
    assertion's error.  On a node that puts the compared values into the
    message it does happen, for a Title whose id differs from 52991 and
    brings "429" into it. *)
Theorem skip_follows_the_thrown_message N up hist es r :
  run up hist (getFullAnimeDetails FRIEREN_ID) = (es, r) ->
  (forall m,
     r = Throw (Error m) ->
     includes "429" m = true ->
     integration_test N up hist = (map Net es ++ [skipped_line], Done tt))
  /\ (forall url res,
        In (EvFetch url (Some res)) es ->
        ok res = false ->
        includes "429" (res_statusText res) = true ->
        integration_test N up hist = (map Net es ++ [skipped_line], Done tt))
  /\ (forall m,
        r = Throw (Error m) ->
        includes "429" m = false ->
        integration_test N up hist = (map Net es, Fails (Raised (Error m))))
  /\ (forall t os,
        r = Normal t ->
        integration_test N up hist = (os ++ [skipped_line], Done tt) ->
        exists m, integration_checks N t = ([], Fails (AssertionError m))
                  /\ includes "429" m = true)
  /\ (reports_given_messages N ->
      forall t,
        r = Normal t ->
        snd (integration_test N up hist) = Unmodelled
        \/ integration_test N up hist = (map Net es ++ [completed_line], Done tt)
        \/ exists m, integration_test N up hist = (map Net es, Fails (AssertionError m))
                     /\ includes "429" m = false)
  /\ (forall t,
        r = Normal t ->
        same_value (id t) (VNum 52991) = false ->
        includes "429" (strictEqual_message N (id t) (VNum 52991) "ID should match") = true ->
        integration_test N up hist = (map Net es ++ [skipped_line], Done tt)).
Proof.
  intros H.
  assert (Hafter : forall t os,
            r = Normal t ->
            integration_test N up hist = (os ++ [skipped_line], Done tt) ->
            exists x m, integration_checks N t = ([], Fails x)
                        /\ message_of x = Some m /\ includes "429" m = true).
  { intros t os -> Hos.
    rewrite (integration_test_on_title N _ _ H) in Hos.
    destruct (integration_checks N t) as [osC [u|x|]] eqn:EC.
    - apply integration_checks_Done in EC; destruct EC as [-> _].
      inversion Hos as [Hl]. apply app_inj_tail in Hl; destruct Hl as [_ Hl].
      discriminate Hl.
    - destruct (integration_checks_failure _ _ EC) as [-> _].
      destruct (message_of x) as [m|] eqn:Em; [|discriminate Hos].
      destruct (includes "429" m) eqn:Ei; [|discriminate Hos].
      exists x, m; auto.
    - discriminate Hos. }
  split; [|split; [|split; [|split; [|split]]]].
  - intros m -> Hm.
    rewrite (integration_test_on_rejection N _ _ H); simpl; rewrite Hm; reflexivity.
  - intros url res Hin Hok Htxt.
    assert (Hr : r = Throw (api_error res)).
    { eapply failing_fetch_rejects; eauto using run_Invocation, not_ok_settles. }
    subst r. rewrite (integration_test_on_rejection N _ _ H).
    unfold api_error; cbn [message_of].
    assert (Hi : includes "429" ("Jikan API Error " ++ show_N (res_status res)
                                 ++ ": " ++ res_statusText res) = true)
      by (repeat apply includes_append_left; exact Htxt).
    rewrite Hi; reflexivity.
  - intros m -> Hm.
    rewrite (integration_test_on_rejection N _ _ H); simpl; rewrite Hm; reflexivity.
  - intros t os Hr Hos.
    destruct (Hafter t os Hr Hos) as (x & m & EC & Em & Ei).
    destruct (integration_checks_failure _ _ EC) as [_ [->|[(v & m' & -> & _)|(a & e & m' & -> & _)]]];
      simpl in Em; [discriminate Em| |]; inversion Em; subst m; eauto.
  - intros HN t ->.
    destruct (@integration_test_given_messages N up hist es t HN H) as [Hu|[[Hd _]|Hf]]; auto.
  - intros t -> Hne Hinc.
    rewrite (integration_test_on_title N _ _ H), (integration_checks_id_mismatch N _ Hne).
    cbn [message_of]; rewrite Hinc, app_nil_r; reflexivity.
Qed.

Lemma skip_follows_the_thrown_message_witness :
  run renumbered_upstream [] (getFullAnimeDetails FRIEREN_ID)
  = (renumbered_trace, Normal renumbered_title)
  /\ same_value (id renumbered_title) (VNum 52991) = false
  /\ strictEqual_message telling_node (id renumbered_title) (VNum 52991) "ID should match"
     = ("ID should match" ++ nl ++ nl ++ "429 !== 52991" ++ nl)%string
  /\ integration_test telling_node renumbered_upstream []
     = (map Net renumbered_trace ++ [skipped_line], Done tt).
Proof.
  assert (Hrun : run renumbered_upstream [] (getFullAnimeDetails FRIEREN_ID)
                 = (renumbered_trace, Normal renumbered_title))
    by (vm_compute; reflexivity).
  split; [exact Hrun|].
  split; [vm_compute; reflexivity|].
  split; [vm_compute; reflexivity|].
  destruct (@skip_follows_the_thrown_message telling_node renumbered_upstream []
              renumbered_trace (Normal renumbered_title) Hrun)
    as (_ & _ & _ & _ & _ & Hskip).
  apply (Hskip renumbered_title eq_refl); vm_compute; reflexivity.
Defined.

Lemma first_madhouse (ps ls : list value) (rest : list AnimeCompany) :
  existsb named_madhouse (ps ++ ls) = true ->
  exists c,
    find (fun c => strict_eq_str (company_name (company c)) "Madhouse")
         (map (org Producer) ps ++ map (org Licensor) ls ++ rest) = Some c
    /\ company_type_is c Studio = false.
Proof.
  induction ps as [|p ps IH]; simpl.
  - induction ls as [|l ls IHl]; simpl; [discriminate|].
    fold (named_madhouse l). destruct (named_madhouse l); simpl; intros H.
    + eexists; split; reflexivity.
    + apply IHl, H.
  - fold (named_madhouse p). destruct (named_madhouse p); simpl; intros H.
    + eexists; split; reflexivity.
    + apply IH, H.
Qed.

(** X11: both callers look at the first organization named "Madhouse",
    and the Title lists producers before licensors before studios.  So
    when the upstream metadata names Madhouse among the producers or the
    licensors, neither caller can succeed, even though Madhouse is listed
    as a studio too.  Where the model determines how [runTest] ends, it
    ends the process with exit code 1.  The integration test does not get
    through its validations: it returns, if at all, by its skip, which
    takes a failed assertion whose message as node built it holds "429";
    on a node that reports the messages the assertions were given it
    fails with an assertion's error wherever the model determines its
    outcome. *)
Theorem madhouse_credited_before_studios_fails_both_callers N up hist es t :
  run up hist (getFullAnimeDetails FRIEREN_ID) = (es, Normal t) ->
  existsb named_madhouse
          (elements (get_opt (rawAnime_of es) "producers")
           ++ elements (get_opt (rawAnime_of es) "licensors")) = true ->
  madhouse_first_is_studio t = false
  /\ (forall start finish,
        snd (runTest N up hist start finish) = Exited 1
        \/ snd (runTest N up hist start finish) = Unknown)
  /\ (forall os u,
        integration_test N up hist = (os, Done u) ->
        os = map Net es ++ [skipped_line])
  /\ (reports_given_messages N ->
      snd (integration_test N up hist) = Unmodelled
      \/ exists m, integration_test N up hist = (map Net es, Fails (AssertionError m))
                   /\ includes "429" m = false).
Proof.
  intros H Hm.
  assert (Hf : madhouse_first_is_studio t = false).
  { rewrite (returned_anime_of _ _ _ H).
    unfold madhouse_first_is_studio; simpl.
    destruct (first_madhouse _ _
                (map (org Studio) (elements (get_opt (rawAnime_of es) "studios"))) Hm)
      as (c & -> & Hc).
    exact Hc. }
  split; [exact Hf|]. split; [|split].
  - intros start finish.
    unfold runTest; rewrite H, caller_body.
    destruct (runTest_checks N t (finish - start)) as [osC [u|x|]] eqn:EC; simpl; auto.
    apply runTest_checks_Done in EC; congruence.
  - intros os u Hend.
    rewrite (integration_test_on_title N _ _ H) in Hend.
    destruct (integration_checks N t) as [osC [u'|x|]] eqn:EC.
    + apply integration_checks_Done in EC; destruct EC as [_ EC]; congruence.
    + destruct (integration_checks_failure _ _ EC) as [-> _].
      destruct (message_of x) as [m|] eqn:Em; [|discriminate Hend].
      destruct (includes "429" m) eqn:Ei; [|discriminate Hend].
      inversion Hend; subst. rewrite app_nil_r; reflexivity.
    + discriminate Hend.
  - intros HN.
    destruct (@integration_test_given_messages N up hist es t HN H) as [Hu|[[_ Hd]|Hx]]; auto.
    congruence.
Qed.

Lemma madhouse_credited_before_studios_fails_both_callers_witness :
  run coproduced_upstream [] (getFullAnimeDetails FRIEREN_ID)
  = (coproduced_trace, Normal coproduced_title)
  /\ existsb named_madhouse
             (elements (get_opt (rawAnime_of coproduced_trace) "producers")
              ++ elements (get_opt (rawAnime_of coproduced_trace) "licensors")) = true
  /\ madhouse_first_is_studio coproduced_title = false.
Proof.
  assert (Hrun : run coproduced_upstream [] (getFullAnimeDetails FRIEREN_ID)
                 = (coproduced_trace, Normal coproduced_title)) by (vm_compute; reflexivity).
  split; [exact Hrun|]. split; [vm_compute; reflexivity|].
  apply (@madhouse_credited_before_studios_fails_both_callers plain_node
           coproduced_upstream [] coproduced_trace coproduced_title Hrun).
  vm_compute; reflexivity.
Defined.

(** * The language switch of the documentation page *)

Ltac page_fields :=
  cbn [location_search history_past local_storage_lang navigator_language
       i18n_elements html_dir body_classList select_options select_selected
       currentLang].

Lemma params_get_set k v l : params_get k (params_set k v l) = Some v.
Proof.
  induction l as [|[k' v'] l IH]; simpl.
  - rewrite String.eqb_refl; reflexivity.
  - destruct (k' =? k) eqn:E; simpl; [rewrite String.eqb_refl; reflexivity|].
    rewrite E; exact IH.
Qed.

Lemma params_delete_idem k l : params_delete k (params_delete k l) = params_delete k l.
Proof.
  unfold params_delete; induction l as [|[k' v'] l IH]; simpl; [reflexivity|].
  destruct (k' =? k) eqn:E; simpl; [exact IH|].
  rewrite E; simpl; rewrite IH; reflexivity.
Qed.

Lemma params_delete_set k v l :
  params_delete k (params_set k v l) = params_delete k l.
Proof.
  induction l as [|[k' v'] l IH]; simpl.
  - rewrite String.eqb_refl; reflexivity.
  - destruct (k' =? k) eqn:E; simpl.
    + rewrite String.eqb_refl; simpl. apply params_delete_idem.
    + rewrite E; simpl; rewrite IH; reflexivity.
Qed.

Lemma params_delete_none k l :
  filter (fun kv => fst kv =? k) (params_delete k l) = [].
Proof.
  unfold params_delete; induction l as [|[k' v'] l IH]; simpl; [reflexivity|].
  destruct (k' =? k) eqn:E; simpl; [exact IH|]. rewrite E; exact IH.
Qed.

Lemma params_set_once k v l :
  filter (fun kv => fst kv =? k) (params_set k v l) = [(k, v)].
Proof.
  induction l as [|[k' v'] l IH]; simpl.
  - rewrite String.eqb_refl; reflexivity.
  - destruct (k' =? k) eqn:E; simpl.
    + rewrite String.eqb_refl, params_delete_none; reflexivity.
    + rewrite E; exact IH.
Qed.

Lemma params_delete_absent k l :
  filter (fun kv => fst kv =? k) l = [] -> params_delete k l = l.
Proof.
  unfold params_delete; induction l as [|[k' v'] l IH]; simpl; [reflexivity|].
  destruct (k' =? k) eqn:E; simpl; [discriminate|].
  intros H; rewrite (IH H); reflexivity.
Qed.

Lemma params_set_idem k v l : params_set k v (params_set k v l) = params_set k v l.
Proof.
  induction l as [|[k' v'] l IH]; simpl.
  - rewrite String.eqb_refl; reflexivity.
  - destruct (k' =? k) eqn:E; simpl.
    + rewrite String.eqb_refl, params_delete_idem; reflexivity.
    + rewrite E, IH; reflexivity.
Qed.

Lemma class_add_has c l : existsb (String.eqb c) (class_add c l) = true.
Proof.
  unfold class_add; destruct (existsb (String.eqb c) l) eqn:E; [exact E|].
  rewrite existsb_app; simpl; rewrite String.eqb_refl.
  rewrite Bool.orb_true_r; reflexivity.
Qed.

Lemma class_remove_has c l : existsb (String.eqb c) (class_remove c l) = false.
Proof.
  unfold class_remove; induction l as [|x l IH]; simpl; [reflexivity|].
  destruct (x =? c) eqn:E; simpl; [exact IH|].
  rewrite String.eqb_sym, E; exact IH.
Qed.

Lemma class_add_idem c l : class_add c (class_add c l) = class_add c l.
Proof.
  unfold class_add at 1; rewrite class_add_has; reflexivity.
Qed.

Lemma class_remove_idem c l : class_remove c (class_remove c l) = class_remove c l.
Proof.
  unfold class_remove; induction l as [|x l IH]; simpl; [reflexivity|].
  destruct (x =? c) eqn:E; simpl; [exact IH|]. rewrite E; simpl; rewrite IH; reflexivity.
Qed.

Lemma relabel_idem T lang el : relabel T lang (relabel T lang el) = relabel T lang el.
Proof.
  unfold relabel; destruct (translation T lang (fst el)) as [text|] eqn:E;
    [destruct (text =? "") eqn:E'|]; cbn [fst]; rewrite E; try rewrite E'; reflexivity.
Qed.

Lemma setLanguage_in_step T lang p :
  known T lang = true -> in_step (setLanguage T lang p).
Proof.
  intros Hk; unfold setLanguage, in_step; rewrite Hk; cbn [negb]; page_fields.
  split; [reflexivity|]. split; [apply params_get_set|]. split; [reflexivity|].
  destruct (lang =? "ar"); [apply class_add_has | apply class_remove_has].
Qed.

Lemma setLanguage_currentLang T lang p :
  known T lang = true -> currentLang (setLanguage T lang p) = lang.
Proof. intros Hk; unfold setLanguage; rewrite Hk; reflexivity. Qed.

Lemma setLanguage_unknown T lang p : known T lang = false -> setLanguage T lang p = p.
Proof. intros Hk; unfold setLanguage; rewrite Hk; reflexivity. Qed.

(** X12: for a language the table knows, [setLanguage] stores the language,
    sets the [lang] parameter of the address to it -- once, with every
    other parameter kept in place -- leaves the previous address behind as
    a history entry, and switches the text direction: [dir] is "rtl" and
    the body carries the class rtl exactly for "ar".  For a language the
    table does not know it changes nothing at all. *)
Theorem setLanguage_updates_storage_address_and_direction T lang p :
  (known T lang = true ->
   local_storage_lang (setLanguage T lang p) = Some lang
   /\ params_get "lang" (location_search (setLanguage T lang p)) = Some lang
   /\ filter (fun kv => fst kv =? "lang") (location_search (setLanguage T lang p))
      = [("lang", lang)]
   /\ params_delete "lang" (location_search (setLanguage T lang p))
      = params_delete "lang" (location_search p)
   /\ history_past (setLanguage T lang p) = location_search p :: history_past p
   /\ html_dir (setLanguage T lang p) = Some (if lang =? "ar" then "rtl" else "ltr")
   /\ existsb (String.eqb "rtl") (body_classList (setLanguage T lang p)) = (lang =? "ar")
   /\ class_remove "rtl" (body_classList (setLanguage T lang p))
      = class_remove "rtl" (body_classList p))
  /\ (known T lang = false -> setLanguage T lang p = p).
Proof.
  split; [|apply setLanguage_unknown].
  intros Hk; unfold setLanguage; rewrite Hk; cbn [negb]; page_fields.
  split; [reflexivity|]. split; [apply params_get_set|].
  split; [apply params_set_once|]. split; [apply params_delete_set|].
  split; [reflexivity|]. split; [reflexivity|].
  destruct (lang =? "ar"); split;
    [apply class_add_has | | apply class_remove_has | apply class_remove_idem].
  unfold class_add; destruct (existsb (String.eqb "rtl") (body_classList p));
    [reflexivity|].
  unfold class_remove; rewrite filter_app; cbn [filter].
  rewrite String.eqb_refl; cbn [negb]; rewrite app_nil_r; reflexivity.
Qed.

Lemma setLanguage_updates_storage_address_and_direction_witness :
  known sample_translations "ar" = true
  /\ location_search (setLanguage sample_translations "ar" sample_page)
     = [("ref", "readme"); ("lang", "ar")]
  /\ params_get "lang" (location_search (setLanguage sample_translations "ar" sample_page))
     = Some "ar".
Proof.
  split; [reflexivity|]. split; [reflexivity|].
  apply (@setLanguage_updates_storage_address_and_direction sample_translations "ar" sample_page).
  reflexivity.
Defined.

(** X13: a language chosen with [setLanguage] survives a reload: when the
    page is loaded again from the address and the storage the call left,
    the load handler settles on that language again, whatever the browser
    language is and whatever document is served.  The language has to be
    a non-empty string: the handler takes an empty parameter for a missing
    one. *)
Theorem chosen_language_survives_reload T lang p served :
  known T lang = true ->
  lang <> "" ->
  initial_language T (reload served (setLanguage T lang p)) = lang
  /\ currentLang (on_load T (reload served (setLanguage T lang p))) = lang
  /\ i18n_elements (on_load T (reload served (setLanguage T lang p)))
     = map (relabel T lang) (i18n_elements served)
  /\ select_selected (on_load T (reload served (setLanguage T lang p)))
     = select_value lang (select_options served).
Proof.
  intros Hk Hne.
  assert (Hi : initial_language T (reload served (setLanguage T lang p)) = lang).
  { unfold initial_language, reload; page_fields.
    unfold setLanguage; rewrite Hk; cbn [negb]; page_fields.
    rewrite params_get_set; cbn [usable]. rewrite Hk.
    apply String.eqb_neq in Hne; rewrite Hne; reflexivity. }
  split; [exact Hi|].
  unfold on_load; rewrite Hi.
  unfold with_selected; page_fields.
  rewrite (@setLanguage_currentLang T lang _ Hk).
  unfold setLanguage; rewrite Hk; cbn [negb]; page_fields.
  unfold with_currentLang, reload; page_fields. auto.
Qed.

Lemma chosen_language_survives_reload_witness :
  known sample_translations "ar" = true
  /\ "ar" <> ""
  /\ currentLang (on_load sample_translations
                          (reload sample_page
                                  (setLanguage sample_translations "ar" sample_page)))
     = "ar".
Proof.
  split; [reflexivity|]. split; [discriminate|].
  apply (@chosen_language_survives_reload sample_translations "ar" sample_page sample_page);
    [reflexivity | discriminate].
Defined.


Lemma on_load_known T p :
  known T (initial_language T p) = true ->
  currentLang (on_load T p) = initial_language T p /\ in_step (on_load T p).
Proof.
  intros Hk; unfold on_load, with_selected.
  pose proof (@setLanguage_in_step T _ (with_currentLang (initial_language T p) p) Hk) as Hs.
  pose proof (@setLanguage_currentLang T _ (with_currentLang (initial_language T p) p) Hk)
    as Hc.
  unfold in_step in *; page_fields; rewrite Hc in *. split; [reflexivity | exact Hs].
Qed.

Lemma on_load_unknown T p :
  known T (initial_language T p) = false ->
  currentLang (on_load T p) = "en" /\ initial_language T p = "en"
  /\ untouched p (on_load T p).
Proof.
  intros Hk.
  assert (He : initial_language T p = "en").
  { revert Hk; unfold initial_language.
    destruct (usable T (params_get "lang" (location_search p))) eqn:E1.
    - destruct (params_get "lang" (location_search p)) as [l|]; [|discriminate].
      cbn [usable] in E1; apply andb_prop in E1; destruct E1 as [_ E1]; congruence.
    - destruct (usable T (local_storage_lang p)) eqn:E2.
      + destruct (local_storage_lang p) as [l|]; [|discriminate].
        cbn [usable] in E2; apply andb_prop in E2; destruct E2 as [_ E2]; congruence.
      + cbv zeta.
        destruct (known T (substring 0 2 (navigator_language p))) eqn:E3;
          [congruence | reflexivity]. }
  unfold on_load, with_selected; page_fields.
  rewrite (@setLanguage_unknown T _ _ Hk). unfold with_currentLang, untouched; page_fields.
  rewrite He; repeat split; reflexivity.
Qed.

Lemma untouched_setLanguage_unknown T v p q :
  known T v = false -> untouched p q -> untouched p (setLanguage T v q).
Proof. intros Hk H; rewrite (@setLanguage_unknown T _ _ Hk); exact H. Qed.

(** X14: through a whole visit -- the load handler, then any sequence of
    choices in the language select -- the page is in one of two states.
    Either the current language is one the table knows, and then the
    stored language, the [lang] parameter of the address, the [dir]
    attribute and the rtl class of the body all agree with it; or the
    table knows no language that was ever asked for, and then the current
    language is the default "en" and the address, the history, the
    storage, the texts, [dir] and the body classes are as the page was
    loaded. *)
Theorem visit_keeps_page_in_step T p picked :
  (known T (currentLang (visit T p picked)) = true /\ in_step (visit T p picked))
  \/ (known T (currentLang (visit T p picked)) = false
      /\ currentLang (visit T p picked) = "en"
      /\ untouched p (visit T p picked)).
Proof.
  unfold visit.
  assert (H0 : (known T (currentLang (on_load T p)) = true /\ in_step (on_load T p))
               \/ (known T (currentLang (on_load T p)) = false
                   /\ currentLang (on_load T p) = "en" /\ untouched p (on_load T p))).
  { destruct (known T (initial_language T p)) eqn:Hk.
    - destruct (@on_load_known T p Hk) as [Hc Hs]. left; rewrite Hc; auto.
    - destruct (@on_load_unknown T p Hk) as [Hc [He Hu]]. right.
      rewrite Hc; rewrite He in Hk; auto. }
  revert H0; generalize (on_load T p) as q.
  induction picked as [|v picked IH]; intros q H0; cbn [fold_left]; [exact H0|].
  apply IH. unfold on_change.
  destruct (known T v) eqn:Hv.
  - left; rewrite (@setLanguage_currentLang T v q Hv); split;
      [exact Hv | apply setLanguage_in_step; exact Hv].
  - rewrite (@setLanguage_unknown T _ _ Hv); exact H0.
Qed.

(** X15: texts of two languages can stand side by side.  [setLanguage]
    replaces the text of an element only when the new language has a
    (non-empty) translation for its key, so after a switch from one known
    language to another an element whose key only the first one
    translates still shows the first language's text. *)
Theorem missing_translation_keeps_previous_text T lang1 lang2 key text p :
  known T lang1 = true ->
  known T lang2 = true ->
  translation T lang1 key = Some text ->
  text <> "" ->
  translation T lang2 key = None ->
  forall i old,
    nth_error (i18n_elements p) i = Some (key, old) ->
    nth_error (i18n_elements (setLanguage T lang2 (setLanguage T lang1 p))) i
    = Some (key, text)
    /\ currentLang (setLanguage T lang2 (setLanguage T lang1 p)) = lang2.
Proof.
  intros H1 H2 Ht1 Hne Ht2 i old Hi.
  split; [|apply setLanguage_currentLang; exact H2].
  unfold setLanguage; rewrite H1, H2; cbn [negb]; page_fields.
  rewrite map_map, nth_error_map, Hi; cbn [option_map].
  apply String.eqb_neq in Hne.
  unfold relabel; cbn [fst snd]; rewrite Ht1, Hne; cbn [fst snd]; rewrite Ht2; reflexivity.
Qed.

Lemma missing_translation_keeps_previous_text_witness :
  nth_error (i18n_elements (setLanguage sample_translations "pt"
                              (setLanguage sample_translations "ar" sample_page))) 0
  = Some ("title", "Anime PoC (ar)").
Proof.
  apply (@missing_translation_keeps_previous_text sample_translations "ar" "pt" "title"
           "Anime PoC (ar)" sample_page eq_refl eq_refl eq_refl) with (old := "Anime PoC");
    [discriminate | reflexivity | reflexivity].
Defined.

(** X16: choosing the language that is already set changes nothing on the
    page -- address, storage, texts, direction and classes stay as the
    first call left them -- but it still pushes a history entry, so the
    history then holds the address twice over. *)
Theorem choosing_again_only_adds_history T lang p :
  known T lang = true ->
  same_but_history (setLanguage T lang p) (setLanguage T lang (setLanguage T lang p))
  /\ history_past (setLanguage T lang (setLanguage T lang p))
     = location_search (setLanguage T lang p) :: location_search p :: history_past p.
Proof.
  intros Hk; unfold same_but_history, setLanguage; rewrite Hk; cbn [negb]; page_fields.
  rewrite params_set_idem, map_map.
  rewrite (map_ext _ _ (relabel_idem T lang)).
  destruct (lang =? "ar"); rewrite ?class_add_idem, ?class_remove_idem;
    repeat split; reflexivity.
Qed.

Lemma choosing_again_only_adds_history_witness :
  known sample_translations "pt" = true
  /\ history_past (setLanguage sample_translations "pt"
                     (setLanguage sample_translations "pt" sample_page))
     = [[("ref", "readme"); ("lang", "pt")];
        [("ref", "readme"); ("lang", "pt"); ("lang", "xx")]].
Proof.
  split; [reflexivity|].
  apply (@choosing_again_only_adds_history sample_translations "pt" sample_page).
  reflexivity.
Defined.
